(** * Agda module dependency analyzer: a shallow embedding

    Source: [src/support/analyze_dependencies.py].

    The development follows the script top-down:
    - [Re]: the fragment of Python's [re] used by the two patterns of
      [_parse_imports], as a backtracking matcher over a small syntax;
    - [AgdaModule], [parse_imports], [scan_modules]: the import extractor and
      the construction of [modules] and [reverse_deps];
    - [find_foundational_modules], [find_hub_modules]: the two rankings;
    - [dfs], [calculate_dependency_chains], [analyze_dependency_patterns]:
      the chain depth and the depth tiers;
    - [generate_dot_graph]: the nodes, the edges and the legend of the graph
      file.

    Conventions.  A Python [str] is a [string]; a [Dict] whose iteration
    order the code relies on is an association list in insertion order
    ([dict_set], [dict_get]); a [Set[str]] that the code iterates over is the
    list of its elements in iteration order (no duplicates, the order being
    whatever the runtime picks); a set or dictionary that is only queried is a
    [gset] or a [gmap]; a Python [int] is a [Z].  The interpreter's call
    stack is bounded: a function that recurses takes the room it has as a
    budget, and running out of it is the interpreter's [RecursionError]. *)

From Stdlib Require Import String Ascii ZArith List Lia Permutation Sorted.
From Stdlib Require Import DecimalString.
From stdpp Require Import base tactics option list relations gmap strings.

Local Open Scope string_scope.
Local Open Scope list_scope.

(** ** Strings *)

Definition newline : ascii := "010"%char.

(** [s.startswith(prefix)] *)
Definition startswith (prefix s : string) : bool := String.prefix prefix s.

(** [s.endswith(suffix)] *)
Definition endswith (suffix s : string) : bool :=
  (String.length suffix <=? String.length s)%nat &&
  String.eqb
    (String.substring (String.length s - String.length suffix)
       (String.length suffix) s)
    suffix.

(** [content.split('\n')]: always at least one piece. *)
Fixpoint split_lines (content : string) : list string :=
  match content with
  | EmptyString => [EmptyString]
  | String c content' =>
      if Ascii.eqb c newline then EmptyString :: split_lines content'
      else match split_lines content' with
           | line :: lines => String c line :: lines
           | [] => [String c EmptyString]
           end
  end.

(** ** Regular expressions *)

Module Re.

(** A position in the subject: the character just before it, if any, and
    what is left to read. *)
Record pos := Pos { before : option ascii; rest : string }.

Inductive regex : Type :=
| Eps                            (* the empty pattern *)
| Chr (c : ascii)                (* a literal character *)
| Class (p : ascii → bool)       (* a character class: \s, \w, [...] *)
| AnyChar                        (* .   anything but a newline *)
| Bol                            (* ^   start of the subject *)
| Eol                            (* $   end, or before a final newline *)
| WordB (w : ascii → bool)       (* \b  word boundary, for word class w *)
| Cat (r1 r2 : regex)
| Opt (r : regex)                (* r?  greedy *)
| Star (r : regex)               (* r*  greedy *)
| Group (r : regex).             (* (r) capturing group 1 *)

Definition Plus (r : regex) : regex := Cat r (Star r).

(** A run of literal characters. *)
Fixpoint Lit (s : string) : regex :=
  match s with
  | EmptyString => Eps
  | String c s' => Cat (Chr c) (Lit s')
  end.

(** The text read between two positions of one subject. *)
Definition consumed (p p' : pos) : string :=
  String.substring 0 (String.length (rest p) - String.length (rest p')) (rest p).

Definition is_word_at (w : ascii → bool) (c : option ascii) : bool :=
  match c with Some c => w c | None => false end.

Definition next (p : pos) : option ascii :=
  match rest p with String c _ => Some c | EmptyString => None end.

Definition step (p : pos) (ok : ascii → bool) : option pos :=
  match rest p with
  | String c s => if ok c then Some (Pos (Some c) s) else None
  | EmptyString => None
  end.

(** One greedy repetition: try the body once more, provided it reads
    something, and only then hand the position to the continuation.  [n]
    bounds the number of rounds by the length of what is left to read. *)
Definition star_loop
    (body : pos → option string →
            (pos → option string → option (option string)) → option (option string))
    (k : pos → option string → option (option string))
    : nat → pos → option string → option (option string) :=
  fix loop (n : nat) (p : pos) (g : option string) :=
    match
      match n with
      | O => None
      | S n' =>
          body p g (λ p' g',
            if (String.length (rest p') <? String.length (rest p))%nat
            then loop n' p' g' else None)
      end
    with
    | Some m => Some m
    | None => k p g
    end.

(** The matcher, in continuation-passing style: [exec r p g k] tries [r] at
    [p] with group 1 currently [g], and hands every way of matching, longest
    first for the greedy operators, to [k] until [k] accepts one.  The result
    is the content of group 1 of the match found. *)
Fixpoint exec (r : regex) (p : pos) (g : option string)
    (k : pos → option string → option (option string)) : option (option string) :=
  match r with
  | Eps => k p g
  | Chr c =>
      match step p (Ascii.eqb c) with Some p' => k p' g | None => None end
  | Class ok =>
      match step p ok with Some p' => k p' g | None => None end
  | AnyChar =>
      match step p (λ c, negb (Ascii.eqb c newline)) with
      | Some p' => k p' g
      | None => None
      end
  | Bol => match before p with None => k p g | Some _ => None end
  | Eol =>
      if String.eqb (rest p) EmptyString
         || String.eqb (rest p) (String newline EmptyString)
      then k p g else None
  | WordB w =>
      if xorb (is_word_at w (before p)) (is_word_at w (next p))
      then k p g else None
  | Cat r1 r2 => exec r1 p g (λ p' g', exec r2 p' g' k)
  | Opt r1 =>
      match exec r1 p g k with
      | Some m => Some m
      | None => k p g
      end
  | Star r1 => star_loop (exec r1) k (String.length (rest p)) p g
  | Group r1 => exec r1 p g (λ p' _, k p' (Some (consumed p p')))
  end.

(** [re.match(pattern, s)]: the match is anchored at the start; [Some g] is a
    match object whose [group(1)] is [g]. *)
Definition re_match (r : regex) (s : string) : option (option string) :=
  exec r (Pos None s) None (λ _ g, Some g).

(** [re.search(pattern, s)]: the first position where the pattern matches. *)
Fixpoint search_from (r : regex) (prev : option ascii) (s : string)
    : option (option string) :=
  match exec r (Pos prev s) None (λ _ g, Some g) with
  | Some m => Some m
  | None =>
      match s with
      | String c s' => search_from r (Some c) s'
      | EmptyString => None
      end
  end.

Definition re_search (r : regex) (s : string) : option (option string) :=
  search_from r None s.

(** What a match is, without the search: [matches r p g p' g'] when [r] can
    read from [p] to [p'], taking group 1 from [g] to [g']. *)
Inductive matches : regex → pos → option string → pos → option string → Prop :=
| m_eps p g : matches Eps p g p g
| m_chr c p g p' : step p (Ascii.eqb c) = Some p' → matches (Chr c) p g p' g
| m_class ok p g p' : step p ok = Some p' → matches (Class ok) p g p' g
| m_any p g p' :
    step p (λ c, negb (Ascii.eqb c newline)) = Some p' → matches AnyChar p g p' g
| m_bol p g : before p = None → matches Bol p g p g
| m_eol p g :
    String.eqb (rest p) EmptyString
    || String.eqb (rest p) (String newline EmptyString) = true →
    matches Eol p g p g
| m_wordb w p g :
    xorb (is_word_at w (before p)) (is_word_at w (next p)) = true →
    matches (WordB w) p g p g
| m_cat r1 r2 p g p1 g1 p2 g2 :
    matches r1 p g p1 g1 → matches r2 p1 g1 p2 g2 →
    matches (Cat r1 r2) p g p2 g2
| m_opt_some r p g p' g' : matches r p g p' g' → matches (Opt r) p g p' g'
| m_opt_none r p g : matches (Opt r) p g p g
| m_star_more r p g p1 g1 p2 g2 :
    matches r p g p1 g1 → matches (Star r) p1 g1 p2 g2 →
    matches (Star r) p g p2 g2
| m_star_done r p g : matches (Star r) p g p g
| m_group r p g p' g' :
    matches r p g p' g' → matches (Group r) p g p' (Some (consumed p p')).

(** A pattern without a capturing group. *)
Fixpoint groupless (r : regex) : bool :=
  match r with
  | Cat r1 r2 => groupless r1 && groupless r2
  | Opt r1 | Star r1 => groupless r1
  | Group _ => false
  | _ => true
  end.

End Re.

(** ** The import extractor *)

(** [class AgdaModule] *)
Record AgdaModule := {
  name : string;
  filepath : string;
  imports : list string;
  public_imports : list string;
  is_literate : bool
}.

(** [AgdaModule.__init__] *)
Definition new_module (name filepath : string) : AgdaModule :=
  {| name := name;
     filepath := filepath;
     imports := [];
     public_imports := [];
     is_literate := endswith ".lagda.md" filepath |}.

(** [s.add(x)] on a set kept as the list of its elements. *)
Definition set_add (x : string) (s : list string) : list string :=
  if bool_decide (x ∈ s) then s else s ++ [x].

Section Extractor.

(** The tables behind [\s], [\w] and [str.strip] belong to the Python
    runtime; the extractor is parametric in them. *)
Variables uni_space uni_word : ascii → bool.

Fixpoint lstrip (s : string) : string :=
  match s with
  | String c s' => if uni_space c then lstrip s' else s
  | EmptyString => EmptyString
  end.

Fixpoint rstrip (s : string) : string :=
  match s with
  | String c s' =>
      match rstrip s' with
      | EmptyString => if uni_space c then EmptyString else String c EmptyString
      | t => String c t
      end
  | EmptyString => EmptyString
  end.

(** [s.strip()] *)
Definition strip (s : string) : string := rstrip (lstrip s).

(** The class "[\w.]" *)
Definition word_or_dot (c : ascii) : bool := uni_word c || Ascii.eqb c "."%char.

(** [import_pattern], as the source writes it, and as a [Re.regex]. *)
Definition import_pattern_text : string :=
  "^\s*(?:open\s+)?import\s+([\w.]+)(?:\s+.*)?$".

Definition import_pattern : Re.regex :=
  Re.Cat Re.Bol
 (Re.Cat (Re.Star (Re.Class uni_space))
 (Re.Cat (Re.Opt (Re.Cat (Re.Lit "open") (Re.Plus (Re.Class uni_space))))
 (Re.Cat (Re.Lit "import")
 (Re.Cat (Re.Plus (Re.Class uni_space))
 (Re.Cat (Re.Group (Re.Plus (Re.Class word_or_dot)))
 (Re.Cat (Re.Opt (Re.Cat (Re.Plus (Re.Class uni_space)) (Re.Star Re.AnyChar)))
         Re.Eol)))))).

(** [public_pattern], likewise. *)
Definition public_pattern_text : string := "\bpublic\b".

Definition public_pattern : Re.regex :=
  Re.Cat (Re.WordB uni_word) (Re.Cat (Re.Lit "public") (Re.WordB uni_word)).

(** The body of the loop over the lines in [_parse_imports].  Group 1 takes
    part in every match of [import_pattern] ([import_pattern_group] below),
    so [match.group(1)] is a string. *)
Definition parse_line (module : AgdaModule) (line : string) : AgdaModule :=
  if startswith "--" (strip line) then module
  else
    match Re.re_match import_pattern line with
    | Some (Some imported_module) =>
        let module :=
          {| name := name module;
             filepath := filepath module;
             imports := set_add imported_module (imports module);
             public_imports := public_imports module;
             is_literate := is_literate module |} in
        match Re.re_search public_pattern line with
        | Some _ =>
             {| name := name module;
                filepath := filepath module;
                imports := imports module;
                public_imports := set_add imported_module (public_imports module);
                is_literate := is_literate module |}
        | None => module
        end
    | _ => module
    end.

(** [_parse_imports], from the point where [content] is the text to scan:
    reading the file and, for a literate file, extracting its code blocks
    come before. *)
Definition parse_imports (module : AgdaModule) (content : string) : AgdaModule :=
  fold_left parse_line (split_lines content) module.

End Extractor.

(** Python's tables on the ASCII range. *)
Definition ascii_space (c : ascii) : bool :=
  let n := nat_of_ascii c in
  ((9 <=? n) && (n <=? 13) || (28 <=? n) && (n <=? 32))%nat.

Definition ascii_word (c : ascii) : bool :=
  let n := nat_of_ascii c in
  ((48 <=? n) && (n <=? 57) || (65 <=? n) && (n <=? 90)
   || (97 <=? n) && (n <=? 122) || (n =? 95))%nat.

(** ** Dictionaries in insertion order *)

Section Dict.
Context {V : Type}.

(** [d.get(k)] *)
Fixpoint dict_get (k : string) (d : list (string * V)) : option V :=
  match d with
  | [] => None
  | (k', v) :: d' => if String.eqb k k' then Some v else dict_get k d'
  end.

(** [k in d] *)
Definition dict_mem (k : string) (d : list (string * V)) : bool :=
  match dict_get k d with Some _ => true | None => false end.

(** [d[k] = v]: a key already present keeps its place. *)
Fixpoint dict_set (k : string) (v : V) (d : list (string * V)) : list (string * V) :=
  match d with
  | [] => [(k, v)]
  | (k', v') :: d' =>
      if String.eqb k k' then (k, v) :: d' else (k', v') :: dict_set k v d'
  end.

Definition dict_keys (d : list (string * V)) : list string := map fst d.

End Dict.

(** ** Sorting and slicing *)

Section Sort.
Context {A : Type}.

Fixpoint insert_by (le : Z → Z → bool) (key : A → Z) (x : A) (l : list A) : list A :=
  match l with
  | [] => [x]
  | y :: l' => if le (key x) (key y) then x :: l else y :: insert_by le key x l'
  end.

Definition sort_by (le : Z → Z → bool) (key : A → Z) (l : list A) : list A :=
  foldr (insert_by le key) [] l.

(** [sorted(l, key=key, reverse=reverse)] and [l.sort(key=key,
    reverse=reverse)].  Python's sort is stable, also with [reverse=True];
    a stable sort has one possible result, so insertion stands for it. *)
Definition sorted (key : A → Z) (reverse : bool) (l : list A) : list A :=
  sort_by (if reverse then Z.geb else Z.leb) key l.

(** [l[:limit]] *)
Definition slice_to (limit : Z) (l : list A) : list A :=
  if (limit <? 0)%Z then take (length l - Z.to_nat (- limit)) l
  else take (Z.to_nat limit) l.

End Sort.

(** ** The dependency graph *)

(** What [scan_modules] has in hand for one file when it reaches
    [self.modules[module_name] = module]: the result of
    [_filepath_to_module_name], the path, and the text that
    [_parse_imports] scans. *)
Record agda_file := {
  file_module_name : string;
  file_path : string;
  file_content : string
}.

(** [class DependencyAnalyzer] *)
Record DependencyAnalyzer := {
  modules : list (string * AgdaModule);
  reverse_deps : gmap string (gset string)
}.

(** [self.reverse_deps[imported].add(module_name)] on a [defaultdict(set)]. *)
Definition reverse_deps_add (imported module_name : string)
    (rd : gmap string (gset string)) : gmap string (gset string) :=
  <[imported := default ∅ (rd !! imported) ∪ {[module_name]}]> rd.

(** The loop "Build reverse dependency graph" of [scan_modules]. *)
Definition build_reverse_deps (modules : list (string * AgdaModule))
    : gmap string (gset string) :=
  fold_left
    (λ rd item,
       fold_left (λ rd imported, reverse_deps_add imported (fst item) rd)
         (imports (snd item)) rd)
    modules ∅.

Section Scan.
Variables uni_space uni_word : ascii → bool.

Definition scan_file (modules : list (string * AgdaModule)) (f : agda_file)
    : list (string * AgdaModule) :=
  let module_name := file_module_name f in
  if String.eqb module_name "" then modules
  else
    let module := new_module module_name (file_path f) in
    let module := parse_imports uni_space uni_word module (file_content f) in
    dict_set module_name module modules.

(** [scan_modules] *)
Definition scan_modules (agda_files : list agda_file) : DependencyAnalyzer :=
  let modules := fold_left scan_file agda_files [] in
  {| modules := modules; reverse_deps := build_reverse_deps modules |}.

End Scan.

(** ** Rankings *)

(** [len([imp for imp in module.imports if imp in self.modules])] *)
Definition internal_imports (modules : list (string * AgdaModule))
    (module : AgdaModule) : Z :=
  Z.of_nat (length (List.filter (λ imp, dict_mem imp modules) (imports module))).

(** [find_foundational_modules] *)
Definition find_foundational_modules (self : DependencyAnalyzer) (limit : Z)
    : list (string * Z) :=
  let modules_by_import_count :=
    map (λ item, (fst item, internal_imports (modules self) (snd item)))
      (modules self) in
  slice_to limit (sorted snd false modules_by_import_count).

(** [len(self.reverse_deps.get(name, set()))] *)
Definition dependent_count (self : DependencyAnalyzer) (name : string) : Z :=
  Z.of_nat (size (default ∅ (reverse_deps self !! name))).

(** [find_hub_modules] *)
Definition find_hub_modules (self : DependencyAnalyzer) (limit : Z)
    : list (string * Z) :=
  let modules_by_dependent_count :=
    map (λ name, (name, dependent_count self name)) (dict_keys (modules self)) in
  slice_to limit (sorted snd true modules_by_dependent_count).

(** ** Chain depth *)

(** What a call can do besides returning: raise [KeyError], or use up the
    recursion budget it was given.  When the budget is the room left on the
    interpreter's call stack, using it up is the [RecursionError] the
    interpreter raises. *)
Inductive outcome (A : Type) : Type :=
| Ret (a : A)
| KeyError
| OutOfFuel.
Arguments Ret {A} a.
Arguments KeyError {A}.
Arguments OutOfFuel {A}.

(** [RecursionError]: the call stack has no room for one more call. *)
Definition RecursionError {A : Type} : outcome A := OutOfFuel.

#[global] Instance outcome_ret : MRet outcome := λ A a, Ret a.
#[global] Instance outcome_bind : MBind outcome := λ A B k m,
  match m with
  | Ret a => k a
  | KeyError => KeyError
  | OutOfFuel => OutOfFuel
  end.

(** [d[k]] *)
Definition dict_item {V : Type} (k : string) (d : list (string * V)) : outcome V :=
  match dict_get k d with Some v => Ret v | None => KeyError end.

(** [s.remove(x)] *)
Definition set_remove (x : string) (s : gset string) : outcome (gset string) :=
  if bool_decide (x ∈ s) then Ret (s ∖ {[x]}) else KeyError.

(** The two objects [dfs] mutates: the dictionary [chain_lengths] it closes
    over, and the set [path], passed by reference down the recursion. *)
Record dfs_state := {
  chain_lengths : list (string * Z);
  path : gset string
}.

(** The loop over [module.imports] in [dfs]; [dfs] is the recursive call. *)
Definition dfs_imports (modules : list (string * AgdaModule))
    (dfs : string → dfs_state → outcome (Z * dfs_state))
    : list string → Z → dfs_state → outcome (Z * dfs_state) :=
  fix loop (imps : list string) (max_depth : Z) (st : dfs_state) :=
    match imps with
    | [] => Ret (max_depth, st)
    | imported :: imps' =>
        if dict_mem imported modules then
          r ← dfs imported st;
          loop imps' (Z.max max_depth (fst r + 1)) (snd r)
        else loop imps' max_depth st
    end.

(** [dfs], with a budget on the depth of the recursion: the number of
    nested calls of [dfs] the call stack has room for.  Every call, also one
    that returns at once, needs room for itself. *)
Fixpoint dfs (fuel : nat) (modules : list (string * AgdaModule))
    (module_name : string) (st : dfs_state) : outcome (Z * dfs_state) :=
  match fuel with
  | O => OutOfFuel
  | S fuel =>
      match dict_get module_name (chain_lengths st) with
      | Some d => Ret (d, st)
      | None =>
          if negb (dict_mem module_name modules) then Ret (0%Z, st)
          else if bool_decide (module_name ∈ path st) then Ret (0%Z, st)
          else
            module ← dict_item module_name modules;
            let st := {| chain_lengths := chain_lengths st;
                         path := path st ∪ {[module_name]} |} in
            r ← dfs_imports modules (dfs fuel modules) (imports module) 0%Z st;
            let max_depth := fst r in
            let st := snd r in
            path' ← set_remove module_name (path st);
            Ret (max_depth,
                 {| chain_lengths := dict_set module_name max_depth (chain_lengths st);
                    path := path' |})
      end
  end.

(** The driving loop of [calculate_dependency_chains]. *)
Definition chains_loop (fuel : nat) (modules : list (string * AgdaModule))
    : list string → list (string * Z) → outcome (list (string * Z)) :=
  fix loop (names : list string) (lengths : list (string * Z)) :=
    match names with
    | [] => Ret lengths
    | module_name :: names' =>
        if dict_mem module_name lengths then loop names' lengths
        else
          r ← dfs fuel modules module_name
                {| chain_lengths := lengths; path := ∅ |};
          loop names' (chain_lengths (snd r))
    end.

(** [calculate_dependency_chains], run where the call stack has room for
    [frames] nested calls of [dfs]: the interpreter's recursion limit less
    the calls under way when the function is entered. *)
Definition calculate_dependency_chains_within (frames : nat)
    (modules : list (string * AgdaModule)) : outcome (list (string * Z)) :=
  chains_loop frames modules (dict_keys modules) [].

(** [calculate_dependency_chains] on a stack with room for it: for one more
    nested call than there are modules, which is never used up.  The depths
    of a run that returns are those of this one
    ([calculate_dependency_chains_within_agrees] below). *)
Definition calculate_dependency_chains (modules : list (string * AgdaModule))
    : outcome (list (string * Z)) :=
  chains_loop (S (length modules)) modules (dict_keys modules) [].

(** ** Depth tiers *)

(** The dictionary [analyze_dependency_patterns] returns, without
    ['avg_depth'], a floating-point number. *)
Record patterns := {
  pat_chain_lengths : list (string * Z);
  shallow : list (string * Z);
  medium : list (string * Z);
  deep : list (string * Z);
  max_depth : Z
}.

(** The loop "Categorize modules by depth": the three lists after it. *)
Definition categorize (items : list (string * Z))
    : list (string * Z) * list (string * Z) * list (string * Z) :=
  fold_left
    (λ acc (item : string * Z),
       let '(shallow, medium, deep) := acc in
       let depth := snd item in
       if (depth <=? 5)%Z then ((shallow ++ [item])%list, medium, deep)
       else if (depth <=? 15)%Z then (shallow, (medium ++ [item])%list, deep)
       else (shallow, medium, (deep ++ [item])%list))
    items ([], [], []).

(** [max(values) if values else 0] *)
Definition max_or_zero (values : list Z) : Z :=
  match values with
  | [] => 0%Z
  | v :: values' => fold_left Z.max values' v
  end.

(** [analyze_dependency_patterns] *)
Definition analyze_dependency_patterns (modules : list (string * AgdaModule))
    : outcome patterns :=
  chain_lengths ← calculate_dependency_chains modules;
  let '(shallow, medium, deep) := categorize chain_lengths in
  Ret {| pat_chain_lengths := chain_lengths;
         shallow := sorted snd false shallow;
         medium := sorted snd false medium;
         deep := sorted snd true deep;
         max_depth := max_or_zero (map snd chain_lengths) |}.

(** [analyze_dependency_patterns], run where the call stack has room for
    [frames] nested calls of [dfs]. *)
Definition analyze_dependency_patterns_within (frames : nat)
    (modules : list (string * AgdaModule)) : outcome patterns :=
  chain_lengths ← calculate_dependency_chains_within frames modules;
  let '(shallow, medium, deep) := categorize chain_lengths in
  Ret {| pat_chain_lengths := chain_lengths;
         shallow := sorted snd false shallow;
         medium := sorted snd false medium;
         deep := sorted snd true deep;
         max_depth := max_or_zero (map snd chain_lengths) |}.

(** ** Predicates used in the statements *)

Fixpoint string_forall (ok : ascii → bool) (s : string) : bool :=
  match s with
  | EmptyString => true
  | String c s' => ok c && string_forall ok s'
  end.

(** The imports of a module that resolve to known modules. *)
Definition resolvable (modules : list (string * AgdaModule)) (module : AgdaModule)
    : list string :=
  List.filter (λ imp, dict_mem imp modules) (imports module).

(** A module with one name taken out of its imports. *)
Definition without_import (i : string) (module : AgdaModule) : AgdaModule :=
  {| name := name module;
     filepath := filepath module;
     imports := List.filter (λ imp, negb (String.eqb imp i)) (imports module);
     public_imports := public_imports module;
     is_literate := is_literate module |}.

(** The depth on record for a name, [chain_lengths.get(name, 0)]. *)
Definition depth_of (lengths : list (string * Z)) (name : string) : Z :=
  default 0%Z (dict_get name lengths).

(** What [dfs] may do to its state: leave [path] as it found it and append
    entries to [chain_lengths], each for a known module that is neither on
    [path] nor on record yet, with a depth that is not negative. *)
Definition grows (modules : list (string * AgdaModule)) (st st' : dfs_state) : Prop :=
  path st' = path st ∧
  ∃ ext,
    chain_lengths st' = chain_lengths st ++ ext ∧
    NoDup (dict_keys ext) ∧
    ∀ k v, (k, v) ∈ ext →
      dict_mem k modules = true ∧ (k ∉ path st) ∧
      (k ∉ dict_keys (chain_lengths st)) ∧ (0 ≤ v)%Z.

(** The known modules that are not on the path: the recursion of [dfs] goes
    no deeper than their number. *)
Definition off_path (modules : list (string * AgdaModule)) (path : gset string) : nat :=
  size (list_to_set (dict_keys modules) ∖ path : gset string).

(** The graph: an edge from a known module to each known module it
    imports. *)
Definition edge (modules : list (string * AgdaModule)) (a b : string) : Prop :=
  ∃ m, dict_get a modules = Some m ∧ b ∈ resolvable modules m.

(** No module reaches itself along one edge or more. *)
Definition acyclic (modules : list (string * AgdaModule)) : Prop :=
  ∀ a, ¬ tc (edge modules) a a.

(** The running maximum kept by [dfs] over the imports [imps], all known,
    read off the depths on record. *)
Definition max_over (lengths : list (string * Z)) (imps : list string) (acc : Z) : Z :=
  fold_left (λ max_depth i, Z.max max_depth (depth_of lengths i + 1)) imps acc.

(** Every depth on record is the one its module's imports give: they are all
    on record, and the depth is the running maximum over them. *)
Definition settled (modules : list (string * AgdaModule))
    (lengths : list (string * Z)) : Prop :=
  ∀ k d, dict_get k lengths = Some d →
    ∃ m, dict_get k modules = Some m ∧
         (∀ i, i ∈ resolvable modules m → dict_mem i lengths = true) ∧
         d = max_over lengths (resolvable modules m) 0.

(** The three tests of the loop "Categorize modules by depth", as the
    [if]/[elif]/[else] reaches them. *)
Definition is_shallow (item : string * Z) : bool := (snd item <=? 5)%Z.
Definition is_medium (item : string * Z) : bool :=
  negb (snd item <=? 5)%Z && (snd item <=? 15)%Z.
Definition is_deep (item : string * Z) : bool :=
  negb (snd item <=? 5)%Z && negb (snd item <=? 15)%Z.

(** The entries of one depth, in the order the list has them. *)
Definition of_depth (c : Z) (l : list (string * Z)) : list (string * Z) :=
  List.filter (λ e, Z.eqb (snd e) c) l.

(** The order of the specification on tier entries: by depth, ascending or
    descending, entries of equal depth by name. *)
Definition by_depth_then_name (descending : bool) (x y : string * Z) : Prop :=
  (if descending then snd y < snd x else snd x < snd y)%Z
  ∨ (snd x = snd y ∧ String.leb (fst x) (fst y) = true).

(** What holds of [self.modules] all along the scan. *)
Definition scanned (modules : list (string * AgdaModule)) : Prop :=
  NoDup (dict_keys modules) ∧
  ∀ k m, dict_get k modules = Some m →
    name m = k ∧ public_imports m ⊆ imports m.

(** What one call of [dfs] guarantees when it returns [d]. *)
Definition dfs_post (modules : list (string * AgdaModule)) (module_name : string)
    (st : dfs_state) (d : Z) (st' : dfs_state) : Prop :=
  grows modules st st' ∧
  (dict_mem module_name modules = true → module_name ∉ path st →
   dict_get module_name (chain_lengths st') = Some d).

(** What a call on a known module keeps on an acyclic graph, when every
    module on the path reaches the module called. *)
Definition dfs_settles (modules : list (string * AgdaModule))
    (f : string → dfs_state → outcome (Z * dfs_state)) : Prop :=
  ∀ name st d st',
    dict_mem name modules = true →
    (∀ q, q ∈ path st → tc (edge modules) q name) →
    settled modules (chain_lengths st) →
    f name st = Ret (d, st') →
    settled modules (chain_lengths st').

(** The dot discipline of a module name in the words of the specification:
    identifier characters and single interior dots, no leading dot, no
    trailing dot, no two dots in a row.  [after_dot] says that the text read
    so far is empty or ends in a dot. *)
Fixpoint dotted_from (uni_word : ascii → bool) (after_dot : bool) (s : string) : bool :=
  match s with
  | EmptyString => negb after_dot
  | String c s' =>
      if Ascii.eqb c "."%char then negb after_dot && dotted_from uni_word true s'
      else uni_word c && dotted_from uni_word false s'
  end.

Definition well_dotted (uni_word : ascii → bool) (s : string) : bool :=
  dotted_from uni_word true s.

(** The lines [import_pattern] is written for: white space, possibly [open]
    and white space, the keyword [import], white space, the name [x], and
    then nothing more, or white space and anything.  A line has no newline
    in it, [content.split] having cut the text there. *)
Definition import_line (uni_space : ascii → bool) (line x : string) : Prop :=
  ∃ pre ws post,
    line = (pre ++ "import" ++ ws ++ x ++ post)%string
    ∧ (string_forall uni_space pre = true
       ∨ ∃ w0 w1, pre = (w0 ++ "open" ++ w1)%string
                  ∧ string_forall uni_space w0 = true
                  ∧ w1 ≠ EmptyString ∧ string_forall uni_space w1 = true)
    ∧ ws ≠ EmptyString ∧ string_forall uni_space ws = true
    ∧ (post = EmptyString
       ∨ ∃ c post', post = String c post' ∧ uni_space c = true
                    ∧ string_forall (λ c, negb (Ascii.eqb c newline)) post = true).

(** What is asked of the tables behind [\s] and [\w] where a statement is
    about lines that match: a white-space character is neither a word
    character nor the dot, and the letters [o] and [i] are no white space.
    Python's tables are so. *)
Definition tables_apart (uni_space uni_word : ascii → bool) : Prop :=
  (∀ c, uni_space c = true → word_or_dot uni_word c = false)
  ∧ uni_space "o"%char = false ∧ uni_space "i"%char = false.

(** ** Sample inputs *)

(** Two scanned files: [Data.Nat] imports the known [Data.Bool] and the
    unknown [Prim.Kan]. *)
Definition sample_files : list agda_file :=
  [ {| file_module_name := "Data.Nat";
       file_path := "src/Data/Nat.agda";
       file_content := "module Data.Nat where
open import Data.Bool public
import Prim.Kan
-- import Data.Gone" |};
    {| file_module_name := "Data.Bool";
       file_path := "src/Data/Bool.lagda.md";
       file_content := "module Data.Bool where" |} ].

Definition sample_analyzer : DependencyAnalyzer :=
  scan_modules ascii_space ascii_word sample_files.

(** A module with no path and the given imports, under its own name. *)
Definition module_of (name : string) (imps : list string) : string * AgdaModule :=
  (name, {| name := name; filepath := EmptyString; imports := imps;
            public_imports := []; is_literate := false |}).

(** The chain A, B, C, D, each importing the next. *)
Definition chain_modules : list (string * AgdaModule) :=
  [module_of "A" ["B"]; module_of "B" ["C"]; module_of "C" ["D"]; module_of "D" []].

(** Two modules importing each other. *)
Definition two_cycle : list (string * AgdaModule) :=
  [module_of "A" ["B"]; module_of "B" ["A"]].

(** Five modules in a chain below [E5], and [M] importing [E0], [E2] and
    [E5], of depths 0, 2 and 5. *)
Definition fan_modules : list (string * AgdaModule) :=
  [module_of "M" ["E2"; "E5"; "E0"];
   module_of "E5" ["E4"]; module_of "E4" ["E3"]; module_of "E3" ["E2"];
   module_of "E2" ["E1"]; module_of "E1" ["E0"]; module_of "E0" []].

(** Three modules without imports, discovered in the order B, A, C. *)
Definition flat_modules : list (string * AgdaModule) :=
  [module_of "B" []; module_of "A" []; module_of "C" []].

(** A chain of [n + 1] modules named by the numbers from 0 to [n], each
    importing the next and the last importing nothing, discovered from the
    head of the chain on. *)
Definition number_name (i : nat) : string :=
  NilZero.string_of_uint (Nat.to_uint i).

Definition deep_chain (n : nat) : list (string * AgdaModule) :=
  map (λ i, module_of (number_name i)
              (if (i <? n)%nat then [number_name (S i)] else []))
      (seq 0 (S n)).

(** What one line makes [_parse_imports] add: nothing, or the captured name
    together with whether it also goes to [public_imports]. *)
Definition line_import (uni_space uni_word : ascii → bool) (line : string)
    : option (string * bool) :=
  if startswith "--" (strip uni_space line) then None
  else
    match Re.re_match (import_pattern uni_space uni_word) line with
    | Some (Some imported_module) =>
        Some (imported_module,
              match Re.re_search (public_pattern uni_word) line with
              | Some _ => true
              | None => false
              end)
    | _ => None
    end.

(** The last character of [s], or [d] when [s] is empty; the first one. *)
Fixpoint string_last (s : string) (d : option ascii) : option ascii :=
  match s with
  | EmptyString => d
  | String c s' => string_last s' (Some c)
  end.

Definition string_head (s : string) : option ascii :=
  match s with String c _ => Some c | EmptyString => None end.

(** Depths on record come in steps: a depth above [b] has the depth just
    below it on record too. *)
Definition stepped (b : Z) (lengths : list (string * Z)) : Prop :=
  ∀ k v, dict_get k lengths = Some v → (b < v)%Z →
    ∃ k', dict_get k' lengths = Some (v - 1)%Z.

(** A chain of imports from [k]: each name is a known module imported by
    the one before it.  Its length is that of the list. *)
Fixpoint chain_from (modules : list (string * AgdaModule)) (k : string)
    (l : list string) : Prop :=
  match l with
  | [] => True
  | k' :: l' => edge modules k k' ∧ chain_from modules k' l'
  end.

(** Two tables for one graph: the same known modules and the same edges,
    whatever the order of discovery and the order within the import sets. *)
Definition same_graph (modules modules' : list (string * AgdaModule)) : Prop :=
  (∀ k, dict_mem k modules = dict_mem k modules')
  ∧ (∀ a b, edge modules a b ↔ edge modules' a b).

(** ** Module names from file paths *)

(** [s.replace(old, new)], [old] and [new] being one character each. *)
Fixpoint replace_char (old new : ascii) (s : string) : string :=
  match s with
  | EmptyString => EmptyString
  | String c s' =>
      String (if Ascii.eqb c old then new else c) (replace_char old new s')
  end.

(** [s[:-n]], for [n > 0] *)
Definition drop_end (n : nat) (s : string) : string :=
  String.substring 0 (String.length s - n) s.

(** [_filepath_to_module_name].  [rel_path] is what
    [str(filepath.relative_to(self.src_dir))] gives, [None] when
    [relative_to] raises [ValueError]; [os_sep] is [os.sep]. *)
Definition filepath_to_module_name (os_sep : ascii) (rel_path : option string)
    : string :=
  match rel_path with
  | None => EmptyString
  | Some name =>
      let name :=
        if endswith ".lagda.md" name then drop_end 9 name
        else if endswith ".agda" name then drop_end 5 name
        else name in
      replace_char os_sep "."%char name
  end.

(** The path of a module under the source root: the inverse reading of
    [_filepath_to_module_name], dots to separators and the extension added. *)
Definition module_path (os_sep : ascii) (name ext : string) : string :=
  (replace_char "."%char os_sep name ++ ext)%string.

(** ** The graph file and the report *)

(** [s.split(sep)], [sep] being one character: always at least one piece. *)
Fixpoint split_on (sep : ascii) (s : string) : list string :=
  match s with
  | EmptyString => [EmptyString]
  | String c s' =>
      if Ascii.eqb c sep then EmptyString :: split_on sep s'
      else match split_on sep s' with
           | piece :: pieces => String c piece :: pieces
           | [] => [String c EmptyString]
           end
  end.

(** [module_name.split('.')[0]] and [module_name.split('.')[-1]] *)
Definition first_component (module_name : string) : string :=
  hd EmptyString (split_on "."%char module_name).

Definition last_component (module_name : string) : string :=
  List.last (split_on "."%char module_name) EmptyString.

(** [category_colors] *)
Definition category_colors : list (string * string) :=
  [("1Lab", "#e8f4f8"); ("Prim", "#f0e8f8"); ("Cat", "#f8f0e8");
   ("Algebra", "#e8f8f0"); ("Data", "#f8e8f0"); ("Order", "#f0f8e8");
   ("Homotopy", "#f8f8e8")].

(** What [generate_dot_graph] writes for a node and for an edge, before it
    is laid out as text. *)
Record dot_node := {
  node_name : string;
  node_label : string;
  node_depth : Z;
  node_fillcolor : string;
  node_style : string
}.

Record dot_edge := {
  edge_from : string;
  edge_to : string;
  edge_bold : bool
}.

(** A node statement of the legend: its name and its fill colour, the style
    and the shape being the same for both. *)
Record legend_node := {
  legend_name : string;
  legend_fillcolor : string
}.

(** "Add legend": the two node statements of [cluster_legend], written
    whatever was selected.  In the file the names hold a backslash and the
    letter n, as here. *)
Definition legend_nodes : list legend_node :=
  [{| legend_name := "Foundational\nModule"; legend_fillcolor := "#e8f4f8" |};
   {| legend_name := "Hub\nModule"; legend_fillcolor := "#f8e8f0" |}].

(** The statements of the graph file, in the order written: the nodes of the
    selected modules, the edges, the nodes of the legend. *)
Record dot_graph := {
  graph_nodes : list dot_node;
  graph_edges : list dot_edge;
  graph_legend : list legend_node
}.

(** The names of the node statements of the file. *)
Definition node_statements (graph : dot_graph) : list string :=
  map node_name (graph_nodes graph) ++ map legend_name (graph_legend graph).

(** [c in s], [c] being one character. *)
Fixpoint contains_char (c : ascii) (s : string) : bool :=
  match s with
  | EmptyString => false
  | String c' s' => Ascii.eqb c' c || contains_char c s'
  end.

(** [x in l], for a list or the list of the elements of a set. *)
Definition mem (x : string) (l : list string) : bool := bool_decide (x ∈ l).

(** "Select most important modules" and "Combine and deduplicate": the set
    [important_modules], its elements in the order they were added, with the
    rankings it was made from.  [frames] is the room on the call stack. *)
Definition select_important (frames : nat) (self : DependencyAnalyzer)
    (max_nodes : Z)
    : outcome (list (string * Z) * list (string * Z) * patterns * list string) :=
  let hubs := find_hub_modules self (max_nodes / 2) in
  let foundational := find_foundational_modules self (max_nodes / 4) in
  patterns ← analyze_dependency_patterns_within frames (modules self);
  let deep := slice_to (max_nodes / 4) (deep patterns) in
  let important_modules := fold_left (λ s e, set_add (fst e) s) hubs [] in
  let important_modules :=
    fold_left (λ s e, set_add (fst e) s) foundational important_modules in
  let important_modules :=
    fold_left (λ s e, set_add (fst e) s) deep important_modules in
  Ret (hubs, foundational, patterns, important_modules).

(** The first loop over [important_modules]: the nodes. *)
Definition dot_nodes (self : DependencyAnalyzer)
    (hubs foundational : list (string * Z)) (chain_lengths : list (string * Z))
    (important_modules : list string) : list dot_node :=
  flat_map
    (λ module_name,
       if negb (dict_mem module_name (modules self)) then []
       else
         let category := first_component module_name in
         let color := default "#ffffff" (dict_get category category_colors) in
         let is_foundational :=
           mem module_name (map fst (slice_to 10 foundational)) in
         let is_hub := mem module_name (map fst (slice_to 10 hubs)) in
         let style :=
           if is_foundational then "filled,bold"
           else if is_hub then "filled,bold"
           else "filled" in
         let label :=
           if contains_char "."%char module_name
           then last_component module_name else module_name in
         let depth := default 0%Z (dict_get module_name chain_lengths) in
         [{| node_name := module_name; node_label := label; node_depth := depth;
             node_fillcolor := color; node_style := style |}])
    important_modules.

(** The second loop: the edges. *)
Definition dot_edges (self : DependencyAnalyzer) (important_modules : list string)
    : outcome (list dot_edge) :=
  fold_left
    (λ acc module_name,
       edges ← acc;
       if negb (dict_mem module_name (modules self)) then Ret edges
       else
         module ← dict_item module_name (modules self);
         Ret (edges ++
              flat_map
                (λ imported,
                   if mem imported important_modules
                   then [{| edge_from := module_name; edge_to := imported;
                            edge_bold := mem imported (public_imports module) |}]
                   else [])
                (imports module)))
    important_modules (Ret []).

(** [generate_dot_graph]: the statements it writes, in the order it writes
    them.  [important_modules] is a Python set, and the order in which the
    two loops go through it is the interpreter's, the same in both as the
    set is not changed in between: [set_iter] stands for it, taking the
    elements in the order they were added and giving them in the order of
    iteration. *)
Definition generate_dot_graph (frames : nat)
    (set_iter : list string → list string)
    (self : DependencyAnalyzer) (max_nodes : Z) : outcome dot_graph :=
  selection ← select_important frames self max_nodes;
  let '(hubs, foundational, patterns, important_modules) := selection in
  let important_modules := set_iter important_modules in
  let nodes :=
    dot_nodes self hubs foundational (pat_chain_lengths patterns)
      important_modules in
  edges ← dot_edges self important_modules;
  Ret {| graph_nodes := nodes; graph_edges := edges;
         graph_legend := legend_nodes |}.

(** What holds of each edge written, [important_modules] being the set the
    targets are tested against. *)
Definition edge_ok (self : DependencyAnalyzer) (important_modules : list string)
    (e : dot_edge) : Prop :=
  edge_to e ∈ important_modules
  ∧ ∃ module,
      dict_get (edge_from e) (modules self) = Some module
      ∧ edge_to e ∈ imports module
      ∧ edge_bold e = bool_decide (edge_to e ∈ public_imports module).

(** "Module categories" in [generate_markdown_report]: the dictionary
    [categories], a [defaultdict(int)]. *)
Definition category_counts (modules : list (string * AgdaModule)) : gmap string Z :=
  fold_left
    (λ categories module_name,
       let parts := split_on "."%char module_name in
       if (0 <? Z.of_nat (length parts))%Z
       then <[hd EmptyString parts :=
                (default 0 (categories !! hd EmptyString parts) + 1)%Z]> categories
       else categories)
    (dict_keys modules) ∅.

(** ** Literate files *)

(** The fragment of [re] used by [_extract_code_blocks]: patterns compiled
    with [re.DOTALL], a lazy repetition, and [findall].  The matcher is the
    one of [Re], with any type of result, so that a match can hand back the
    position where it ends. *)
Module Rx.

Inductive regex : Type :=
| Eps
| Chr (c : ascii)
| Class (ok : ascii → bool)
| AnyAll                         (* .   under DOTALL: any character *)
| Cat (r1 r2 : regex)
| Star (r : regex)               (* r*  greedy *)
| Lazy (r : regex)               (* r*? lazy *)
| Group (r : regex).             (* (r) capturing group 1 *)

Fixpoint Lit (s : string) : regex :=
  match s with
  | EmptyString => Eps
  | String c s' => Cat (Chr c) (Lit s')
  end.

Section Exec.
Context {R : Type}.

(** One greedy repetition, as [Re.star_loop]. *)
Definition star_loop
    (body : Re.pos → option string →
            (Re.pos → option string → option R) → option R)
    (k : Re.pos → option string → option R)
    : nat → Re.pos → option string → option R :=
  fix loop (n : nat) (p : Re.pos) (g : option string) :=
    match
      match n with
      | O => None
      | S n' =>
          body p g (λ p' g',
            if (String.length (Re.rest p') <? String.length (Re.rest p))%nat
            then loop n' p' g' else None)
      end
    with
    | Some m => Some m
    | None => k p g
    end.

(** One lazy repetition: the continuation first, and the body once more
    only if the continuation refuses. *)
Definition lazy_loop
    (body : Re.pos → option string →
            (Re.pos → option string → option R) → option R)
    (k : Re.pos → option string → option R)
    : nat → Re.pos → option string → option R :=
  fix loop (n : nat) (p : Re.pos) (g : option string) :=
    match k p g with
    | Some m => Some m
    | None =>
        match n with
        | O => None
        | S n' =>
            body p g (λ p' g',
              if (String.length (Re.rest p') <? String.length (Re.rest p))%nat
              then loop n' p' g' else None)
        end
    end.

Fixpoint exec (r : regex) (p : Re.pos) (g : option string)
    (k : Re.pos → option string → option R) : option R :=
  match r with
  | Eps => k p g
  | Chr c =>
      match Re.step p (Ascii.eqb c) with Some p' => k p' g | None => None end
  | Class ok =>
      match Re.step p ok with Some p' => k p' g | None => None end
  | AnyAll =>
      match Re.step p (λ _, true) with Some p' => k p' g | None => None end
  | Cat r1 r2 => exec r1 p g (λ p' g', exec r2 p' g' k)
  | Star r1 => star_loop (exec r1) k (String.length (Re.rest p)) p g
  | Lazy r1 => lazy_loop (exec r1) k (String.length (Re.rest p)) p g
  | Group r1 => exec r1 p g (λ p' _, k p' (Some (Re.consumed p p')))
  end.

End Exec.

(** One match attempt at a position: group 1 and where the match ends. *)
Definition match_at (r : regex) (p : Re.pos) : option (option string * Re.pos) :=
  exec r p None (λ p' g, Some (g, p')).

(** [re.findall(pattern, s)] for a pattern with one group: group 1 of each
    match, from left to right, the search for the next match starting where
    the last one ended (one character further after an empty match).
    [fuel] bounds the number of positions tried. *)
Fixpoint findall_from (r : regex) (fuel : nat) (prev : option ascii) (s : string)
    : list string :=
  match fuel with
  | O => []
  | S fuel' =>
      let advance :=
        match s with
        | String c s' => findall_from r fuel' (Some c) s'
        | EmptyString => []
        end in
      match match_at r (Re.Pos prev s) with
      | Some (g, p') =>
          default EmptyString g
          :: (if (String.length (Re.rest p') <? String.length s)%nat
              then findall_from r fuel' (Re.before p') (Re.rest p')
              else advance)
      | None => advance
      end
  end.

Definition findall (r : regex) (s : string) : list string :=
  findall_from r (S (String.length s)) None s.

End Rx.

(** [sep.join(l)] *)
Fixpoint join (sep : string) (l : list string) : string :=
  match l with
  | [] => EmptyString
  | [x] => x
  | x :: l' => (x ++ sep ++ join sep l')%string
  end.

(** The opening fence of a code block, with the newline that ends its
    line. *)
Definition agda_fence : string := ("```agda" ++ String newline EmptyString)%string.

Section Literate.
Variables uni_space uni_word : ascii → bool.

(** Pattern 1 of [_extract_code_blocks]: the fence, group 1 holding a lazy
    run of any characters, and three backquotes. *)
Definition agda_block_pattern : Rx.regex :=
  Rx.Cat (Rx.Lit agda_fence) (Rx.Cat (Rx.Group (Rx.Lazy Rx.AnyAll)) (Rx.Lit "```")).

(** Pattern 2: the same between the marks of an HTML comment, white space
    allowed after the opening mark and before the closing one. *)
Definition hidden_block_pattern : Rx.regex :=
  Rx.Cat (Rx.Lit "<!--")
 (Rx.Cat (Rx.Star (Rx.Class uni_space))
 (Rx.Cat (Rx.Lit agda_fence)
 (Rx.Cat (Rx.Group (Rx.Lazy Rx.AnyAll))
 (Rx.Cat (Rx.Lit "```")
 (Rx.Cat (Rx.Star (Rx.Class uni_space)) (Rx.Lit "-->")))))).

(** [_extract_code_blocks] *)
Definition extract_code_blocks (content : string) : string :=
  let agda_blocks := Rx.findall agda_block_pattern content in
  let hidden_blocks := Rx.findall hidden_block_pattern content in
  join (String newline EmptyString) (agda_blocks ++ hidden_blocks).

(** [_parse_imports] once the file is read: [raw] is what [f.read()]
    returned. *)
Definition parse_file (module : AgdaModule) (raw : string) : AgdaModule :=
  let content := if is_literate module then extract_code_blocks raw else raw in
  parse_imports uni_space uni_word module content.

End Literate.

(** The language of a pattern: the texts it can read. *)
Fixpoint reads (r : Rx.regex) (w : string) : Prop :=
  match r with
  | Rx.Eps => w = EmptyString
  | Rx.Chr c => w = String c EmptyString
  | Rx.Class ok => ∃ c, w = String c EmptyString ∧ ok c = true
  | Rx.AnyAll => ∃ c, w = String c EmptyString
  | Rx.Cat r1 r2 => ∃ w1 w2, w = (w1 ++ w2)%string ∧ reads r1 w1 ∧ reads r2 w2
  | Rx.Star r1 | Rx.Lazy r1 =>
      ∃ ws, w = fold_right String.append EmptyString ws ∧ Forall (reads r1) ws
  | Rx.Group r1 => reads r1 w
  end.

(** [t] occurs in [s]. *)
Definition occurs (t s : string) : Prop := ∃ a b, s = (a ++ t ++ b)%string.

(** What a successful run of a pattern, or of a loop, has done: the
    continuation was called after some text of [lang] had been read. *)
Definition ran {R : Type} (lang : string → Prop)
    (k : Re.pos → option string → option R) (p : Re.pos) (m : R) : Prop :=
  ∃ p' g' w, k p' g' = Some m ∧ Re.rest p = (w ++ Re.rest p')%string ∧ lang w.

(** The texts read by a repetition of [r]. *)
Definition runs_of (r : Rx.regex) (w : string) : Prop :=
  ∃ ws, w = fold_right String.append EmptyString ws ∧ Forall (reads r) ws.

(** * Properties *)

(** ** Strings *)

Lemma string_length_app (s t : string) :
  String.length (s ++ t)%string = (String.length s + String.length t)%nat.
Proof. induction s as [|c s IH]; simpl; [done | by rewrite IH]. Qed.

Lemma string_app_cons c (s t : string) :
  (String c s ++ t)%string = String c (s ++ t)%string.
Proof. done. Qed.

Lemma string_app_assoc (s t u : string) : ((s ++ t) ++ u = s ++ (t ++ u))%string.
Proof.
  induction s as [|c s IH]; [done|]. rewrite !string_app_cons. by f_equal.
Qed.

Lemma substring_app_prefix (s t : string) :
  String.substring 0 (String.length s) (s ++ t)%string = s.
Proof. induction s as [|c s IH]; simpl; [by destruct t | by rewrite IH]. Qed.

(** ** The matcher finds matches only *)

Module ReFacts.
Import Re.

Lemma star_loop_sound body k r :
  (∀ p g k' m, body p g k' = Some m →
     ∃ p' g', matches r p g p' g' ∧ k' p' g' = Some m) →
  ∀ n p g m, star_loop body k n p g = Some m →
    ∃ p' g', matches (Star r) p g p' g' ∧ k p' g' = Some m.
Proof.
  intros Hbody n. induction n as [|n IH]; intros p g m; simpl.
  - intros Hk. exists p, g. split; [apply m_star_done | done].
  - destruct (body p g _) as [m'|] eqn:Hb.
    + intros [= ->]. apply Hbody in Hb as (p1 & g1 & Hm1 & Hk1).
      destruct (_ <? _)%nat; [|done].
      apply IH in Hk1 as (p2 & g2 & Hm2 & Hk2).
      exists p2, g2. split; [by eapply m_star_more | done].
    + intros Hk. exists p, g. split; [apply m_star_done | done].
Qed.

Lemma exec_sound r :
  ∀ p g k m, exec r p g k = Some m →
    ∃ p' g', matches r p g p' g' ∧ k p' g' = Some m.
Proof.
  induction r as [|c|ok| | | |w|r1 IH1 r2 IH2|r1 IH1|r1 IH1|r1 IH1];
    intros p g k m; simpl.
  - intros Hk. exists p, g. split; [apply m_eps | done].
  - destruct (step p _) as [p'|] eqn:Hs; [|done].
    intros Hk. exists p', g. split; [by apply m_chr | done].
  - destruct (step p _) as [p'|] eqn:Hs; [|done].
    intros Hk. exists p', g. split; [by apply m_class | done].
  - destruct (step p _) as [p'|] eqn:Hs; [|done].
    intros Hk. exists p', g. split; [by apply m_any | done].
  - destruct (before p) eqn:Hb; [done|].
    intros Hk. exists p, g. split; [by apply m_bol | done].
  - destruct (_ || _) eqn:He; [|done].
    intros Hk. exists p, g. split; [by apply m_eol | done].
  - destruct (xorb _ _) eqn:He; [|done].
    intros Hk. exists p, g. split; [by apply m_wordb | done].
  - intros H. apply IH1 in H as (p1 & g1 & Hm1 & H).
    apply IH2 in H as (p2 & g2 & Hm2 & H).
    exists p2, g2. split; [by eapply m_cat | done].
  - destruct (exec r1 p g k) as [m'|] eqn:He.
    + intros [= ->]. apply IH1 in He as (p1 & g1 & Hm1 & H).
      exists p1, g1. split; [by apply m_opt_some | done].
    + intros Hk. exists p, g. split; [apply m_opt_none | done].
  - apply star_loop_sound. apply IH1.
  - intros H. apply IH1 in H as (p1 & g1 & Hm1 & H).
    exists p1, (Some (consumed p p1)). split; [by eapply m_group | done].
Qed.

Lemma re_match_sound r s g :
  re_match r s = Some g → ∃ p', matches r (Pos None s) None p' g.
Proof.
  unfold re_match. intros H. apply exec_sound in H as (p' & g' & Hm & [= ->]).
  by exists p'.
Qed.

Lemma matches_groupless r p g p' g' :
  groupless r = true → matches r p g p' g' → g' = g.
Proof.
  intros Hr Hm. induction Hm; simpl in Hr; try done.
  - apply andb_prop in Hr as [H1 H2]. rewrite IHHm2, IHHm1; done.
  - by apply IHHm.
  - rewrite IHHm2, IHHm1; done.
Qed.

(** A repeated class reads characters of the class only. *)
Lemma matches_star_class ok p g p' g' :
  matches (Star (Class ok)) p g p' g' →
  ∃ w, rest p = (w ++ rest p')%string ∧ string_forall ok w = true.
Proof.
  intros Hm. remember (Star (Class ok)) as r eqn:Hr.
  induction Hm; try discriminate Hr.
  - injection Hr as ->. destruct (IHHm2 eq_refl) as (w & Hw & Hok).
    inversion Hm1 as [| |? ? ? ? Hs| | | | | | | | | |]; subst.
    unfold step in Hs. destruct (rest p) as [|c s] eqn:Hp; [done|].
    destruct (ok c) eqn:Hc; [|done]. injection Hs as <-. simpl in Hw.
    exists (String c w). simpl. by rewrite Hw, Hc, Hok.
  - exists EmptyString. done.
Qed.

Lemma matches_plus_class ok p g p' g' :
  matches (Plus (Class ok)) p g p' g' →
  ∃ w, rest p = (w ++ rest p')%string ∧ w ≠ EmptyString ∧ string_forall ok w = true.
Proof.
  unfold Plus. intros Hm.
  inversion Hm as [| | | | | | |? ? ? ? p1 g1 ? ? Hm1 Hm2| | | | |]; subst.
  apply matches_star_class in Hm2 as (w & Hw & Hok).
  inversion Hm1 as [| |? ? ? ? Hs| | | | | | | | | |]; subst.
  unfold step in Hs. destruct (rest p) as [|c s] eqn:Hp; [done|].
  destruct (ok c) eqn:Hc; [|done]. injection Hs as <-. simpl in Hw.
  exists (String c w). simpl. by rewrite Hw, Hc, Hok.
Qed.

Lemma consumed_app p p' w : rest p = (w ++ rest p')%string → consumed p p' = w.
Proof.
  intros Hw. unfold consumed. rewrite Hw, string_length_app.
  replace (String.length w + String.length (rest p') - String.length (rest p'))%nat
    with (String.length w) by lia.
  apply substring_app_prefix.
Qed.

End ReFacts.

(** ** Sets as lists, dictionaries *)

Lemma elem_of_set_add (x y : string) (s : list string) :
  y ∈ set_add x s ↔ y = x ∨ y ∈ s.
Proof.
  unfold set_add. case_bool_decide as Hx.
  - split; [by right | by intros [->|]].
  - rewrite elem_of_app, list_elem_of_singleton. tauto.
Qed.

Lemma NoDup_set_add (x : string) (s : list string) : NoDup s → NoDup (set_add x s).
Proof.
  intros Hs. unfold set_add. case_bool_decide as Hx; [done|].
  apply NoDup_app. split_and!; [done | | apply NoDup_singleton].
  intros y Hy ->%list_elem_of_singleton. done.
Qed.

Section DictFacts.
Context {V : Type}.
Implicit Types (d : list (string * V)) (k : string) (v : V).

Lemma dict_get_set k k' v d :
  dict_get k (dict_set k' v d) = if String.eqb k k' then Some v else dict_get k d.
Proof.
  induction d as [|[k0 v0] d IH]; simpl.
  - done.
  - destruct (String.eqb_spec k' k0) as [->|Hne]; simpl.
    + by destruct (String.eqb k k0).
    + rewrite IH. destruct (String.eqb_spec k k0) as [->|]; [|done].
      destruct (String.eqb_spec k0 k'); congruence.
Qed.

Lemma dict_mem_keys k d : dict_mem k d = true ↔ k ∈ dict_keys d.
Proof.
  unfold dict_mem, dict_keys. induction d as [|[k0 v0] d IH]; simpl.
  - split; [done | by intros ?%elem_of_nil].
  - rewrite elem_of_cons. destruct (String.eqb_spec k k0) as [->|Hne]; [tauto|].
    rewrite IH. split; [by right | by intros [|]].
Qed.

Lemma dict_get_elem_of k v d : dict_get k d = Some v → (k, v) ∈ d.
Proof.
  induction d as [|[k0 v0] d IH]; simpl; [done|].
  destruct (String.eqb_spec k k0) as [->|Hne].
  - intros [= ->]. apply list_elem_of_here.
  - intros H. apply list_elem_of_further. by apply IH.
Qed.

Lemma elem_of_dict_get k v d :
  NoDup (dict_keys d) → (k, v) ∈ d → dict_get k d = Some v.
Proof.
  unfold dict_keys. induction d as [|[k0 v0] d IH]; simpl.
  - by intros _ ?%elem_of_nil.
  - intros [Hk0 Hd]%NoDup_cons [[= -> ->]|Hin]%elem_of_cons.
    + by rewrite String.eqb_refl.
    + destruct (String.eqb_spec k k0) as [->|Hne]; [|by apply IH].
      destruct Hk0. apply list_elem_of_fmap. by exists (k0, v).
Qed.

Lemma dict_keys_set k v d :
  dict_keys (dict_set k v d) = if dict_mem k d then dict_keys d else dict_keys d ++ [k].
Proof.
  unfold dict_mem, dict_keys. induction d as [|[k0 v0] d IH]; simpl; [done|].
  destruct (String.eqb_spec k k0) as [->|Hne]; simpl; [done|].
  rewrite IH. by destruct (dict_get k d).
Qed.

Lemma NoDup_dict_keys_set k v d :
  NoDup (dict_keys d) → NoDup (dict_keys (dict_set k v d)).
Proof.
  intros Hd. rewrite dict_keys_set. destruct (dict_mem k d) eqn:Hk; [done|].
  apply NoDup_app. split_and!; [done | | apply NoDup_singleton].
  intros y Hy ->%list_elem_of_singleton.
  apply dict_mem_keys in Hy. congruence.
Qed.

End DictFacts.

(** ** The import extractor *)

Section ExtractorFacts.
Variables uni_space uni_word : ascii → bool.

Lemma matches_cat_inv r1 r2 p g p' g' :
  Re.matches (Re.Cat r1 r2) p g p' g' →
  ∃ p1 g1, Re.matches r1 p g p1 g1 ∧ Re.matches r2 p1 g1 p' g'.
Proof. inversion 1; subst; eauto. Qed.

Lemma matches_group_inv r p g p' g' :
  Re.matches (Re.Group r) p g p' g' →
  g' = Some (Re.consumed p p') ∧ ∃ g1, Re.matches r p g p' g1.
Proof. inversion 1; subst; eauto. Qed.

(** Group 1 of a match of [import_pattern] always takes part, and holds a
    non-empty run of word characters and dots. *)
Lemma import_pattern_group line g :
  Re.re_match (import_pattern uni_space uni_word) line = Some g →
  ∃ x, g = Some x ∧ x ≠ EmptyString ∧ string_forall (word_or_dot uni_word) x = true.
Proof.
  intros [p' Hm]%ReFacts.re_match_sound. unfold import_pattern in Hm.
  do 5 (apply matches_cat_inv in Hm as (? & ? & _ & Hm)).
  apply matches_cat_inv in Hm as (p2 & g2 & Hgroup & Htail).
  apply ReFacts.matches_groupless in Htail as ->; [|done].
  apply matches_group_inv in Hgroup as [-> [g1 Hplus]].
  apply ReFacts.matches_plus_class in Hplus as (w & Hw & Hne & Hok).
  exists w. by rewrite (ReFacts.consumed_app _ _ w).
Qed.

Lemma parse_line_name module line : name (parse_line uni_space uni_word module line) = name module.
Proof.
  unfold parse_line. destruct (startswith _ _); [done|].
  destruct (Re.re_match _ _) as [[x|]|]; [|done..].
  by destruct (Re.re_search _ _).
Qed.

(** A line leaves [imports] as it is or adds the one name it captured. *)
Lemma parse_line_imports module line :
  imports (parse_line uni_space uni_word module line) = imports module ∨
  ∃ x, imports (parse_line uni_space uni_word module line) = set_add x (imports module) ∧
       public_imports (parse_line uni_space uni_word module line) ⊆ x :: public_imports module ∧
       x ≠ EmptyString ∧ string_forall (word_or_dot uni_word) x = true.
Proof.
  unfold parse_line. destruct (startswith _ _); [by left|].
  destruct (Re.re_match _ _) as [g|] eqn:Hm; [|by left].
  apply import_pattern_group in Hm as (x & -> & Hne & Hok).
  right. exists x. destruct (Re.re_search _ _); simpl.
  - split_and!; [done | | done..].
    intros y [->|Hy]%elem_of_set_add; [left | by right].
  - split_and!; [done | | done..]. intros y Hy. by right.
Qed.

Lemma parse_line_public module line :
  public_imports (parse_line uni_space uni_word module line) = public_imports module ∨
  ∃ x, public_imports (parse_line uni_space uni_word module line) = set_add x (public_imports module) ∧
       x ∈ imports (parse_line uni_space uni_word module line).
Proof.
  unfold parse_line. destruct (startswith _ _); [by left|].
  destruct (Re.re_match _ _) as [[x|]|]; [|by left..].
  destruct (Re.re_search _ _); simpl; [|by left].
  right. exists x. split; [done|]. apply elem_of_set_add. by left.
Qed.

Lemma parse_line_imports_mono module line :
  imports module ⊆ imports (parse_line uni_space uni_word module line).
Proof.
  destruct (parse_line_imports module line) as [->|(x & -> & _)]; [done|].
  intros y Hy. apply elem_of_set_add. by right.
Qed.

Lemma parse_line_subset module line :
  public_imports module ⊆ imports module →
  public_imports (parse_line uni_space uni_word module line) ⊆ imports (parse_line uni_space uni_word module line).
Proof.
  intros Hsub y Hy.
  destruct (parse_line_public module line) as [Heq|(x & Heq & Hx)];
    rewrite Heq in Hy.
  - by apply parse_line_imports_mono, Hsub.
  - apply elem_of_set_add in Hy as [->|Hy]; [done|].
    by apply parse_line_imports_mono, Hsub.
Qed.

Lemma fold_parse_line_subset lines module :
  public_imports module ⊆ imports module →
  public_imports (fold_left (parse_line uni_space uni_word) lines module)
    ⊆ imports (fold_left (parse_line uni_space uni_word) lines module).
Proof.
  revert module. induction lines as [|line lines IH]; intros module Hsub; simpl.
  - done.
  - by apply IH, parse_line_subset.
Qed.

Lemma parse_imports_name module content :
  name (parse_imports uni_space uni_word module content) = name module.
Proof.
  unfold parse_imports. generalize (split_lines content) as lines.
  intros lines. revert module.
  induction lines as [|line lines IH]; intros module; simpl; [done|].
  by rewrite IH, parse_line_name.
Qed.

End ExtractorFacts.

(** ** The dependency graph *)

Lemma reverse_deps_add_lookup imported module_name rd j :
  default ∅ (reverse_deps_add imported module_name rd !! j) =
  if decide (imported = j) then default ∅ (rd !! j) ∪ {[module_name]}
  else default (∅ : gset string) (rd !! j).
Proof.
  unfold reverse_deps_add. rewrite lookup_insert.
  by destruct (decide (imported = j)) as [->|].
Qed.

Lemma reverse_deps_imports module_name imps rd j k :
  k ∈ default ∅
        (fold_left (λ rd imported, reverse_deps_add imported module_name rd) imps rd
           !! j)
  ↔ k ∈ default (∅ : gset string) (rd !! j) ∨ (k = module_name ∧ j ∈ imps).
Proof.
  revert rd. induction imps as [|i imps IH]; intros rd; simpl.
  - split; [by left | intros [|[_ ?%elem_of_nil]]; done].
  - rewrite IH, reverse_deps_add_lookup, elem_of_cons. case_decide as Hi.
    + subst i. set_solver.
    + split; [intros [|[-> ?]]; eauto | intros [|[-> [->|]]]; eauto; done].
Qed.

Lemma reverse_deps_modules modules rd j k :
  k ∈ default ∅
        (fold_left
           (λ rd item,
              fold_left (λ rd imported, reverse_deps_add imported (fst item) rd)
                (imports (snd item)) rd)
           modules rd !! j)
  ↔ k ∈ default (∅ : gset string) (rd !! j)
    ∨ ∃ m, (k, m) ∈ modules ∧ j ∈ imports m.
Proof.
  revert rd. induction modules as [|[k0 m0] modules IH]; intros rd; simpl.
  - split; [by left | intros [|(m & ?%elem_of_nil & _)]; done].
  - rewrite IH, reverse_deps_imports. split.
    + intros [[|[-> Hj]]|(m & Hm & Hj)]; eauto.
      * right. exists m0. split; [apply list_elem_of_here | done].
      * right. exists m. split; [by apply list_elem_of_further | done].
    + intros [|(m & [[= -> ->]|Hm]%elem_of_cons & Hj)]; eauto.
Qed.

(** [reverse_deps[j]] holds exactly the keys of the modules that import [j],
    whether or not [j] is itself a known module. *)
Lemma build_reverse_deps_spec modules j k :
  k ∈ default ∅ (build_reverse_deps modules !! j)
  ↔ ∃ m, (k, m) ∈ modules ∧ j ∈ imports m.
Proof.
  unfold build_reverse_deps. rewrite reverse_deps_modules, lookup_empty. simpl.
  set_solver.
Qed.

Section ScanFacts.
Variables uni_space uni_word : ascii → bool.

Lemma scanned_nil : scanned [].
Proof. split; [apply NoDup_nil_2 | done]. Qed.

Lemma scan_file_scanned modules f :
  scanned modules → scanned (scan_file uni_space uni_word modules f).
Proof.
  intros [Hnd Hall]. unfold scan_file.
  destruct (String.eqb _ _); [done|]. split.
  - by apply NoDup_dict_keys_set.
  - intros k m. rewrite dict_get_set.
    destruct (String.eqb_spec k (file_module_name f)) as [->|Hne]; [|by apply Hall].
    intros [= <-]. split.
    + by rewrite parse_imports_name.
    + by apply fold_parse_line_subset.
Qed.

Lemma scan_modules_scanned agda_files :
  scanned (modules (scan_modules uni_space uni_word agda_files)).
Proof.
  simpl. generalize scanned_nil. generalize (@nil (string * AgdaModule)).
  induction agda_files as [|f files IH]; intros modules Hs; simpl; [done|].
  by apply IH, scan_file_scanned.
Qed.

End ScanFacts.

(** ** Sorting and slicing *)

Section SortFacts.
Context {A : Type}.
Implicit Types (le : Z → Z → bool) (key : A → Z) (l : list A).

Lemma insert_by_Permutation le key x l : insert_by le key x l ≡ₚ x :: l.
Proof.
  induction l as [|y l IH]; simpl; [done|].
  destruct (le _ _); [done|]. by rewrite IH, Permutation_swap.
Qed.

Lemma sort_by_Permutation le key l : sort_by le key l ≡ₚ l.
Proof.
  induction l as [|x l IH]; simpl; [done|].
  by rewrite insert_by_Permutation, IH.
Qed.

Lemma sorted_Permutation key reverse l : sorted key reverse l ≡ₚ l.
Proof. apply sort_by_Permutation. Qed.

Lemma insert_by_Sorted le key (R : relation A) x l :
  (∀ a b, le (key a) (key b) = true → R a b) →
  (∀ a b, le (key a) (key b) = false → R b a) →
  Sorted R l → Sorted R (insert_by le key x l).
Proof.
  intros Hle Hgt. induction l as [|y l IH]; simpl; intros Hl.
  - by repeat constructor.
  - destruct (le (key x) (key y)) eqn:Hxy.
    + constructor; [done | constructor; by apply Hle].
    + apply Sorted_inv in Hl as [Hl Hy]. constructor; [by apply IH|].
      destruct l as [|z l]; simpl.
      * constructor. by apply Hgt.
      * destruct (le (key x) (key z)); constructor.
        -- by apply Hgt.
        -- by apply HdRel_inv in Hy.
Qed.

Lemma sort_by_Sorted le key (R : relation A) l :
  (∀ a b, le (key a) (key b) = true → R a b) →
  (∀ a b, le (key a) (key b) = false → R b a) →
  Sorted R (sort_by le key l).
Proof.
  intros Hle Hgt. induction l as [|x l IH]; simpl; [constructor|].
  by apply insert_by_Sorted.
Qed.

(** Stability: the elements with one key keep the order they came in. *)
Lemma insert_by_stable le key x l c :
  (∀ a, le a a = true) →
  List.filter (λ y, Z.eqb (key y) c) (insert_by le key x l) =
  List.filter (λ y, Z.eqb (key y) c) (x :: l).
Proof.
  intros Hrefl. induction l as [|y l IH]; simpl; [done|].
  destruct (le (key x) (key y)) eqn:Hxy; [done|]. simpl. simpl in IH.
  rewrite IH. destruct (Z.eqb_spec (key x) c) as [Hx|]; [|done].
  destruct (Z.eqb_spec (key y) c) as [Hy|]; [|done].
  rewrite Hx, <- Hy, Hrefl in Hxy. done.
Qed.

Lemma sort_by_stable le key l c :
  (∀ a, le a a = true) →
  List.filter (λ y, Z.eqb (key y) c) (sort_by le key l) =
  List.filter (λ y, Z.eqb (key y) c) l.
Proof.
  intros Hrefl. induction l as [|x l IH]; simpl; [done|].
  rewrite insert_by_stable by done. simpl. by rewrite IH.
Qed.

Lemma sorted_stable key reverse l c :
  List.filter (λ y, Z.eqb (key y) c) (sorted key reverse l) =
  List.filter (λ y, Z.eqb (key y) c) l.
Proof.
  apply sort_by_stable. intros a. destruct reverse.
  - apply Z.geb_le. lia.
  - apply Z.leb_refl.
Qed.

Lemma sorted_ascending key l :
  Sorted (λ x y, (key x ≤ key y)%Z) (sorted key false l).
Proof.
  apply sort_by_Sorted.
  - intros a b H. by apply Z.leb_le.
  - intros a b H. apply Z.leb_gt in H. lia.
Qed.

Lemma sorted_descending key l :
  Sorted (λ x y, (key y ≤ key x)%Z) (sorted key true l).
Proof.
  apply sort_by_Sorted.
  - intros a b H. by apply Z.geb_le.
  - intros a b H. rewrite Z.geb_leb in H. apply Z.leb_gt in H. lia.
Qed.

(** A stable sort has one possible result: two lists in order of key that
    list the elements of each key in the same order are the same list.  So
    [sorted] is what any stable sort returns, Python's included. *)
Lemma stable_sorted_unique (R : relation Z) key l1 l2 :
  (∀ a b c, R a b → R b c → R a c) →
  (∀ a b, R a b → R b a → a = b) →
  Sorted (λ x y, R (key x) (key y)) l1 →
  Sorted (λ x y, R (key x) (key y)) l2 →
  (∀ c, List.filter (λ y, Z.eqb (key y) c) l1
        = List.filter (λ y, Z.eqb (key y) c) l2) →
  l1 = l2.
Proof.
  intros HR Hanti H1 H2.
  assert (Transitive (λ x y : A, R (key x) (key y))) as Htrans.
  { intros x y z Hxy Hyz. by eapply HR. }
  apply Sorted_StronglySorted in H1, H2; [|done..].
  revert l2 H2. induction H1 as [|x l1 H1 IH Hx]; intros l2 H2 Heq.
  - destruct l2 as [|y l2]; [done|]. specialize (Heq (key y)). simpl in Heq.
    by rewrite Z.eqb_refl in Heq.
  - destruct l2 as [|y l2].
    { specialize (Heq (key x)). simpl in Heq. by rewrite Z.eqb_refl in Heq. }
    apply StronglySorted_inv in H2 as [H2 Hy].
    assert (key y = key x) as Hk.
    { assert (y ∈ x :: l1) as Hyin.
      { pose proof (Heq (key y)) as He. simpl in He.
        rewrite (Z.eqb_refl (key y)) in He.
        assert (y ∈ List.filter (λ z, Z.eqb (key z) (key y)) (x :: l1)) as Hin.
        { simpl. rewrite He. apply list_elem_of_here. }
        apply list_elem_of_In, List.filter_In in Hin as [Hin _].
        by apply list_elem_of_In. }
      assert (x ∈ y :: l2) as Hxin.
      { pose proof (Heq (key x)) as He. simpl in He.
        rewrite (Z.eqb_refl (key x)) in He.
        assert (x ∈ List.filter (λ z, Z.eqb (key z) (key x)) (y :: l2)) as Hin.
        { simpl. rewrite <- He. apply list_elem_of_here. }
        apply list_elem_of_In, List.filter_In in Hin as [Hin _].
        by apply list_elem_of_In. }
      apply elem_of_cons in Hyin as [->|Hyin]; [done|].
      apply elem_of_cons in Hxin as [->|Hxin]; [done|].
      rewrite List.Forall_forall in Hx, Hy.
      apply Hanti; [apply Hy | apply Hx]; by apply list_elem_of_In. }
    pose proof (Heq (key x)) as He. simpl in He.
    rewrite Hk, Z.eqb_refl in He. injection He as -> He.
    f_equal. apply IH; [done|]. intros c. specialize (Heq c). simpl in Heq.
    destruct (Z.eqb (key y) c); [by injection Heq | done].
Qed.

Lemma sorted_ascending_unique key l l' :
  Sorted (λ x y, (key x ≤ key y)%Z) l' →
  (∀ c, List.filter (λ y, Z.eqb (key y) c) l'
        = List.filter (λ y, Z.eqb (key y) c) l) →
  l' = sorted key false l.
Proof.
  intros Hsorted Hstable.
  apply (stable_sorted_unique (λ a b, (a ≤ b)%Z) key).
  - intros a b c ? ?. lia.
  - intros a b ? ?. lia.
  - done.
  - apply sorted_ascending.
  - intros c. by rewrite sorted_stable.
Qed.

Lemma sorted_descending_unique key l l' :
  Sorted (λ x y, (key y ≤ key x)%Z) l' →
  (∀ c, List.filter (λ y, Z.eqb (key y) c) l'
        = List.filter (λ y, Z.eqb (key y) c) l) →
  l' = sorted key true l.
Proof.
  intros Hsorted Hstable.
  apply (stable_sorted_unique (λ a b, (b ≤ a)%Z) key).
  - intros a b c ? ?. lia.
  - intros a b ? ?. lia.
  - done.
  - apply sorted_descending.
  - intros c. by rewrite sorted_stable.
Qed.

Lemma Sorted_take (R : relation A) n l : Sorted R l → Sorted R (take n l).
Proof.
  revert n. induction l as [|x l IH]; intros [|n] Hl; simpl; try constructor.
  - apply IH. by apply Sorted_inv in Hl as [? _].
  - apply Sorted_inv in Hl as [_ Hx]. destruct l as [|y l], n as [|n]; simpl;
      constructor. by apply HdRel_inv in Hx.
Qed.

Lemma slice_to_take limit l : ∃ n, slice_to limit l = take n l.
Proof. unfold slice_to. destruct (limit <? 0)%Z; eauto. Qed.

Lemma slice_to_nonneg limit l :
  (0 ≤ limit)%Z → slice_to limit l = take (Z.to_nat limit) l.
Proof.
  intros H. unfold slice_to. destruct (Z.ltb_spec limit 0); [lia | done].
Qed.

Lemma slice_to_subseteq limit l : slice_to limit l ⊆ l.
Proof.
  destruct (slice_to_take limit l) as [n ->]. apply subseteq_take.
Qed.

End SortFacts.

(** ** The extractor accepts any run of word characters and dots *)

Lemma word_or_dot_not_space c :
  word_or_dot ascii_word c = true → ascii_space c = false.
Proof. destruct c as [[] [] [] [] [] [] [] []]; vm_compute; done. Qed.

Lemma rstrip_cons uni_space c s :
  uni_space c = false → ∃ t, rstrip uni_space (String c s) = String c t.
Proof. intros Hc. simpl. destruct (rstrip uni_space s); rewrite ?Hc; eauto. Qed.

Lemma substring_all (s : string) : String.substring 0 (String.length s) s = s.
Proof. induction s as [|c s IH]; simpl; [done | by rewrite IH]. Qed.

(** A greedy run of a class over a subject made of that class reads it all,
    when the continuation accepts the end of the subject. *)
Lemma star_loop_class_all ok k n prev x g m :
  string_forall ok x = true → (String.length x ≤ n)%nat →
  (∀ prev', k (Re.Pos prev' EmptyString) g = Some m) →
  Re.star_loop (Re.exec (Re.Class ok)) k n (Re.Pos prev x) g = Some m.
Proof.
  intros Hok Hn Hk. revert n prev Hok Hn.
  induction x as [|c x IH]; intros n prev Hok Hn.
  - destruct n; simpl; apply Hk.
  - destruct n as [|n]; simpl in Hn; [lia|]. simpl in Hok.
    apply andb_prop in Hok as [Hc Hok]. simpl. unfold Re.step. simpl.
    rewrite Hc. simpl.
    rewrite (proj2 (Nat.ltb_lt _ _)) by lia.
    rewrite IH; [done.. | lia].
Qed.

(** One step of the matcher on each construct of [import_pattern]. *)
Lemma re_exec_cat r1 r2 p g k :
  Re.exec (Re.Cat r1 r2) p g k = Re.exec r1 p g (λ p' g', Re.exec r2 p' g' k).
Proof. done. Qed.

Lemma re_exec_bol s g k :
  Re.exec Re.Bol (Re.Pos None s) g k = k (Re.Pos None s) g.
Proof. done. Qed.

Lemma re_exec_chr c prev c' t g k :
  Re.exec (Re.Chr c) (Re.Pos prev (String c' t)) g k
  = if Ascii.eqb c c' then k (Re.Pos (Some c') t) g else None.
Proof. simpl. unfold Re.step. simpl. by destruct (Ascii.eqb c c'). Qed.

Lemma re_exec_class ok prev c t g k :
  Re.exec (Re.Class ok) (Re.Pos prev (String c t)) g k
  = if ok c then k (Re.Pos (Some c) t) g else None.
Proof. simpl. unfold Re.step. simpl. by destruct (ok c). Qed.

Lemma re_exec_class_nil ok prev g k :
  Re.exec (Re.Class ok) (Re.Pos prev EmptyString) g k = None.
Proof. done. Qed.

Lemma re_exec_star r p g k :
  Re.exec (Re.Star r) p g k
  = Re.star_loop (Re.exec r) k (String.length (Re.rest p)) p g.
Proof. done. Qed.

Lemma re_exec_group r p g k :
  Re.exec (Re.Group r) p g k
  = Re.exec r p g (λ p' _, k p' (Some (Re.consumed p p'))).
Proof. done. Qed.

Lemma re_exec_opt_some r p g k m :
  Re.exec r p g k = Some m → Re.exec (Re.Opt r) p g k = Some m.
Proof. simpl. by intros ->. Qed.

Lemma re_exec_opt_none r p g k :
  Re.exec r p g k = None → Re.exec (Re.Opt r) p g k = k p g.
Proof. simpl. by intros ->. Qed.

Lemma re_exec_lit s prev t g k :
  Re.exec (Re.Lit s) (Re.Pos prev (s ++ t)%string) g k
  = k (Re.Pos (string_last s prev) t) g.
Proof.
  revert prev. induction s as [|c s IH]; intros prev; [done|].
  rewrite string_app_cons.
  change (Re.Lit (String c s)) with (Re.Cat (Re.Chr c) (Re.Lit s)).
  rewrite re_exec_cat, re_exec_chr, Ascii.eqb_refl. apply IH.
Qed.

Lemma re_exec_lit_fail c s prev c' t g k :
  c' ≠ c →
  Re.exec (Re.Lit (String c s)) (Re.Pos prev (String c' t)) g k = None.
Proof.
  intros Hc. change (Re.Lit (String c s)) with (Re.Cat (Re.Chr c) (Re.Lit s)).
  rewrite re_exec_cat, re_exec_chr. by destruct (Ascii.eqb_spec c c') as [->|_].
Qed.

(** A greedy run of a class stops where the class stops, when the
    continuation accepts that position. *)
Lemma re_star_loop_class_stop ok k n prev ws t g m :
  string_forall ok ws = true →
  string_head t = None ∨ (∃ c, string_head t = Some c ∧ ok c = false) →
  (String.length ws ≤ n)%nat →
  k (Re.Pos (string_last ws prev) t) g = Some m →
  Re.star_loop (Re.exec (Re.Class ok)) k n (Re.Pos prev (ws ++ t)%string) g
  = Some m.
Proof.
  intros Hws Ht. revert n prev Hws.
  induction ws as [|c ws IH]; intros n prev Hws Hn Hend.
  - change (EmptyString ++ t)%string with t. simpl in Hend.
    destruct n; cbn [Re.star_loop]; [done|].
    destruct t as [|c t]; [by rewrite re_exec_class_nil|].
    rewrite re_exec_class.
    destruct Ht as [Ht|(c' & [= <-] & Hc)]; [done|]. by rewrite Hc.
  - destruct n as [|n]; simpl in Hn; [lia|]. simpl in Hws.
    apply andb_prop in Hws as [Hc Hws].
    rewrite string_app_cons. cbn [Re.star_loop]. rewrite re_exec_class, Hc.
    cbn [Re.rest]. rewrite (proj2 (Nat.ltb_lt _ _)) by (simpl; lia).
    rewrite IH; [done..| lia | done].
Qed.

Lemma re_exec_plus_class_stop ok k prev ws t g m :
  ws ≠ EmptyString → string_forall ok ws = true →
  string_head t = None ∨ (∃ c, string_head t = Some c ∧ ok c = false) →
  k (Re.Pos (string_last ws prev) t) g = Some m →
  Re.exec (Re.Plus (Re.Class ok)) (Re.Pos prev (ws ++ t)%string) g k = Some m.
Proof.
  intros Hne Hws Ht Hk. destruct ws as [|c ws]; [done|]. simpl in Hws.
  apply andb_prop in Hws as [Hc Hws]. unfold Re.Plus.
  rewrite string_app_cons, re_exec_cat, re_exec_class, Hc, re_exec_star.
  cbn [Re.rest].
  apply re_star_loop_class_stop; [done | done | rewrite string_length_app; lia | done].
Qed.

(** A greedy run of a class may stop anywhere, when the continuation
    accepts every position it can reach. *)
Lemma re_star_loop_class_any ok k (P : string → Prop) g m :
  (∀ c t, P (String c t) → P t) →
  (∀ prev t, P t → k (Re.Pos prev t) g = Some m) →
  ∀ n prev t, P t →
    Re.star_loop (Re.exec (Re.Class ok)) k n (Re.Pos prev t) g = Some m.
Proof.
  intros Htl Hk n. induction n as [|n IH]; intros prev t Ht; cbn [Re.star_loop].
  - by apply Hk.
  - destruct t as [|c t]; [rewrite re_exec_class_nil; by apply Hk|].
    rewrite re_exec_class. destruct (ok c); [|by apply Hk].
    cbn [Re.rest]. rewrite (proj2 (Nat.ltb_lt _ _)) by (simpl; lia).
    rewrite IH; [done|]. by eapply Htl.
Qed.

(** [.*] reads a text without a newline to its end. *)
Lemma re_exec_dot_star k prev t g m :
  string_forall (λ c, negb (Ascii.eqb c newline)) t = true →
  (∀ prev', k (Re.Pos prev' EmptyString) g = Some m) →
  Re.exec (Re.Star Re.AnyChar) (Re.Pos prev t) g k = Some m.
Proof.
  intros Ht Hk. rewrite re_exec_star. cbn [Re.rest].
  exact (star_loop_class_all (λ c, negb (Ascii.eqb c newline)) k
           (String.length t) prev t g m Ht (le_n _) Hk).
Qed.

Lemma lstrip_run uni_space w t :
  string_forall uni_space w = true →
  lstrip uni_space (w ++ t)%string = lstrip uni_space t.
Proof.
  induction w as [|c w IH]; [done|]. simpl. intros [Hc Hw]%andb_prop.
  rewrite Hc. by apply IH.
Qed.

Section ImportLines.
Variables uni_space uni_word : ascii → bool.
Hypothesis Htables : tables_apart uni_space uni_word.

Lemma word_or_dot_no_space c :
  word_or_dot uni_word c = true → uni_space c = false.
Proof.
  intros Hc. destruct Htables as [Hapart _].
  destruct (uni_space c) eqn:Hs; [|done]. apply Hapart in Hs. congruence.
Qed.

(** From the keyword on: [import], white space, the name and the rest of
    the line. *)
Lemma import_pattern_accepts_from prev ws x post :
  ws ≠ EmptyString → string_forall uni_space ws = true →
  x ≠ EmptyString → string_forall (word_or_dot uni_word) x = true →
  (post = EmptyString
   ∨ ∃ c post', post = String c post' ∧ uni_space c = true
                ∧ string_forall (λ c, negb (Ascii.eqb c newline)) post = true) →
  Re.exec
    (Re.Cat (Re.Lit "import")
    (Re.Cat (Re.Plus (Re.Class uni_space))
    (Re.Cat (Re.Group (Re.Plus (Re.Class (word_or_dot uni_word))))
    (Re.Cat (Re.Opt (Re.Cat (Re.Plus (Re.Class uni_space)) (Re.Star Re.AnyChar)))
            Re.Eol))))
    (Re.Pos prev ("import" ++ ws ++ x ++ post)%string) None (λ _ g, Some g)
  = Some (Some x).
Proof.
  intros Hws0 Hws Hx0 Hx Hpost. destruct Htables as (Hapart & _).
  rewrite re_exec_cat, re_exec_lit, re_exec_cat.
  apply re_exec_plus_class_stop; [done | done | |].
  { right. destruct x as [|c x]; [done|]. exists c. split; [done|].
    simpl in Hx. apply andb_prop in Hx as [Hc _]. by apply word_or_dot_no_space. }
  cbv beta. rewrite re_exec_cat, re_exec_group.
  apply re_exec_plus_class_stop; [done | done | |].
  { destruct Hpost as [->|(c & post' & -> & Hc & _)]; [by left|].
    right. exists c. split; [done|]. by apply Hapart. }
  cbv beta. rewrite (ReFacts.consumed_app _ _ x) by done.
  rewrite re_exec_cat.
  destruct Hpost as [->|(c & post' & -> & Hc & Hnl)].
  - rewrite re_exec_opt_none; [done|].
    unfold Re.Plus. by rewrite !re_exec_cat, re_exec_class_nil.
  - apply re_exec_opt_some. unfold Re.Plus.
    rewrite !re_exec_cat, re_exec_class, Hc, re_exec_star. cbn [Re.rest].
    simpl in Hnl. apply andb_prop in Hnl as [_ Hnl].
    apply (re_star_loop_class_any uni_space _
             (λ t, string_forall (λ c, negb (Ascii.eqb c newline)) t = true));
      [| |done].
    + intros c' t Ht. simpl in Ht. by apply andb_prop in Ht as [_ ?].
    + intros prev' t Ht. by apply re_exec_dot_star.
Qed.

(** Every import line matches [import_pattern], group 1 holding the name. *)
Lemma import_pattern_accepts line x :
  import_line uni_space line x →
  x ≠ EmptyString → string_forall (word_or_dot uni_word) x = true →
  Re.re_match (import_pattern uni_space uni_word) line = Some (Some x).
Proof.
  intros (pre & ws & post & -> & Hpre & Hws0 & Hws & Hpost) Hx0 Hx.
  destruct Htables as (_ & Ho & Hi).
  unfold Re.re_match, import_pattern.
  rewrite re_exec_cat, re_exec_bol, re_exec_cat, re_exec_star. cbn [Re.rest].
  destruct Hpre as [Hpre|(w0 & w1 & -> & Hw0 & Hw10 & Hw1)].
  - apply re_star_loop_class_stop; [done | | rewrite string_length_app; lia |].
    { right. exists "i"%char. by split. }
    rewrite re_exec_cat, re_exec_opt_none.
    + by apply import_pattern_accepts_from.
    + rewrite re_exec_cat. by apply re_exec_lit_fail.
  - rewrite !string_app_assoc.
    apply re_star_loop_class_stop; [done | | rewrite string_length_app; lia |].
    { right. exists "o"%char. by split. }
    rewrite re_exec_cat. apply re_exec_opt_some.
    rewrite re_exec_cat, re_exec_lit.
    apply re_exec_plus_class_stop; [done | done | |].
    { right. exists "i"%char. by split. }
    by apply import_pattern_accepts_from.
Qed.

(** An import line is no comment line. *)
Lemma import_line_not_comment line x :
  import_line uni_space line x → startswith "--" (strip uni_space line) = false.
Proof.
  intros (pre & ws & post & -> & Hpre & _).
  destruct Htables as (_ & Ho & Hi). unfold strip.
  destruct Hpre as [Hpre|(w0 & w1 & -> & Hw0 & _)].
  - rewrite lstrip_run by done.
    change ("import" ++ ws ++ x ++ post)%string
      with (String "i" ("mport" ++ ws ++ x ++ post))%string.
    cbn [lstrip]. rewrite Hi.
    destruct (rstrip_cons uni_space "i" ("mport" ++ ws ++ x ++ post)%string Hi)
      as [t ->]. done.
  - rewrite !string_app_assoc, lstrip_run by done.
    change ("open" ++ w1 ++ "import" ++ ws ++ x ++ post)%string
      with (String "o" ("pen" ++ w1 ++ "import" ++ ws ++ x ++ post))%string.
    cbn [lstrip]. rewrite Ho.
    destruct (rstrip_cons uni_space "o"
                ("pen" ++ w1 ++ "import" ++ ws ++ x ++ post)%string Ho)
      as [t ->]. done.
Qed.

(** The extractor accepts any arrangement of dots: an import line adds its
    name, for every non-empty run of word characters and dots. *)
Lemma parse_line_import_run module line x :
  import_line uni_space line x →
  x ≠ EmptyString → string_forall (word_or_dot uni_word) x = true →
  imports (parse_line uni_space uni_word module line) = set_add x (imports module).
Proof.
  intros Hline Hne Hok. unfold parse_line.
  rewrite (import_line_not_comment line x) by done.
  rewrite (import_pattern_accepts line x) by done.
  by destruct (Re.re_search _ _).
Qed.

End ImportLines.

Lemma ascii_tables_apart : tables_apart ascii_space ascii_word.
Proof.
  split_and!; [|done..]. intros c Hc.
  destruct (word_or_dot ascii_word c) eqn:Hw; [|done].
  apply word_or_dot_not_space in Hw. congruence.
Qed.

(** ** The extractor: what a line adds *)

(** C3, as amended.  For every line, the extractor leaves [imports] as it is
    or adds the one name the pattern captured, and that name is a non-empty
    run of identifier characters and dots.  The pattern does not constrain
    where the dots stand: every import line (white space, possibly [open]
    and white space, [import], white space, the name, and then nothing more
    or white space and anything) adds its name, for every such run, also
    with a leading dot, a trailing dot or dots in a row.  This holds for all
    tables of white space and word characters that keep the two apart, as
    Python's do. *)
Theorem parse_line_adds_word_dot_run :
  (∀ uni_space uni_word module line,
     imports (parse_line uni_space uni_word module line) = imports module ∨
     ∃ x, imports (parse_line uni_space uni_word module line)
            = set_add x (imports module) ∧
          x ≠ EmptyString ∧ string_forall (word_or_dot uni_word) x = true)
  ∧ (∀ uni_space uni_word module line x,
       tables_apart uni_space uni_word →
       import_line uni_space line x →
       x ≠ EmptyString → string_forall (word_or_dot uni_word) x = true →
       imports (parse_line uni_space uni_word module line)
       = set_add x (imports module))
  ∧ tables_apart ascii_space ascii_word.
Proof.
  split_and!.
  - intros uni_space uni_word module line.
    destruct (parse_line_imports uni_space uni_word module line)
      as [H|(x & H & _ & Hne & Hok)]; [by left|].
    right. by exists x.
  - intros uni_space uni_word module line x Htables.
    by apply parse_line_import_run.
  - apply ascii_tables_apart.
Qed.

Lemma parse_line_adds_word_dot_run_witness :
  import_line ascii_space "  open  import .A..B. using (x)" ".A..B."
  ∧ string_forall (word_or_dot ascii_word) ".A..B." = true
  ∧ imports (parse_line ascii_space ascii_word (new_module "M" "M.agda")
               "  open  import .A..B. using (x)")
    = [".A..B."].
Proof.
  assert (import_line ascii_space "  open  import .A..B. using (x)" ".A..B.")
    as Hline.
  { exists "  open  ", " ", " using (x)". split_and!; [done | | done..|].
    - right. by exists "  ", "  ".
    - right. by exists " "%char, "using (x)". }
  split_and!; [exact Hline | vm_compute; reflexivity |].
  destruct parse_line_adds_word_dot_run as (_ & Hadd & Htables).
  apply (Hadd ascii_space ascii_word (new_module "M" "M.agda") _ ".A..B."
           Htables Hline); [done | vm_compute; reflexivity].
Defined.

(** C3, as stated, fails: the line [import .A..B.] adds the name [.A..B.],
    which has a leading dot, a trailing dot and two dots in a row. *)
Lemma parse_line_keeps_stray_dots :
  ¬ (∀ line x,
       x ∈ imports (parse_line ascii_space ascii_word
                      (new_module "M" "M.agda") line) →
       well_dotted ascii_word x = true).
Proof.
  intros H. specialize (H "import .A..B." ".A..B.").
  assert (well_dotted ascii_word ".A..B." = true) as Hw.
  { apply H. vm_compute. apply list_elem_of_here. }
  vm_compute in Hw. discriminate Hw.
Qed.

(** C7.  Whatever text the extractor is run on, from a fresh module, the
    re-exported imports it collects are among the imports it collects; and
    so it is for every module of the table once the scan is over. *)
Theorem public_imports_subset_imports uni_space uni_word :
  (∀ name filepath content,
     public_imports
       (parse_imports uni_space uni_word (new_module name filepath) content)
     ⊆ imports
         (parse_imports uni_space uni_word (new_module name filepath) content))
  ∧ (∀ agda_files k m,
       dict_get k (modules (scan_modules uni_space uni_word agda_files)) = Some m →
       public_imports m ⊆ imports m).
Proof.
  split.
  - intros name filepath content. by apply fold_parse_line_subset.
  - intros agda_files k m Hm.
    by apply (scan_modules_scanned uni_space uni_word agda_files) in Hm as [_ ?].
Qed.

Lemma public_imports_subset_imports_witness :
  dict_get "Data.Nat" (modules sample_analyzer)
    = Some {| name := "Data.Nat"; filepath := "src/Data/Nat.agda";
              imports := ["Data.Bool"; "Prim.Kan"];
              public_imports := ["Data.Bool"]; is_literate := false |}
  ∧ ["Data.Bool"] ⊆ ["Data.Bool"; "Prim.Kan"].
Proof.
  split; [vm_compute; reflexivity|].
  apply (proj2 (public_imports_subset_imports ascii_space ascii_word)
           sample_files "Data.Nat"
           {| name := "Data.Nat"; filepath := "src/Data/Nat.agda";
              imports := ["Data.Bool"; "Prim.Kan"];
              public_imports := ["Data.Bool"]; is_literate := false |}).
  vm_compute; reflexivity.
Defined.

(** ** The reverse index *)

(** C6.  After the scan, a module that imports a known module [i] has its
    name in [reverse_deps[i]]. *)
Theorem reverse_deps_has_importers uni_space uni_word agda_files k m i :
  let self := scan_modules uni_space uni_word agda_files in
  dict_get k (modules self) = Some m →
  i ∈ imports m →
  dict_mem i (modules self) = true →
  name m ∈ default ∅ (reverse_deps self !! i).
Proof.
  intros self Hm Hi _.
  destruct (scan_modules_scanned uni_space uni_word agda_files) as [_ Hall].
  destruct (Hall k m Hm) as [-> _].
  apply build_reverse_deps_spec. exists m.
  split; [by apply dict_get_elem_of | done].
Qed.

Lemma reverse_deps_has_importers_witness :
  dict_get "Data.Nat" (modules sample_analyzer)
    = Some {| name := "Data.Nat"; filepath := "src/Data/Nat.agda";
              imports := ["Data.Bool"; "Prim.Kan"];
              public_imports := ["Data.Bool"]; is_literate := false |}
  ∧ "Data.Bool" ∈ ["Data.Bool"; "Prim.Kan"]
  ∧ dict_mem "Data.Bool" (modules sample_analyzer) = true
  ∧ "Data.Nat" ∈ default ∅ (reverse_deps sample_analyzer !! "Data.Bool").
Proof.
  split_and!; [vm_compute; reflexivity | apply list_elem_of_here
              | vm_compute; reflexivity |].
  apply (reverse_deps_has_importers ascii_space ascii_word sample_files
           "Data.Nat"
           {| name := "Data.Nat"; filepath := "src/Data/Nat.agda";
              imports := ["Data.Bool"; "Prim.Kan"];
              public_imports := ["Data.Bool"]; is_literate := false |}
           "Data.Bool").
  - vm_compute; reflexivity.
  - apply list_elem_of_here.
  - vm_compute; reflexivity.
Defined.

(** ** The rankings *)

Lemma internal_imports_resolvable modules module :
  internal_imports modules module = Z.of_nat (length (resolvable modules module)).
Proof. done. Qed.

Lemma internal_imports_without modules i module :
  dict_mem i modules = false →
  internal_imports modules (without_import i module) = internal_imports modules module.
Proof.
  intros Hi. unfold internal_imports, without_import. simpl. do 2 f_equal.
  induction (imports module) as [|x imps IH]; simpl; [done|].
  destruct (String.eqb_spec x i) as [->|Hne]; simpl.
  - by rewrite Hi.
  - by rewrite IH.
Qed.

Lemma elem_of_find_foundational_modules self limit n c :
  (n, c) ∈ find_foundational_modules self limit →
  ∃ m, (n, m) ∈ modules self ∧ c = internal_imports (modules self) m.
Proof.
  unfold find_foundational_modules.
  intros H%slice_to_subseteq. rewrite sorted_Permutation in H.
  apply list_elem_of_fmap in H as ([k m] & [= -> ->] & Hin). by exists m.
Qed.

Lemma elem_of_find_hub_modules self limit n c :
  (n, c) ∈ find_hub_modules self limit →
  n ∈ dict_keys (modules self) ∧ c = dependent_count self n.
Proof.
  unfold find_hub_modules.
  intros H%slice_to_subseteq. rewrite sorted_Permutation in H.
  by apply list_elem_of_fmap in H as (k & [= -> ->] & Hin).
Qed.

(** C2, as amended.  After the scan, let [m] import a name [i] that is not a
    known module.  The reverse index is built from every import, resolved or
    not: [m]'s name is in [reverse_deps[i]], and more generally it is in
    [reverse_deps[j]] exactly for the names [j] that [m] imports.  The name
    [i] does not count toward the internal import count of [m], which is
    that of [m] without [i], and this is the count the foundational ranking
    reports for [m]. *)
Theorem unknown_import_effects uni_space uni_word agda_files k m i :
  let self := scan_modules uni_space uni_word agda_files in
  dict_get k (modules self) = Some m →
  i ∈ imports m →
  dict_mem i (modules self) = false →
  name m ∈ default ∅ (reverse_deps self !! i)
  ∧ (∀ j, name m ∈ default ∅ (reverse_deps self !! j) ↔ j ∈ imports m)
  ∧ internal_imports (modules self) m
      = internal_imports (modules self) (without_import i m)
  ∧ (∀ limit c,
       (name m, c) ∈ find_foundational_modules self limit →
       c = internal_imports (modules self) (without_import i m)).
Proof.
  intros self Hm Hi Hunknown.
  destruct (scan_modules_scanned uni_space uni_word agda_files) as [Hnd Hall].
  destruct (Hall k m Hm) as [Hname _].
  assert (∀ j, name m ∈ default ∅ (reverse_deps self !! j) ↔ j ∈ imports m) as Hrev.
  { intros j. rewrite Hname. unfold self. simpl. rewrite build_reverse_deps_spec.
    split.
    - intros (m' & Hm' & Hj). apply elem_of_dict_get in Hm'; [|done].
      unfold self in Hm. simpl in Hm. congruence.
    - intros Hj. exists m. split; [by apply dict_get_elem_of | done]. }
  split_and!.
  - by apply Hrev.
  - done.
  - by rewrite internal_imports_without.
  - intros limit c (m' & Hm' & ->)%elem_of_find_foundational_modules.
    rewrite Hname in Hm'. apply elem_of_dict_get in Hm'; [|done].
    rewrite internal_imports_without by done.
    unfold self in Hm. simpl in Hm. simpl in Hm'. congruence.
Qed.

Lemma unknown_import_effects_witness :
  let m := {| name := "Data.Nat"; filepath := "src/Data/Nat.agda";
              imports := ["Data.Bool"; "Prim.Kan"];
              public_imports := ["Data.Bool"]; is_literate := false |} in
  dict_get "Data.Nat" (modules sample_analyzer) = Some m
  ∧ "Prim.Kan" ∈ imports m
  ∧ dict_mem "Prim.Kan" (modules sample_analyzer) = false
  ∧ "Data.Nat" ∈ default ∅ (reverse_deps sample_analyzer !! "Prim.Kan")
  ∧ internal_imports (modules sample_analyzer) m = 1%Z.
Proof.
  intros m.
  assert (dict_get "Data.Nat" (modules sample_analyzer) = Some m) as Hm
    by (vm_compute; reflexivity).
  assert ("Prim.Kan" ∈ imports m) as Hi
    by (apply list_elem_of_further, list_elem_of_here).
  assert (dict_mem "Prim.Kan" (modules sample_analyzer) = false) as Hu
    by (vm_compute; reflexivity).
  destruct (unknown_import_effects ascii_space ascii_word sample_files
              "Data.Nat" m "Prim.Kan" Hm Hi Hu) as (Hrev & _ & Hcount & _).
  split_and!; [done.. | ]. etrans; [exact Hcount|]. vm_compute. reflexivity.
Defined.

(** C2, as stated, fails: after scanning [sample_files], where [Data.Nat]
    imports the unknown [Prim.Kan], the reverse index has an entry under
    [Prim.Kan], and [Data.Nat] is in it. *)
Lemma unknown_import_gets_reverse_entry :
  dict_mem "Prim.Kan" (modules sample_analyzer) = false
  ∧ ¬ (reverse_deps sample_analyzer !! "Prim.Kan" = None)
  ∧ ¬ (∀ j, "Data.Nat" ∈ default ∅ (reverse_deps sample_analyzer !! j) →
            dict_mem j (modules sample_analyzer) = true).
Proof.
  assert ("Data.Nat" ∈ default ∅ (reverse_deps sample_analyzer !! "Prim.Kan")) as Hin.
  { apply build_reverse_deps_spec. eexists. split.
    - vm_compute. apply list_elem_of_here.
    - apply list_elem_of_further, list_elem_of_here. }
  split_and!.
  - vm_compute; reflexivity.
  - intros Hnone. rewrite Hnone in Hin. simpl in Hin. set_solver.
  - intros H. apply H in Hin. vm_compute in Hin. discriminate Hin.
Qed.

(** C10.  Whatever the analyzer holds, also a reverse index with entries
    under names that are not known modules, and whatever the limit, every
    name in the hub ranking and in the foundational ranking is a key of
    [modules]. *)
Theorem ranking_names_known self limit :
  Forall (λ e, dict_mem (fst e) (modules self) = true) (find_hub_modules self limit)
  ∧ Forall (λ e, dict_mem (fst e) (modules self) = true)
      (find_foundational_modules self limit).
Proof.
  split; apply Forall_forall; intros [n c] Hin; simpl; apply dict_mem_keys.
  - by apply elem_of_find_hub_modules in Hin as [? _].
  - apply elem_of_find_foundational_modules in Hin as (m & Hm & _).
    apply list_elem_of_fmap. by exists (n, m).
Qed.

(** C9, as amended.  For a limit [L ≥ 0] and a table of [n] modules, the
    foundational ranking is the first [min L n] entries of the table's
    (name, internal import count) pairs put in ascending order of count,
    pairs of equal count staying in discovery order; the count is the number
    of imports that resolve to known modules. *)
Theorem find_foundational_modules_ranked self limit :
  (0 ≤ limit)%Z →
  let items :=
    map (λ item, (fst item, Z.of_nat (length (resolvable (modules self) (snd item)))))
      (modules self) in
  let n := Z.of_nat (length (modules self)) in
  Z.of_nat (length (find_foundational_modules self limit)) = Z.min limit n
  ∧ Sorted (λ x y, (snd x ≤ snd y)%Z) (find_foundational_modules self limit)
  ∧ ∃ ranked,
      ranked ≡ₚ items
      ∧ Sorted (λ x y, (snd x ≤ snd y)%Z) ranked
      ∧ (∀ c, List.filter (λ e, Z.eqb (snd e) c) ranked
              = List.filter (λ e, Z.eqb (snd e) c) items)
      ∧ find_foundational_modules self limit
          = take (Z.to_nat (Z.min limit n)) ranked.
Proof.
  intros Hlimit items n. unfold find_foundational_modules.
  change (map (λ item, (fst item, internal_imports (modules self) (snd item)))
            (modules self)) with items.
  rewrite slice_to_nonneg by done.
  assert (length (sorted snd false items) = length (modules self)) as Hlen.
  { rewrite sorted_Permutation. unfold items. by rewrite length_map. }
  split_and!.
  - rewrite length_take, Hlen. unfold n. lia.
  - apply Sorted_take, sorted_ascending.
  - exists (sorted snd false items). split_and!.
    + apply sorted_Permutation.
    + apply sorted_ascending.
    + intros c. apply sorted_stable.
    + destruct (Z.le_gt_cases limit n) as [Hle|Hgt].
      * by rewrite Z.min_l.
      * rewrite Z.min_r by lia. rewrite !take_ge; [done | unfold n in *; lia..].
Qed.

Lemma find_foundational_modules_ranked_witness :
  (0 ≤ 1)%Z
  ∧ find_foundational_modules sample_analyzer 1 = [("Data.Bool", 0%Z)]
  ∧ Z.of_nat (length (find_foundational_modules sample_analyzer 1)) = 1%Z.
Proof.
  split_and!; [lia | vm_compute; reflexivity |].
  etrans;
    [exact (proj1 (find_foundational_modules_ranked sample_analyzer 1 ltac:(lia)))|].
  vm_compute. reflexivity.
Defined.

(** C9, as stated for every limit, fails at a negative one: with the two
    modules of [sample_files] and limit [-1], the slice drops the last entry
    and one entry is returned, not [min (-1) 2]. *)
Lemma find_foundational_modules_negative_limit :
  find_foundational_modules sample_analyzer (-1) = [("Data.Bool", 0%Z)]
  ∧ Z.of_nat (length (find_foundational_modules sample_analyzer (-1)))
    ≠ Z.min (-1) (Z.of_nat (length (modules sample_analyzer))).
Proof. split; [vm_compute; reflexivity | vm_compute; discriminate]. Qed.

(** ** The depth-first traversal: what every call does *)

Lemma bind_Ret_inv {A B} (m : outcome A) (k : A → outcome B) b :
  m ≫= k = Ret b → ∃ a, m = Ret a ∧ k a = Ret b.
Proof. destruct m as [a| |]; simpl; [eauto | done..]. Qed.

Section DictMore.
Context {V : Type}.
Implicit Types (d : list (string * V)) (k : string) (v : V).

Lemma dict_get_None k d : dict_get k d = None ↔ k ∉ dict_keys d.
Proof.
  rewrite <- dict_mem_keys. unfold dict_mem. destruct (dict_get k d); split; done.
Qed.

Lemma dict_mem_false k d : dict_mem k d = false ↔ k ∉ dict_keys d.
Proof. rewrite <- dict_mem_keys. destruct (dict_mem k d); split; done. Qed.

Lemma dict_get_app k d1 d2 :
  dict_get k (d1 ++ d2)
  = match dict_get k d1 with Some v => Some v | None => dict_get k d2 end.
Proof.
  induction d1 as [|[k0 v0] d1 IH]; simpl; [done|].
  by destruct (String.eqb k k0).
Qed.

Lemma dict_get_app_l k v d1 d2 :
  dict_get k d1 = Some v → dict_get k (d1 ++ d2) = Some v.
Proof. intros H. by rewrite dict_get_app, H. Qed.

Lemma dict_mem_app_l k d1 d2 : dict_mem k d1 = true → dict_mem k (d1 ++ d2) = true.
Proof.
  unfold dict_mem. rewrite dict_get_app. by destruct (dict_get k d1).
Qed.

Lemma dict_keys_app d1 d2 : dict_keys (d1 ++ d2) = dict_keys d1 ++ dict_keys d2.
Proof. apply map_app. Qed.

Lemma dict_set_fresh k v d : dict_get k d = None → dict_set k v d = d ++ [(k, v)].
Proof.
  induction d as [|[k0 v0] d IH]; simpl; [done|].
  destruct (String.eqb k k0); [done|]. intros H. by rewrite IH.
Qed.

Lemma elem_of_dict_keys k d : k ∈ dict_keys d ↔ ∃ v, (k, v) ∈ d.
Proof.
  unfold dict_keys. rewrite list_elem_of_fmap. split.
  - intros ([k' v] & -> & H). by exists v.
  - intros [v H]. by exists (k, v).
Qed.

End DictMore.

Lemma dfs_unfold fuel modules module_name st :
  dfs (S fuel) modules module_name st =
  match dict_get module_name (chain_lengths st) with
  | Some d => Ret (d, st)
  | None =>
      if negb (dict_mem module_name modules) then Ret (0%Z, st)
      else if bool_decide (module_name ∈ path st) then Ret (0%Z, st)
      else
        module ← dict_item module_name modules;
        r ← dfs_imports modules (dfs fuel modules) (imports module) 0%Z
              {| chain_lengths := chain_lengths st;
                 path := path st ∪ {[module_name]} |};
        path' ← set_remove module_name (path (snd r));
        Ret (fst r,
             {| chain_lengths :=
                  dict_set module_name (fst r) (chain_lengths (snd r));
                path := path' |})
  end.
Proof. done. Qed.

Lemma grows_refl modules st : grows modules st st.
Proof.
  split; [done|]. exists []. rewrite app_nil_r.
  split_and!; [done | apply NoDup_nil_2 | by intros k v ?%elem_of_nil].
Qed.

Lemma grows_trans modules st1 st2 st3 :
  grows modules st1 st2 → grows modules st2 st3 → grows modules st1 st3.
Proof.
  intros [Hp1 (e1 & Hc1 & Hnd1 & He1)] [Hp2 (e2 & Hc2 & Hnd2 & He2)].
  split; [congruence|]. exists (e1 ++ e2).
  split_and!.
  - by rewrite Hc2, Hc1, app_assoc.
  - rewrite dict_keys_app. apply NoDup_app. split_and!; [done | | done].
    intros k Hk1 [v Hk2]%elem_of_dict_keys.
    destruct (He2 k v Hk2) as (_ & _ & Hfresh & _). apply Hfresh.
    rewrite Hc1, dict_keys_app, elem_of_app. by right.
  - intros k v [Hin|Hin]%elem_of_app.
    + by apply He1.
    + destruct (He2 k v Hin) as (Hknown & Hpath & Hfresh & Hv).
      split_and!; [done | congruence | | done].
      intros Hk. apply Hfresh. rewrite Hc1, dict_keys_app, elem_of_app. by left.
Qed.

Lemma grows_get modules st st' k v :
  grows modules st st' →
  dict_get k (chain_lengths st) = Some v → dict_get k (chain_lengths st') = Some v.
Proof. intros [_ (ext & -> & _)] H. by apply dict_get_app_l. Qed.

Lemma dfs_imports_grows modules f :
  (∀ name st d st', f name st = Ret (d, st') → dfs_post modules name st d st') →
  ∀ imps acc st acc' st',
    dfs_imports modules f imps acc st = Ret (acc', st') →
    grows modules st st' ∧ (acc ≤ acc')%Z.
Proof.
  intros Hf imps. induction imps as [|i imps IH]; intros acc st acc' st'; simpl.
  - intros [= -> ->]. split; [apply grows_refl | lia].
  - destruct (dict_mem i modules); [|apply IH].
    intros ([d st1] & Hcall & Hrest)%bind_Ret_inv. simpl in Hrest.
    apply Hf in Hcall as [Hg1 _]. apply IH in Hrest as [Hg2 Hacc].
    split; [by eapply grows_trans | lia].
Qed.

Lemma dfs_dfs_post fuel modules module_name st d st' :
  dfs fuel modules module_name st = Ret (d, st') →
  dfs_post modules module_name st d st'.
Proof.
  revert module_name st d st'.
  induction fuel as [|fuel IH]; intros module_name st d st'; [done|].
  rewrite dfs_unfold.
  destruct (dict_get module_name (chain_lengths st)) as [d0|] eqn:Hget.
  { intros [= -> ->]. split; [apply grows_refl | done]. }
  destruct (dict_mem module_name modules) eqn:Hknown; simpl.
  2:{ intros [= <- <-]. split; [apply grows_refl | congruence]. }
  case_bool_decide as Hpath.
  { intros [= <- <-]. split; [apply grows_refl | done]. }
  intros (module & Hmodule & H)%bind_Ret_inv.
  apply bind_Ret_inv in H as ([md st1] & Hloop & H). simpl in H.
  apply bind_Ret_inv in H as (path' & Hremove & [= <- <-]).
  apply (dfs_imports_grows modules _ IH) in Hloop
    as [[Hp1 (ext & Hc1 & Hnd1 & He1)] Hmd].
  simpl in Hp1, Hc1, He1.
  unfold set_remove in Hremove. case_bool_decide; [|done].
  injection Hremove as <-.
  assert (dict_get module_name (chain_lengths st1) = None) as Hfresh.
  { rewrite Hc1, dict_get_app, Hget. apply dict_get_None.
    intros [v Hin]%elem_of_dict_keys.
    destruct (He1 _ _ Hin) as (_ & Hnot & _). set_solver. }
  rewrite dict_set_fresh by done. split.
  - split; simpl; [rewrite Hp1; set_solver|].
    exists (ext ++ [(module_name, md)]). split_and!.
    + by rewrite Hc1, app_assoc.
    + rewrite dict_keys_app. apply NoDup_app.
      split_and!; [done | | apply NoDup_singleton].
      intros k [v Hin]%elem_of_dict_keys ->%list_elem_of_singleton.
      destruct (He1 _ _ Hin) as (_ & Hnot & _). set_solver.
    + intros k v [Hin|[= -> ->]%list_elem_of_singleton]%elem_of_app.
      * destruct (He1 _ _ Hin) as (? & Hnot & ? & ?).
        split_and!; [done | set_solver | done..].
      * split_and!; [done | done | by apply dict_get_None | done].
  - intros _ _. simpl. rewrite dict_get_app, Hfresh. simpl.
    by rewrite String.eqb_refl.
Qed.

(** ** The traversal returns *)

Lemma size_list_to_set_le (l : list string) :
  (size (list_to_set l : gset string) ≤ length l)%nat.
Proof.
  induction l as [|x l IH].
  - by rewrite list_to_set_nil, size_empty.
  - rewrite list_to_set_cons, size_union_alt, size_singleton. simpl.
    assert (size (list_to_set l ∖ {[x]} : gset string)
            ≤ size (list_to_set l : gset string))%nat;
      [apply subseteq_size; set_solver | lia].
Qed.

Lemma off_path_empty modules : (off_path modules ∅ ≤ length modules)%nat.
Proof.
  unfold off_path.
  etrans; [apply subseteq_size with (Y := list_to_set (dict_keys modules)); set_solver|].
  etrans; [apply size_list_to_set_le|]. unfold dict_keys. by rewrite length_map.
Qed.

Lemma off_path_add modules (path : gset string) module_name :
  dict_mem module_name modules = true → module_name ∉ path →
  (off_path modules (path ∪ {[module_name]}) < off_path modules path)%nat.
Proof.
  intros Hknown%dict_mem_keys Hpath. unfold off_path. apply subset_size.
  apply strict_spec_alt. split; [set_solver|].
  intros Heq. assert (module_name ∈ list_to_set (dict_keys modules) ∖ path) as Hin
    by set_solver.
  rewrite <- Heq in Hin. set_solver.
Qed.

Lemma dfs_imports_returns modules f (P : gset string) :
  (∀ name st, path st = P → ∃ d st', f name st = Ret (d, st')) →
  (∀ name st d st', f name st = Ret (d, st') → dfs_post modules name st d st') →
  ∀ imps acc st, path st = P →
    ∃ acc' st', dfs_imports modules f imps acc st = Ret (acc', st').
Proof.
  intros Hret Hpost imps. induction imps as [|i imps IH]; intros acc st HP; simpl.
  - eauto.
  - destruct (dict_mem i modules); [|by apply IH].
    destruct (Hret i st HP) as (d & st1 & Hcall). rewrite Hcall. simpl.
    apply IH. apply Hpost in Hcall as [[Hp _] _]. congruence.
Qed.

(** A call with more budget than there are known modules off the path
    returns: it neither raises nor runs out of budget. *)
Lemma dfs_returns fuel modules module_name st :
  (off_path modules (path st) < fuel)%nat →
  ∃ d st', dfs fuel modules module_name st = Ret (d, st').
Proof.
  revert module_name st.
  induction fuel as [|fuel IH]; intros module_name st Hfuel; [lia|].
  rewrite dfs_unfold.
  destruct (dict_get module_name (chain_lengths st)) as [d0|] eqn:Hget; [eauto|].
  destruct (dict_mem module_name modules) eqn:Hknown; simpl; [|eauto].
  case_bool_decide as Hpath; [eauto|].
  unfold dict_item. unfold dict_mem in Hknown.
  destruct (dict_get module_name modules) as [module|] eqn:Hmodule; [|done].
  simpl.
  pose proof (off_path_add modules (path st) module_name) as Hlt.
  unfold dict_mem in Hlt. rewrite Hmodule in Hlt. specialize (Hlt eq_refl Hpath).
  destruct (dfs_imports_returns modules (dfs fuel modules)
              (path st ∪ {[module_name]})) with
      (imps := imports module) (acc := 0%Z)
      (st := {| chain_lengths := chain_lengths st;
                path := path st ∪ {[module_name]} |})
    as (md & st1 & Hloop); [ | | done | ].
  - intros name st0 HP. apply IH. rewrite HP. lia.
  - intros name st0 d st0'. apply dfs_dfs_post.
  - rewrite Hloop. simpl.
    apply (dfs_imports_grows modules _ (dfs_dfs_post fuel modules)) in Hloop
      as [[Hp1 _] _]. simpl in Hp1.
    unfold set_remove. rewrite bool_decide_eq_true_2 by (rewrite Hp1; set_solver).
    simpl. eauto.
Qed.

(** The budget only bounds the recursion: a call that returns does the same
    with any larger budget. *)
Lemma dfs_imports_more modules f f' :
  (∀ name st r, f name st = Ret r → f' name st = Ret r) →
  ∀ imps acc st r,
    dfs_imports modules f imps acc st = Ret r →
    dfs_imports modules f' imps acc st = Ret r.
Proof.
  intros Hf imps. induction imps as [|i imps IH]; intros acc st r; simpl; [done|].
  destruct (dict_mem i modules); [|apply IH].
  intros (r1 & Hcall & Hrest)%bind_Ret_inv. rewrite (Hf _ _ _ Hcall). simpl.
  by apply IH.
Qed.

Lemma dfs_more_fuel fuel fuel' modules module_name st r :
  (fuel ≤ fuel')%nat →
  dfs fuel modules module_name st = Ret r →
  dfs fuel' modules module_name st = Ret r.
Proof.
  revert fuel' module_name st r.
  induction fuel as [|fuel IH]; intros fuel' module_name st r Hle; [done|].
  destruct fuel' as [|fuel']; [lia|]. rewrite !dfs_unfold.
  destruct (dict_get module_name (chain_lengths st)); [done|].
  destruct (negb (dict_mem module_name modules)); [done|].
  case_bool_decide as Hpath; [done|].
  intros (module & Hmodule & Hrun)%bind_Ret_inv. rewrite Hmodule. simpl.
  apply bind_Ret_inv in Hrun as (r1 & Hloop & Hrun).
  rewrite (dfs_imports_more modules (dfs fuel modules) (dfs fuel' modules))
    with (r := r1); [done | | done].
  intros name st0 r0. apply IH. lia.
Qed.

(** The driving loop returns, with every name it was given on record if it
    is a known module. *)
Lemma chains_loop_returns fuel modules names lengths :
  (length modules < fuel)%nat →
  ∃ lengths',
    chains_loop fuel modules names lengths = Ret lengths' ∧
    grows modules {| chain_lengths := lengths; path := ∅ |}
                  {| chain_lengths := lengths'; path := ∅ |} ∧
    ∀ k, k ∈ names → dict_mem k modules = true → dict_mem k lengths' = true.
Proof.
  intros Hfuel. revert lengths.
  induction names as [|n names IH]; intros lengths; simpl.
  - exists lengths. split_and!; [done | apply grows_refl | by intros k ?%elem_of_nil].
  - destruct (dict_mem n lengths) eqn:Hn.
    + destruct (IH lengths) as (lengths' & Hrun & Hg & Hall).
      exists lengths'. split_and!; [done..|].
      intros k [->|Hk]%elem_of_cons Hknown; [|by apply Hall].
      destruct Hg as [_ (ext & Hc & _)]. simpl in Hc. rewrite Hc.
      by apply dict_mem_app_l.
    + destruct (dfs_returns fuel modules n {| chain_lengths := lengths; path := ∅ |})
        as (d & [lengths1 path1] & Hcall).
      { simpl. pose proof (off_path_empty modules). lia. }
      rewrite Hcall. simpl.
      apply dfs_dfs_post in Hcall as [Hg1 Hrec]. simpl in Hrec.
      assert (path1 = ∅) as -> by (by destruct Hg1 as [? _]).
      destruct (IH lengths1) as (lengths' & Hrun & Hg & Hall).
      exists lengths'. split_and!; [done | by eapply grows_trans |].
      intros k [->|Hk]%elem_of_cons Hknown; [|by apply Hall].
      specialize (Hrec Hknown ltac:(set_solver)).
      apply (grows_get _ _ _ _ _ Hg) in Hrec. simpl in Hrec.
      unfold dict_mem. by rewrite Hrec.
Qed.

(** What [calculate_dependency_chains] returns, on any table: one entry for
    each known module and no other, with a depth that is not negative. *)
Lemma calculate_dependency_chains_returns modules :
  ∃ lengths,
    calculate_dependency_chains modules = Ret lengths ∧
    NoDup (dict_keys lengths) ∧
    (∀ k, k ∈ dict_keys lengths ↔ dict_mem k modules = true) ∧
    (∀ k v, (k, v) ∈ lengths → (0 ≤ v)%Z).
Proof.
  unfold calculate_dependency_chains.
  destruct (chains_loop_returns (S (length modules)) modules (dict_keys modules) [])
    as (lengths & Hrun & [_ (ext & Hc & Hnd & Hext)] & Hall); [lia|].
  simpl in Hc. subst lengths. exists ext. split_and!; [done..| |].
  - intros k. split.
    + intros [v Hin]%elem_of_dict_keys. by destruct (Hext _ _ Hin) as [? _].
    + intros Hknown. apply dict_mem_keys, Hall; [|done]. by apply dict_mem_keys.
  - intros k v Hin. by destruct (Hext _ _ Hin) as (_ & _ & _ & ?).
Qed.

Lemma chains_loop_more fuel fuel' modules names lengths r :
  (fuel ≤ fuel')%nat →
  chains_loop fuel modules names lengths = Ret r →
  chains_loop fuel' modules names lengths = Ret r.
Proof.
  intros Hle. revert lengths.
  induction names as [|n names IH]; intros lengths; simpl; [done|].
  destruct (dict_mem n lengths); [apply IH|].
  intros (r1 & Hcall & Hrest)%bind_Ret_inv.
  rewrite (dfs_more_fuel fuel fuel' _ _ _ r1 Hle Hcall). simpl. by apply IH.
Qed.

(** The budget in [calculate_dependency_chains] is not seen in its result:
    any budget above the number of modules gives the same. *)
Lemma calculate_dependency_chains_budget fuel modules :
  (length modules < fuel)%nat →
  chains_loop fuel modules (dict_keys modules) []
  = calculate_dependency_chains modules.
Proof.
  intros Hfuel.
  destruct (calculate_dependency_chains_returns modules) as (lengths & Hrun & _).
  rewrite Hrun. apply (chains_loop_more (S (length modules))); [lia | done].
Qed.

(** No call raises [KeyError]: [self.modules[module_name]] comes after the
    test that the name is known, and [path.remove] finds the name that
    [path.add] put there. *)
Lemma dfs_imports_no_KeyError modules f :
  (∀ name st, f name st ≠ KeyError) →
  ∀ imps acc st, dfs_imports modules f imps acc st ≠ KeyError.
Proof.
  intros Hf imps. induction imps as [|i imps IH]; intros acc st; simpl; [done|].
  destruct (dict_mem i modules); [|apply IH].
  destruct (f i st) as [r| |] eqn:Hcall; simpl; [apply IH | | done].
  by apply Hf in Hcall.
Qed.

Lemma dfs_no_KeyError fuel modules module_name st :
  dfs fuel modules module_name st ≠ KeyError.
Proof.
  revert module_name st.
  induction fuel as [|fuel IH]; intros module_name st; [done|].
  rewrite dfs_unfold.
  destruct (dict_get module_name (chain_lengths st)) as [d0|]; [done|].
  destruct (dict_mem module_name modules) eqn:Hknown; simpl; [|done].
  case_bool_decide as Hpath; [done|].
  unfold dict_item. unfold dict_mem in Hknown.
  destruct (dict_get module_name modules) as [module|]; [|done]. simpl.
  destruct (dfs_imports modules (dfs fuel modules) (imports module) 0%Z _)
    as [[md st1]| |] eqn:Hloop; simpl; [| |done].
  - apply (dfs_imports_grows modules _ (dfs_dfs_post fuel modules)) in Hloop
      as [[Hp1 _] _]. simpl in Hp1.
    unfold set_remove. by rewrite bool_decide_eq_true_2 by (rewrite Hp1; set_solver).
  - by apply dfs_imports_no_KeyError in Hloop.
Qed.

Lemma chains_loop_no_KeyError fuel modules names lengths :
  chains_loop fuel modules names lengths ≠ KeyError.
Proof.
  revert lengths. induction names as [|n names IH]; intros lengths; simpl; [done|].
  destruct (dict_mem n lengths); [apply IH|].
  destruct (dfs fuel modules n _) as [r| |] eqn:Hcall; simpl; [apply IH | | done].
  by apply dfs_no_KeyError in Hcall.
Qed.

(** A run that returns, whatever room the stack had, returns what the run
    on a stack with room for it returns. *)
Lemma calculate_dependency_chains_within_agrees frames modules lengths :
  calculate_dependency_chains_within frames modules = Ret lengths →
  calculate_dependency_chains modules = Ret lengths.
Proof.
  unfold calculate_dependency_chains_within. intros Hrun.
  destruct (le_lt_dec frames (S (length modules))) as [Hle|Hlt].
  - by apply (chains_loop_more frames).
  - rewrite <- (calculate_dependency_chains_budget frames) by lia. done.
Qed.

Lemma calculate_dependency_chains_within_room frames modules :
  (length modules < frames)%nat →
  calculate_dependency_chains_within frames modules
  = calculate_dependency_chains modules.
Proof. apply calculate_dependency_chains_budget. Qed.

(** C8, as amended.  On every table of modules, cyclic or not, and whatever
    room the call stack has, the depth computation ends: it raises
    [RecursionError], the recursion being deeper than the stack allows, or
    it returns, and then with a depth for every known module, the same
    depths as on a stack with room for the recursion.  It returns whenever
    the stack has room for more nested calls than there are modules. *)
Theorem calculate_dependency_chains_within_limit frames modules :
  (calculate_dependency_chains_within frames modules = RecursionError
   ∨ ∃ lengths,
       calculate_dependency_chains_within frames modules = Ret lengths
       ∧ calculate_dependency_chains modules = Ret lengths
       ∧ ∀ k, dict_mem k modules = true → ∃ d, dict_get k lengths = Some d)
  ∧ ((length modules < frames)%nat →
     ∃ lengths, calculate_dependency_chains_within frames modules = Ret lengths).
Proof.
  destruct (calculate_dependency_chains_returns modules)
    as (lengths0 & Hrun0 & _ & Hkeys & _).
  split.
  - destruct (calculate_dependency_chains_within frames modules)
      as [lengths| |] eqn:Hrun; [|by apply chains_loop_no_KeyError in Hrun|by left].
    right. exists lengths.
    pose proof (calculate_dependency_chains_within_agrees _ _ _ Hrun) as Hsame.
    split_and!; [done..|].
    assert (lengths = lengths0) as -> by congruence.
    intros k Hk%Hkeys%dict_mem_keys.
    unfold dict_mem in Hk. destruct (dict_get k lengths0) as [d|]; [eauto | done].
  - intros Hroom. exists lengths0.
    by rewrite calculate_dependency_chains_within_room.
Qed.

(** C8, as stated, fails: with room for a thousand nested calls, the chain
    of 1001 modules discovered from its head on gets no depths, the
    computation raising [RecursionError]. *)
Lemma deep_chain_raises_RecursionError :
  length (deep_chain 1000) = 1001%nat
  ∧ calculate_dependency_chains_within 1000 (deep_chain 1000) = RecursionError
  ∧ ¬ ∃ lengths,
        calculate_dependency_chains_within 1000 (deep_chain 1000) = Ret lengths.
Proof.
  assert (calculate_dependency_chains_within 1000 (deep_chain 1000)
          = RecursionError) as Hrun by (vm_compute; reflexivity).
  split_and!; [vm_compute; reflexivity | exact Hrun |].
  intros [lengths Hret]. rewrite Hrun in Hret. discriminate Hret.
Qed.

(** ** Depths on an acyclic graph *)

Lemma dfs_imports_resolvable modules f imps acc st :
  dfs_imports modules f imps acc st
  = dfs_imports modules f (List.filter (λ i, dict_mem i modules) imps) acc st.
Proof.
  revert acc st. induction imps as [|i imps IH]; intros acc st; simpl; [done|].
  destruct (dict_mem i modules) eqn:Hi; simpl; [|done].
  rewrite Hi. destruct (f i st) as [[d st1]| |]; simpl; [apply IH | done..].
Qed.

Lemma depth_of_app_l lengths ext i :
  dict_mem i lengths = true → depth_of (lengths ++ ext) i = depth_of lengths i.
Proof.
  unfold depth_of, dict_mem. rewrite dict_get_app.
  by destruct (dict_get i lengths).
Qed.

Lemma max_over_app_l lengths ext imps acc :
  (∀ i, i ∈ imps → dict_mem i lengths = true) →
  max_over (lengths ++ ext) imps acc = max_over lengths imps acc.
Proof.
  unfold max_over. revert acc.
  induction imps as [|i imps IH]; intros acc Hin; simpl; [done|].
  rewrite depth_of_app_l by (apply Hin, list_elem_of_here).
  apply IH. intros j Hj. by apply Hin, list_elem_of_further.
Qed.

Lemma settled_nil modules : settled modules [].
Proof. intros k d H. done. Qed.

Lemma settled_app modules lengths k d m :
  settled modules lengths →
  dict_get k lengths = None →
  dict_get k modules = Some m →
  (∀ i, i ∈ resolvable modules m → dict_mem i lengths = true) →
  d = max_over lengths (resolvable modules m) 0 →
  settled modules (lengths ++ [(k, d)]).
Proof.
  intros Hs Hfresh Hm Hin Hd k' d'. rewrite dict_get_app.
  destruct (dict_get k' lengths) as [d0|] eqn:Hk'.
  - intros [= <-]. destruct (Hs _ _ Hk') as (m' & Hm' & Hin' & Hd').
    exists m'. split_and!; [done | |].
    + intros i Hi. by apply dict_mem_app_l, Hin'.
    + by rewrite max_over_app_l.
  - simpl. destruct (String.eqb_spec k' k) as [->|]; [|done].
    intros [= <-]. exists m. split_and!; [done | |].
    + intros i Hi. by apply dict_mem_app_l, Hin.
    + by rewrite max_over_app_l.
Qed.

Section Acyclic.
Variable modules : list (string * AgdaModule).
Hypothesis Hacyclic : acyclic modules.

Lemma dfs_imports_settled f :
  dfs_settles modules f →
  (∀ name st d st', f name st = Ret (d, st') → dfs_post modules name st d st') →
  ∀ imps acc st acc' st',
    (∀ i, i ∈ imps → dict_mem i modules = true) →
    (∀ i q, i ∈ imps → q ∈ path st → tc (edge modules) q i) →
    settled modules (chain_lengths st) →
    dfs_imports modules f imps acc st = Ret (acc', st') →
    settled modules (chain_lengths st') ∧
    (∀ i, i ∈ imps → dict_mem i (chain_lengths st') = true) ∧
    acc' = max_over (chain_lengths st') imps acc.
Proof.
  intros Hf Hpost imps.
  induction imps as [|i imps IH]; intros acc st acc' st' Hknown Hreach Hs; simpl.
  - intros [= -> ->]. split_and!; [done | by intros i ?%elem_of_nil | done].
  - rewrite (Hknown i) by apply list_elem_of_here.
    intros ([d st1] & Hcall & Hrest)%bind_Ret_inv. simpl in Hrest.
    pose proof (Hpost _ _ _ _ Hcall) as [Hg1 Hrec].
    assert (i ∉ path st) as Hoff.
    { intros Hon. apply (Hacyclic i), Hreach; [apply list_elem_of_here | done]. }
    specialize (Hrec (Hknown i (list_elem_of_here _ _)) Hoff).
    apply Hf in Hcall; [|by apply Hknown, list_elem_of_here| |done].
    2:{ intros q Hq. apply Hreach; [apply list_elem_of_here | done]. }
    pose proof (dfs_imports_grows modules f Hpost _ _ _ _ _ Hrest) as [Hg2 _].
    apply IH in Hrest as (Hs' & Hin' & Hacc); [| |
      |done].
    2:{ intros j Hj. by apply Hknown, list_elem_of_further. }
    2:{ intros j q Hj Hq. apply Hreach; [by apply list_elem_of_further|].
        destruct Hg1 as [Hp _]. by rewrite <- Hp. }
    pose proof (grows_get _ _ _ _ _ Hg2 Hrec) as Hrec'.
    split_and!; [done | |].
    + intros j [->|Hj]%elem_of_cons; [|by apply Hin'].
      unfold dict_mem. by rewrite Hrec'.
    + rewrite Hacc. unfold max_over. simpl. unfold depth_of at 3.
      by rewrite Hrec'.
Qed.

Lemma dfs_dfs_settles fuel : dfs_settles modules (dfs fuel modules).
Proof.
  induction fuel as [|fuel IH]; intros module_name st d st' Hknown Hreach Hs;
    [done|].
  rewrite dfs_unfold.
  destruct (dict_get module_name (chain_lengths st)) as [d0|] eqn:Hget.
  { by intros [= -> ->]. }
  rewrite Hknown. simpl. case_bool_decide as Hpath.
  { by intros [= <- <-]. }
  intros (module & Hmodule & H)%bind_Ret_inv.
  apply bind_Ret_inv in H as ([md st1] & Hloop & H). simpl in H.
  apply bind_Ret_inv in H as (path' & Hremove & [= <- <-]). simpl.
  unfold dict_item in Hmodule.
  destruct (dict_get module_name modules) as [module'|] eqn:Hm; [|done].
  injection Hmodule as ->.
  pose proof (dfs_imports_grows modules _ (dfs_dfs_post fuel modules) _ _ _ _ _ Hloop)
    as [[Hp1 (ext & Hc1 & Hnd1 & He1)] _].
  simpl in Hp1, Hc1, He1.
  rewrite dfs_imports_resolvable in Hloop.
  apply (dfs_imports_settled _ IH (dfs_dfs_post fuel modules)) in Hloop
    as (Hs1 & Hin1 & Hmd); [| | |done].
  2:{ intros i Hi. unfold resolvable in Hi.
      by apply list_elem_of_In, List.filter_In in Hi as [_ ?]. }
  2:{ intros i q Hi Hq. simpl in Hq.
      assert (edge modules module_name i) as Hedge by (by exists module).
      apply elem_of_union in Hq as [Hq| ->%elem_of_singleton].
      - eapply tc_r; [by apply Hreach | done].
      - by apply tc_once. }
  assert (dict_get module_name (chain_lengths st1) = None) as Hfresh.
  { rewrite Hc1, dict_get_app, Hget. apply dict_get_None.
    intros [v Hin]%elem_of_dict_keys.
    destruct (He1 _ _ Hin) as (_ & Hnot & _). set_solver. }
  rewrite dict_set_fresh by done.
  by apply settled_app with (m := module).
Qed.

Lemma chains_loop_settled fuel names lengths lengths' :
  (∀ k, k ∈ names → dict_mem k modules = true) →
  settled modules lengths →
  chains_loop fuel modules names lengths = Ret lengths' →
  settled modules lengths'.
Proof.
  revert lengths. induction names as [|n names IH]; intros lengths Hknown Hs; simpl.
  - by intros [= <-].
  - assert (∀ k, k ∈ names → dict_mem k modules = true) as Hknown'.
    { intros k Hk. by apply Hknown, list_elem_of_further. }
    destruct (dict_mem n lengths); [by apply IH|].
    intros ([d st1] & Hcall & Hrest)%bind_Ret_inv. simpl in Hrest.
    apply dfs_dfs_settles in Hcall; [by eapply IH | | | done].
    + apply Hknown, list_elem_of_here.
    + intros q Hq. simpl in Hq. set_solver.
Qed.

Lemma calculate_dependency_chains_settled lengths :
  calculate_dependency_chains modules = Ret lengths → settled modules lengths.
Proof.
  apply chains_loop_settled; [|apply settled_nil].
  intros k Hk. by apply dict_mem_keys.
Qed.

End Acyclic.

(** The running maximum, as one plus the maximum of the depths. *)
Lemma fold_max_succ {A} (D : A → Z) l v :
  fold_left (λ acc i, Z.max acc (D i + 1)) l (v + 1)%Z
  = (1 + fold_left Z.max (map D l) v)%Z.
Proof.
  revert v. induction l as [|x l IH]; intros v; simpl; [lia|].
  rewrite Z.add_max_distr_r. apply IH.
Qed.

Lemma max_over_max_or_zero lengths imps :
  (∀ i, (0 ≤ depth_of lengths i)%Z) →
  max_over lengths imps 0
  = match imps with
    | [] => 0%Z
    | _ => (1 + max_or_zero (map (depth_of lengths) imps))%Z
    end.
Proof.
  intros Hpos. destruct imps as [|x imps]; [done|]. unfold max_over. simpl.
  rewrite Z.max_r by (specialize (Hpos x); lia). apply fold_max_succ.
Qed.

Lemma fold_max_spec l v :
  (fold_left Z.max l v = v ∨ fold_left Z.max l v ∈ l) ∧
  (v ≤ fold_left Z.max l v)%Z ∧ ∀ x, x ∈ l → (x ≤ fold_left Z.max l v)%Z.
Proof.
  revert v. induction l as [|y l IH]; intros v; simpl.
  - split_and!; [by left | lia | by intros x ?%elem_of_nil].
  - destruct (IH (Z.max v y)) as ([Heq|Hin] & Hge & Hall). split_and!.
    + rewrite Heq. destruct (Z.max_spec v y) as [[_ ->]|[_ ->]];
        [right; apply list_elem_of_here | by left].
    + lia.
    + intros x [->|Hx]%elem_of_cons; [lia | by apply Hall].
    + split_and!; [right; by apply list_elem_of_further | lia |].
      intros x [->|Hx]%elem_of_cons; [lia | by apply Hall].
Qed.

(** [max(values)] is the greatest of the values. *)
Lemma max_or_zero_greatest values M :
  M ∈ values → (∀ x, x ∈ values → (x ≤ M)%Z) → max_or_zero values = M.
Proof.
  destruct values as [|v values]; [by intros ?%elem_of_nil|]. simpl.
  intros HM Hall. destruct (fold_max_spec values v) as ([Heq|Hin] & Hge & Hle).
  - rewrite Heq. apply Z.le_antisymm; [apply Hall, list_elem_of_here|].
    rewrite <- Heq. apply elem_of_cons in HM as [->|HM]; [lia | by apply Hle].
  - apply Z.le_antisymm; [by apply Hall, list_elem_of_further|].
    apply elem_of_cons in HM as [->|HM]; [lia | by apply Hle].
Qed.

Lemma acyclic_ranked modules (rank : string → nat) :
  (∀ a b, edge modules a b → (rank b < rank a)%nat) → acyclic modules.
Proof.
  intros Hrank.
  assert (∀ a b, tc (edge modules) a b → (rank b < rank a)%nat) as Htc.
  { intros a b H. induction H as [a b H|a b c H _ IH].
    - by apply Hrank.
    - apply Hrank in H. lia. }
  intros a Ha%Htc. lia.
Qed.

Lemma chain_modules_acyclic : acyclic chain_modules.
Proof.
  apply (acyclic_ranked _
    (λ s, if String.eqb s "A" then 3 else if String.eqb s "B" then 2
          else if String.eqb s "C" then 1 else 0)%nat).
  intros a b (m & Hm & Hb). unfold chain_modules in Hm. simpl in Hm.
  repeat match type of Hm with
         | context [String.eqb a ?s] =>
             destruct (String.eqb_spec a s) as [->|?]
         end;
    try discriminate Hm; injection Hm as <-; vm_compute in Hb;
    first [ apply list_elem_of_singleton in Hb as ->; vm_compute; lia
          | by apply elem_of_nil in Hb ].
Qed.

(** C5.  On an acyclic graph the depth computation returns, and the depth of
    every module is 0 when none of its imports is a known module and else
    one more than the greatest depth among those that are.  So, along a
    chain of four modules each importing the next, the depths are 3, 2, 1
    and 0; and a module whose known imports have depths 0, 2 and 5 has
    depth 6. *)
Theorem acyclic_depths modules :
  acyclic modules →
  ∃ lengths,
    calculate_dependency_chains modules = Ret lengths
    ∧ (∀ k m, dict_get k modules = Some m →
         dict_get k lengths
         = Some match resolvable modules m with
                | [] => 0%Z
                | imps => (1 + max_or_zero (map (depth_of lengths) imps))%Z
                end)
    ∧ (∀ a b c d ma mb mc md,
         dict_get a modules = Some ma → dict_get b modules = Some mb →
         dict_get c modules = Some mc → dict_get d modules = Some md →
         resolvable modules ma = [b] → resolvable modules mb = [c] →
         resolvable modules mc = [d] → resolvable modules md = [] →
         dict_get d lengths = Some 0%Z ∧ dict_get c lengths = Some 1%Z ∧
         dict_get b lengths = Some 2%Z ∧ dict_get a lengths = Some 3%Z)
    ∧ (∀ k m,
         dict_get k modules = Some m →
         map (depth_of lengths) (resolvable modules m) ≡ₚ [0; 2; 5]%Z →
         dict_get k lengths = Some 6%Z).
Proof.
  intros Hacyclic.
  destruct (calculate_dependency_chains_returns modules)
    as (lengths & Hrun & _ & Hkeys & Hpos).
  pose proof (calculate_dependency_chains_settled modules Hacyclic lengths Hrun)
    as Hsettled.
  assert (∀ i, (0 ≤ depth_of lengths i)%Z) as Hdepth.
  { intros i. unfold depth_of. destruct (dict_get i lengths) as [v|] eqn:Hi; [|done].
    simpl. by apply dict_get_elem_of, Hpos in Hi. }
  assert (∀ k m, dict_get k modules = Some m →
            dict_get k lengths
            = Some match resolvable modules m with
                   | [] => 0%Z
                   | imps => (1 + max_or_zero (map (depth_of lengths) imps))%Z
                   end) as Hrec.
  { intros k m Hm.
    assert (dict_mem k modules = true) as Hk by (unfold dict_mem; by rewrite Hm).
    apply Hkeys, dict_mem_keys in Hk. unfold dict_mem in Hk.
    destruct (dict_get k lengths) as [d|] eqn:Hd; [|done].
    destruct (Hsettled k d Hd) as (m' & Hm' & _ & ->).
    assert (m' = m) as -> by congruence.
    f_equal. rewrite max_over_max_or_zero by done.
    by destruct (resolvable modules m). }
  exists lengths. split_and!; [done.. | |].
  - intros a b c d ma mb mc md Ha Hb Hc Hd Ia Ib Ic Id.
    apply Hrec in Ha, Hb, Hc, Hd. rewrite Ia in Ha. rewrite Ib in Hb.
    rewrite Ic in Hc. rewrite Id in Hd. simpl in Ha, Hb, Hc.
    unfold depth_of in Ha, Hb, Hc.
    rewrite Hd in Hc. simpl in Hc. rewrite Hc in Hb. simpl in Hb.
    rewrite Hb in Ha. simpl in Ha. done.
  - intros k m Hm Hperm. rewrite (Hrec k m Hm).
    destruct (resolvable modules m) as [|i imps] eqn:Himps.
    { by apply Permutation_nil_l in Hperm. }
    rewrite (max_or_zero_greatest _ 5%Z); [done | |].
    + rewrite Hperm. set_solver.
    + intros x Hx. rewrite Hperm in Hx. set_unfold in Hx. lia.
Qed.

Lemma acyclic_depths_witness :
  acyclic chain_modules
  ∧ ∃ lengths,
      calculate_dependency_chains chain_modules = Ret lengths
      ∧ dict_get "D" lengths = Some 0%Z ∧ dict_get "C" lengths = Some 1%Z
      ∧ dict_get "B" lengths = Some 2%Z ∧ dict_get "A" lengths = Some 3%Z.
Proof.
  split; [exact chain_modules_acyclic|].
  destruct (acyclic_depths chain_modules chain_modules_acyclic)
    as (lengths & Hrun & _ & Hchain & _).
  exists lengths. split; [done|].
  apply (Hchain "A" "B" "C" "D"
           (snd (module_of "A" ["B"])) (snd (module_of "B" ["C"]))
           (snd (module_of "C" ["D"])) (snd (module_of "D" [])));
    vm_compute; reflexivity.
Defined.

Example chain_modules_depths :
  calculate_dependency_chains chain_modules
  = Ret [("D", 0%Z); ("C", 1%Z); ("B", 2%Z); ("A", 3%Z)].
Proof. vm_compute. reflexivity. Qed.

Example fan_modules_depths :
  calculate_dependency_chains fan_modules
  = Ret [("E0", 0%Z); ("E1", 1%Z); ("E2", 2%Z); ("E3", 3%Z); ("E4", 4%Z);
         ("E5", 5%Z); ("M", 6%Z)].
Proof. vm_compute. reflexivity. Qed.

(** ** Two modules importing each other *)

#[local] Opaque dfs.

(** C1, as amended.  For a table of exactly two modules, each with the other
    as its only import that resolves, the depth computation returns and
    records depth 1 for the module discovered second and depth 2 for the one
    discovered first: the back edge that closes the cycle counts as depth 0,
    and each module still adds one for its own import. *)
Theorem two_cycle_depths a b ma mb :
  a ≠ b →
  resolvable [(a, ma); (b, mb)] ma = [b] →
  resolvable [(a, ma); (b, mb)] mb = [a] →
  calculate_dependency_chains [(a, ma); (b, mb)] = Ret [(b, 1%Z); (a, 2%Z)].
Proof.
  intros Hab Ha Hb. unfold calculate_dependency_chains.
  remember [(a, ma); (b, mb)] as modules eqn:Hmodules.
  assert (String.eqb b a = false) as Hba by (apply String.eqb_neq; congruence).
  assert (String.eqb a b = false) as Hab' by (by apply String.eqb_neq).
  assert (dict_get a modules = Some ma) as Hga.
  { subst modules. simpl. by rewrite String.eqb_refl. }
  assert (dict_get b modules = Some mb) as Hgb.
  { subst modules. simpl. by rewrite Hba, String.eqb_refl. }
  assert (dict_mem a modules = true) as Hka by (unfold dict_mem; by rewrite Hga).
  assert (dict_mem b modules = true) as Hkb by (unfold dict_mem; by rewrite Hgb).
  assert (dfs 1 modules a
            {| chain_lengths := []; path := ∅ ∪ {[a]} ∪ {[b]} |}
          = Ret (0%Z, {| chain_lengths := []; path := ∅ ∪ {[a]} ∪ {[b]} |})) as H1.
  { rewrite dfs_unfold. simpl. rewrite Hka. simpl.
    by rewrite bool_decide_eq_true_2 by set_solver. }
  assert (dfs 2 modules b {| chain_lengths := []; path := ∅ ∪ {[a]} |}
          = Ret (1%Z, {| chain_lengths := [(b, 1%Z)];
                         path := (∅ ∪ {[a]} ∪ {[b]}) ∖ {[b]} |})) as H2.
  { rewrite dfs_unfold. simpl. rewrite Hkb. simpl.
    rewrite bool_decide_eq_false_2 by set_solver.
    unfold dict_item. rewrite Hgb. simpl.
    rewrite dfs_imports_resolvable. fold (resolvable modules mb). rewrite Hb.
    simpl. rewrite Hka, H1. simpl. unfold set_remove.
    by rewrite bool_decide_eq_true_2 by set_solver. }
  assert (dfs 3 modules a {| chain_lengths := []; path := ∅ |}
          = Ret (2%Z, {| chain_lengths := [(b, 1%Z); (a, 2%Z)];
                         path := ((∅ ∪ {[a]} ∪ {[b]}) ∖ {[b]}) ∖ {[a]} |})) as H3.
  { rewrite dfs_unfold. simpl. rewrite Hka. simpl.
    rewrite bool_decide_eq_false_2 by set_solver.
    unfold dict_item. rewrite Hga. simpl.
    rewrite dfs_imports_resolvable. fold (resolvable modules ma). rewrite Ha.
    simpl. rewrite Hkb, H2. simpl. unfold set_remove.
    rewrite bool_decide_eq_true_2 by set_solver. simpl. by rewrite Hab'. }
  subst modules. simpl length. simpl dict_keys. simpl chains_loop.
  unfold dict_mem at 1. simpl dict_get at 1. cbv iota.
  rewrite H3. simpl. unfold dict_mem. simpl. by rewrite String.eqb_refl.
Qed.

#[local] Transparent dfs.

Lemma two_cycle_depths_witness :
  "A" ≠ "B"
  ∧ resolvable two_cycle (snd (module_of "A" ["B"])) = ["B"]
  ∧ resolvable two_cycle (snd (module_of "B" ["A"])) = ["A"]
  ∧ calculate_dependency_chains two_cycle = Ret [("B", 1%Z); ("A", 2%Z)].
Proof.
  split_and!; [done | vm_compute; reflexivity | vm_compute; reflexivity |].
  apply (two_cycle_depths "A" "B"
           (snd (module_of "A" ["B"])) (snd (module_of "B" ["A"])));
    [done | vm_compute; reflexivity | vm_compute; reflexivity].
Defined.

(** C1, as stated, fails: on the two-module cycle the depths on record are
    2 and 1, not 0 and 0. *)
Lemma two_cycle_depths_not_zero :
  calculate_dependency_chains two_cycle = Ret [("B", 1%Z); ("A", 2%Z)]
  ∧ ¬ (∃ lengths,
         calculate_dependency_chains two_cycle = Ret lengths
         ∧ dict_get "A" lengths = Some 0%Z ∧ dict_get "B" lengths = Some 0%Z).
Proof.
  assert (calculate_dependency_chains two_cycle = Ret [("B", 1%Z); ("A", 2%Z)])
    as Hrun by (vm_compute; reflexivity).
  split; [done|]. intros (lengths & Hrun' & HA & _).
  rewrite Hrun in Hrun'. injection Hrun' as <-. vm_compute in HA. discriminate HA.
Qed.

(** ** Depth tiers *)

Lemma categorize_acc items sh me de :
  fold_left
    (λ acc (item : string * Z),
       let '(shallow, medium, deep) := acc in
       let depth := snd item in
       if (depth <=? 5)%Z then (shallow ++ [item], medium, deep)
       else if (depth <=? 15)%Z then (shallow, medium ++ [item], deep)
       else (shallow, medium, deep ++ [item]))
    items (sh, me, de)
  = (sh ++ List.filter is_shallow items,
     me ++ List.filter is_medium items,
     de ++ List.filter is_deep items).
Proof.
  revert sh me de. induction items as [|[k d] items IH]; intros sh me de; simpl.
  - by rewrite !app_nil_r.
  - unfold is_shallow, is_medium, is_deep. simpl.
    destruct (d <=? 5)%Z; simpl; [by rewrite IH, <- app_assoc|].
    destruct (d <=? 15)%Z; simpl; by rewrite IH, <- app_assoc.
Qed.

Lemma categorize_filter items :
  categorize items
  = (List.filter is_shallow items, List.filter is_medium items,
     List.filter is_deep items).
Proof. unfold categorize. by rewrite categorize_acc. Qed.

Lemma of_depth_filter (p : string * Z → bool) c l :
  (∀ e, snd e = c → p e = true) → of_depth c (List.filter p l) = of_depth c l.
Proof.
  intros Hp. unfold of_depth. induction l as [|e l IH]; simpl; [done|].
  destruct (Z.eqb_spec (snd e) c) as [He|Hne].
  - rewrite (Hp e He). simpl. destruct (Z.eqb_spec (snd e) c); [|done].
    by rewrite IH.
  - destruct (p e); simpl; [|done]. by destruct (Z.eqb_spec (snd e) c).
Qed.

Lemma tiers_Permutation (l : list (string * Z)) :
  List.filter is_shallow l ++ List.filter is_medium l ++ List.filter is_deep l ≡ₚ l.
Proof.
  induction l as [|[k d] l IH]; simpl; [done|].
  unfold is_shallow at 1, is_medium at 1, is_deep at 1. simpl.
  destruct (d <=? 5)%Z; simpl; [by rewrite IH|].
  destruct (d <=? 15)%Z; simpl.
  - by rewrite <- Permutation_middle, IH.
  - rewrite app_assoc, <- Permutation_middle, <- app_assoc. by rewrite IH.
Qed.

Lemma elem_of_List_filter {A} (p : A → bool) l x :
  x ∈ List.filter p l ↔ x ∈ l ∧ p x = true.
Proof. rewrite !list_elem_of_In. apply List.filter_In. Qed.

(** C4, as amended.  The depth tiers hold, between them, each known module
    once and nothing else, each with the depth computed for it: depths up
    to 5 in [shallow], 6 to 15 in [medium], 16 and more in [deep].  [shallow]
    and [medium] are in ascending order of depth and [deep] in descending
    order; entries of equal depth are not ordered by name, they keep the
    order [chain_lengths] has them in, the order in which the traversal
    settled them. *)
Theorem depth_tiers modules :
  ∃ pat,
    analyze_dependency_patterns modules = Ret pat
    ∧ calculate_dependency_chains modules = Ret (pat_chain_lengths pat)
    ∧ NoDup (map fst (shallow pat ++ medium pat ++ deep pat))
    ∧ (∀ k, k ∈ map fst (shallow pat ++ medium pat ++ deep pat)
            ↔ dict_mem k modules = true)
    ∧ (∀ k d, (k, d) ∈ shallow pat
              ↔ dict_get k (pat_chain_lengths pat) = Some d ∧ (0 ≤ d ≤ 5)%Z)
    ∧ (∀ k d, (k, d) ∈ medium pat
              ↔ dict_get k (pat_chain_lengths pat) = Some d ∧ (6 ≤ d ≤ 15)%Z)
    ∧ (∀ k d, (k, d) ∈ deep pat
              ↔ dict_get k (pat_chain_lengths pat) = Some d ∧ (16 ≤ d)%Z)
    ∧ Sorted (λ x y, (snd x ≤ snd y)%Z) (shallow pat)
    ∧ Sorted (λ x y, (snd x ≤ snd y)%Z) (medium pat)
    ∧ Sorted (λ x y, (snd y ≤ snd x)%Z) (deep pat)
    ∧ (∀ c, (c ≤ 5)%Z →
         of_depth c (shallow pat) = of_depth c (pat_chain_lengths pat))
    ∧ (∀ c, (6 ≤ c ≤ 15)%Z →
         of_depth c (medium pat) = of_depth c (pat_chain_lengths pat))
    ∧ (∀ c, (16 ≤ c)%Z →
         of_depth c (deep pat) = of_depth c (pat_chain_lengths pat)).
Proof.
  destruct (calculate_dependency_chains_returns modules)
    as (lengths & Hrun & Hnd & Hkeys & Hpos).
  unfold analyze_dependency_patterns. rewrite Hrun. simpl.
  rewrite categorize_filter. eexists. split; [done|]. simpl.
  assert (∀ k d, (k, d) ∈ lengths ↔ dict_get k lengths = Some d) as Hget.
  { intros k d. split; [by apply elem_of_dict_get | apply dict_get_elem_of]. }
  split_and!.
  - done.
  - rewrite !sorted_Permutation, tiers_Permutation. done.
  - intros k. rewrite !sorted_Permutation, tiers_Permutation. apply Hkeys.
  - intros k d. rewrite sorted_Permutation, elem_of_List_filter, Hget.
    unfold is_shallow. simpl. rewrite Z.leb_le. split.
    + intros [Hd ?]. split; [done|]. apply Hget, Hpos in Hd. lia.
    + intros [? ?]. split; [done | lia].
  - intros k d. rewrite sorted_Permutation, elem_of_List_filter, Hget.
    unfold is_medium. simpl.
    rewrite andb_true_iff, negb_true_iff, Z.leb_gt, Z.leb_le.
    split; (intros [? ?]; split; [done | lia]).
  - intros k d. rewrite sorted_Permutation, elem_of_List_filter, Hget.
    unfold is_deep. simpl.
    rewrite andb_true_iff, !negb_true_iff, !Z.leb_gt.
    split; (intros [? ?]; split; [done | lia]).
  - apply sorted_ascending.
  - apply sorted_ascending.
  - apply sorted_descending.
  - intros c Hc. unfold of_depth at 1. rewrite sorted_stable.
    apply of_depth_filter. intros e <-. unfold is_shallow. by apply Z.leb_le.
  - intros c Hc. unfold of_depth at 1. rewrite sorted_stable.
    apply of_depth_filter. intros e <-. unfold is_medium.
    rewrite andb_true_iff, negb_true_iff, Z.leb_gt, Z.leb_le. lia.
  - intros c Hc. unfold of_depth at 1. rewrite sorted_stable.
    apply of_depth_filter. intros e <-. unfold is_deep.
    rewrite andb_true_iff, !negb_true_iff, !Z.leb_gt. lia.
Qed.

(** C4, as stated, fails on the order within a depth: three modules without
    imports, discovered as B, A, C, all have depth 0 and come out of the
    shallow tier as B, A, C, which is not in order of name, ascending or
    descending. *)
Lemma depth_tiers_not_by_name :
  ∃ pat,
    analyze_dependency_patterns flat_modules = Ret pat
    ∧ shallow pat = [("B", 0%Z); ("A", 0%Z); ("C", 0%Z)]
    ∧ ¬ Sorted (by_depth_then_name false) (shallow pat)
    ∧ ¬ Sorted (λ x y, by_depth_then_name false y x) (shallow pat).
Proof.
  eexists. split; [vm_compute; reflexivity|]. simpl.
  split_and!; [vm_compute; reflexivity | |].
  - intros H. apply Sorted_inv in H as [_ H]. apply HdRel_inv in H.
    destruct H as [H|[_ H]]; simpl in H; [lia | vm_compute in H; discriminate H].
  - intros H. apply Sorted_inv in H as [H _]. apply Sorted_inv in H as [_ H].
    apply HdRel_inv in H.
    destruct H as [H|[_ H]]; simpl in H; [lia | vm_compute in H; discriminate H].
Qed.

(** * Further properties of the code *)

(** ** The reverse index and the hub ranking *)

Lemma reverse_deps_add_nonempty imported module_name rd :
  (∀ j s, rd !! j = Some s → s ≠ (∅ : gset string)) →
  ∀ j s, reverse_deps_add imported module_name rd !! j = Some s → s ≠ ∅.
Proof.
  intros Hrd j s. unfold reverse_deps_add. rewrite lookup_insert.
  destruct (decide (imported = j)) as [->|]; [|apply Hrd].
  intros [= <-]. set_solver.
Qed.

Lemma build_reverse_deps_nonempty modules j s :
  build_reverse_deps modules !! j = Some s → s ≠ ∅.
Proof.
  unfold build_reverse_deps.
  assert (∀ j s, (∅ : gmap string (gset string)) !! j = Some s → s ≠ ∅) as Hempty.
  { intros j' s'. by rewrite lookup_empty. }
  revert j s. generalize dependent (∅ : gmap string (gset string)).
  induction modules as [|[k m] modules IH]; intros rd Hrd; simpl; [done|].
  apply IH. clear IH. simpl. revert rd Hrd.
  induction (imports m) as [|i imps IHi]; intros rd Hrd; simpl; [done|].
  by apply IHi, reverse_deps_add_nonempty.
Qed.

(** X1.  After the scan the reverse index is exact: [reverse_deps[j]] holds
    the names of the modules that import [j] and no other, and the index has
    an entry under [j] exactly when some module imports [j] (so no entry is
    an empty set). *)
Theorem reverse_deps_exact uni_space uni_word agda_files :
  let self := scan_modules uni_space uni_word agda_files in
  (∀ j k, k ∈ default ∅ (reverse_deps self !! j)
          ↔ ∃ m, dict_get k (modules self) = Some m ∧ j ∈ imports m)
  ∧ (∀ j, is_Some (reverse_deps self !! j)
          ↔ ∃ k m, dict_get k (modules self) = Some m ∧ j ∈ imports m).
Proof.
  intros self.
  destruct (scan_modules_scanned uni_space uni_word agda_files) as [Hnd _].
  assert (∀ j k, k ∈ default ∅ (reverse_deps self !! j)
                 ↔ ∃ m, dict_get k (modules self) = Some m ∧ j ∈ imports m) as Hexact.
  { intros j k. unfold self at 1. simpl. rewrite build_reverse_deps_spec.
    split; intros (m & Hm & Hj); exists m; split; try done.
    - by apply elem_of_dict_get.
    - by apply dict_get_elem_of. }
  split; [done|]. intros j. split.
  - intros [s Hs]. pose proof Hs as Hne%build_reverse_deps_nonempty.
    apply set_choose_L in Hne as [k Hk].
    destruct (proj1 (Hexact j k)) as (m & Hm & Hj); [|by exists k, m].
    by rewrite Hs.
  - intros (k & m & Hm & Hj).
    assert (k ∈ default ∅ (reverse_deps self !! j)) as Hk
      by (apply Hexact; by exists m).
    destruct (reverse_deps self !! j); [done|]. simpl in Hk. set_solver.
Qed.

Lemma size_importers (modules : list (string * AgdaModule)) (s : gset string) j :
  NoDup (dict_keys modules) →
  (∀ k, k ∈ s ↔ ∃ m, (k, m) ∈ modules ∧ j ∈ imports m) →
  size s
  = length (List.filter (λ item, bool_decide (j ∈ imports (snd item))) modules).
Proof.
  revert s. induction modules as [|[k0 m0] modules IH]; intros s Hnd Hs.
  - simpl. apply size_empty_iff, elem_of_equiv_empty.
    intros k Hk. apply Hs in Hk as (m & Hm & _). by apply elem_of_nil in Hm.
  - simpl in Hnd. apply NoDup_cons in Hnd as [Hk0 Hnd]. simpl.
    assert (∀ k, k ∈ s ∖ {[k0]} ↔ ∃ m, (k, m) ∈ modules ∧ j ∈ imports m) as Hrest.
    { intros k. rewrite elem_of_difference, Hs, elem_of_singleton. split.
      - intros [(m & [[= -> ->]|Hm]%elem_of_cons & Hj) Hne]; [done|]. by exists m.
      - intros (m & Hm & Hj). split.
        + exists m. split; [by apply list_elem_of_further | done].
        + intros ->. apply Hk0. apply list_elem_of_fmap. by exists (k0, m). }
    specialize (IH _ Hnd Hrest). case_bool_decide as Hj; simpl; rewrite <- IH.
    + assert (k0 ∈ s) as Hin.
      { apply Hs. exists m0. split; [apply list_elem_of_here | done]. }
      rewrite (union_difference_singleton_L k0 s Hin) at 1.
      rewrite size_union, size_singleton; [done | set_solver].
    + f_equal. apply set_eq. intros k. rewrite elem_of_difference, elem_of_singleton.
      split; [|tauto]. intros Hk. split; [done|]. intros ->.
      apply Hs in Hk as (m & [[= ->]|Hm]%elem_of_cons & Hj'); [done|].
      apply Hk0. apply list_elem_of_fmap. by exists (k0, m).
Qed.

(** X2.  After the scan, the dependent count that the hub ranking reports
    for a name is the number of scanned modules that import it. *)
Theorem dependent_count_importers uni_space uni_word agda_files name :
  let self := scan_modules uni_space uni_word agda_files in
  dependent_count self name
  = Z.of_nat
      (length (List.filter (λ item, bool_decide (name ∈ imports (snd item)))
                 (modules self))).
Proof.
  intros self. unfold dependent_count. f_equal.
  destruct (scan_modules_scanned uni_space uni_word agda_files) as [Hnd _].
  apply size_importers; [done|]. intros k. unfold self. simpl.
  apply build_reverse_deps_spec.
Qed.

(** X3.  For a limit [L ≥ 0] and a table of [n] modules, the hub ranking is
    the first [min L n] pairs (name, dependent count) of the table put in
    descending order of count, pairs of equal count staying in discovery
    order. *)
Theorem find_hub_modules_ranked self limit :
  (0 ≤ limit)%Z →
  let items := map (λ name, (name, dependent_count self name))
                 (dict_keys (modules self)) in
  let n := Z.of_nat (length (modules self)) in
  Z.of_nat (length (find_hub_modules self limit)) = Z.min limit n
  ∧ Sorted (λ x y, (snd y ≤ snd x)%Z) (find_hub_modules self limit)
  ∧ ∃ ranked,
      ranked ≡ₚ items
      ∧ Sorted (λ x y, (snd y ≤ snd x)%Z) ranked
      ∧ (∀ c, List.filter (λ e, Z.eqb (snd e) c) ranked
              = List.filter (λ e, Z.eqb (snd e) c) items)
      ∧ find_hub_modules self limit = take (Z.to_nat (Z.min limit n)) ranked.
Proof.
  intros Hlimit items n. unfold find_hub_modules. fold items.
  rewrite slice_to_nonneg by done.
  assert (length (sorted snd true items) = length (modules self)) as Hlen.
  { rewrite sorted_Permutation. unfold items, dict_keys. by rewrite !length_map. }
  split_and!.
  - rewrite length_take, Hlen. unfold n. lia.
  - apply Sorted_take, sorted_descending.
  - exists (sorted snd true items). split_and!.
    + apply sorted_Permutation.
    + apply sorted_descending.
    + intros c. apply sorted_stable.
    + destruct (Z.le_gt_cases limit n) as [Hle|Hgt].
      * by rewrite Z.min_l.
      * rewrite Z.min_r by lia. rewrite !take_ge; [done | unfold n in *; lia..].
Qed.

Lemma find_hub_modules_ranked_witness :
  (0 ≤ 1)%Z
  ∧ find_hub_modules sample_analyzer 1 = [("Data.Bool", 1%Z)]
  ∧ Z.of_nat (length (find_hub_modules sample_analyzer 1)) = 1%Z.
Proof.
  split_and!; [lia | vm_compute; reflexivity |].
  etrans; [exact (proj1 (find_hub_modules_ranked sample_analyzer 1 ltac:(lia)))|].
  vm_compute. reflexivity.
Defined.

Lemma slice_to_negative {A} limit (l : list A) :
  (limit < 0)%Z →
  slice_to limit l
    = take (Z.to_nat (Z.of_nat (length l) + limit))
        (slice_to (Z.of_nat (length l)) l)
  ∧ Z.of_nat (length (slice_to limit l)) = Z.max 0 (Z.of_nat (length l) + limit).
Proof.
  intros H. unfold slice_to. rewrite (proj2 (Z.ltb_lt _ _) H).
  rewrite (proj2 (Z.ltb_ge _ _)) by lia.
  rewrite Nat2Z.id, firstn_all, length_take.
  replace (length l - Z.to_nat (- limit))%nat
    with (Z.to_nat (Z.of_nat (length l) + limit)) by lia.
  split; [done | lia].
Qed.

(** X4.  With a negative limit both rankings drop entries from the end of
    the full ranking instead of keeping a prefix of that length: for
    [L < 0] and [n] modules they return the first [max 0 (n + L)] entries. *)
Theorem rankings_negative_limit self limit :
  (limit < 0)%Z →
  let n := Z.of_nat (length (modules self)) in
  find_hub_modules self limit
    = take (Z.to_nat (n + limit)) (find_hub_modules self n)
  ∧ find_foundational_modules self limit
    = take (Z.to_nat (n + limit)) (find_foundational_modules self n)
  ∧ Z.of_nat (length (find_hub_modules self limit)) = Z.max 0 (n + limit)
  ∧ Z.of_nat (length (find_foundational_modules self limit)) = Z.max 0 (n + limit).
Proof.
  intros Hlimit n. unfold find_hub_modules, find_foundational_modules.
  set (hubs := sorted snd true _). set (foundational := sorted snd false _).
  assert (length hubs = length (modules self)) as Hh.
  { unfold hubs. rewrite sorted_Permutation. unfold dict_keys.
    by rewrite !length_map. }
  assert (length foundational = length (modules self)) as Hf.
  { unfold foundational. rewrite sorted_Permutation. by rewrite length_map. }
  destruct (slice_to_negative limit hubs Hlimit) as [H1 H2].
  destruct (slice_to_negative limit foundational Hlimit) as [H3 H4].
  rewrite Hh in H1, H2. rewrite Hf in H3, H4. done.
Qed.

Lemma rankings_negative_limit_witness :
  (-1 < 0)%Z
  ∧ find_hub_modules sample_analyzer (-1) = [("Data.Bool", 1%Z)]
  ∧ find_hub_modules sample_analyzer 2 = [("Data.Bool", 1%Z); ("Data.Nat", 0%Z)].
Proof.
  split_and!; [lia | | vm_compute; reflexivity].
  etrans; [exact (proj1 (rankings_negative_limit sample_analyzer (-1) ltac:(lia)))|].
  vm_compute. reflexivity.
Defined.

(** ** Module names from file paths *)

Lemma substring_app_suffix (s e : string) :
  String.substring (String.length s) (String.length e) (s ++ e)%string = e.
Proof.
  induction s as [|c s IH]; [apply substring_all|].
  rewrite string_app_cons. simpl. apply IH.
Qed.

Lemma substring_split n m (t : string) :
  (n + m = String.length t)%nat →
  t = (String.substring 0 n t ++ String.substring n m t)%string.
Proof.
  revert t. induction n as [|n IH]; intros t Hlen; simpl.
  - simpl in Hlen. subst m. destruct t; simpl; [done|]. by rewrite substring_all.
  - destruct t as [|c t]; simpl in *; [lia|]. rewrite string_app_cons.
    f_equal. apply IH. lia.
Qed.

Lemma endswith_app (s e : string) : endswith e (s ++ e)%string = true.
Proof.
  unfold endswith. rewrite string_length_app.
  replace (String.length s + String.length e - String.length e)%nat
    with (String.length s) by lia.
  rewrite substring_app_suffix, String.eqb_refl.
  rewrite andb_true_r. apply Nat.leb_le. lia.
Qed.

Lemma endswith_inv (e t : string) :
  endswith e t = true → ∃ pre, t = (pre ++ e)%string.
Proof.
  unfold endswith. intros [Hlen Heq%String.eqb_eq]%andb_prop.
  apply Nat.leb_le in Hlen.
  exists (String.substring 0 (String.length t - String.length e) t).
  etrans; [apply (substring_split (String.length t - String.length e)
                     (String.length e)); lia|].
  by rewrite Heq.
Qed.

Lemma drop_end_app (s e : string) : drop_end (String.length e) (s ++ e)%string = s.
Proof.
  unfold drop_end. rewrite string_length_app.
  replace (String.length s + String.length e - String.length e)%nat
    with (String.length s) by lia.
  apply substring_app_prefix.
Qed.

Lemma string_snoc_inj (s1 s2 : string) (a b : ascii) :
  (s1 ++ String a EmptyString = s2 ++ String b EmptyString)%string → a = b.
Proof.
  revert s2. induction s1 as [|c s1 IH]; intros [|d s2] H;
    rewrite ?string_app_cons in H; change (EmptyString ++ ?s)%string with s in H.
  - by injection H.
  - injection H as _ H. destruct s2; rewrite ?string_app_cons in H; discriminate H.
  - injection H as _ H. destruct s1; rewrite ?string_app_cons in H; discriminate H.
  - injection H as _ H. by apply IH in H.
Qed.

Lemma agda_not_literate (s : string) : endswith ".lagda.md" (s ++ ".agda")%string = false.
Proof.
  destruct (endswith _ _) eqn:He; [|done].
  apply endswith_inv in He as [pre He].
  change ".agda" with (".agd" ++ "a")%string in He.
  change ".lagda.md" with (".lagda.m" ++ "d")%string in He.
  rewrite <- !string_app_assoc in He. by apply string_snoc_inj in He.
Qed.

Lemma replace_char_inverse (a b : ascii) (s : string) :
  string_forall (λ c, negb (Ascii.eqb c b)) s = true →
  replace_char b a (replace_char a b s) = s.
Proof.
  induction s as [|c s IH]; simpl; [done|].
  intros [Hc Hs]%andb_prop. rewrite IH by done. f_equal.
  destruct (Ascii.eqb_spec c a) as [->|Hne].
  - by rewrite Ascii.eqb_refl.
  - by apply negb_true_iff in Hc as ->.
Qed.

Lemma replace_char_gone (old new : ascii) (s : string) :
  old ≠ new →
  string_forall (λ c, negb (Ascii.eqb c old)) (replace_char old new s) = true.
Proof.
  intros Hne. induction s as [|c s IH]; simpl; [done|]. rewrite IH, andb_true_r.
  destruct (Ascii.eqb_spec c old) as [->|Hc]; apply negb_true_iff.
  - apply Ascii.eqb_neq. congruence.
  - by apply Ascii.eqb_neq.
Qed.

(** X5.  A module name without a path separator in it is read back from its
    file path: with the dots turned into separators and either extension
    added, [_filepath_to_module_name] returns the name. *)
Theorem filepath_to_module_name_inverse os_sep name :
  string_forall (λ c, negb (Ascii.eqb c os_sep)) name = true →
  filepath_to_module_name os_sep (Some (module_path os_sep name ".agda")) = name
  ∧ filepath_to_module_name os_sep (Some (module_path os_sep name ".lagda.md"))
    = name.
Proof.
  intros Hname. unfold filepath_to_module_name, module_path. split.
  - rewrite agda_not_literate, endswith_app.
    rewrite (drop_end_app _ ".agda"). by apply replace_char_inverse.
  - rewrite endswith_app.
    rewrite (drop_end_app _ ".lagda.md"). by apply replace_char_inverse.
Qed.

Lemma filepath_to_module_name_inverse_witness :
  string_forall (λ c, negb (Ascii.eqb c "/"%char)) "Cat.Functor.Base" = true
  ∧ module_path "/"%char "Cat.Functor.Base" ".lagda.md" = "Cat/Functor/Base.lagda.md"
  ∧ filepath_to_module_name "/"%char (Some "Cat/Functor/Base.lagda.md")
    = "Cat.Functor.Base".
Proof.
  split_and!; [vm_compute; reflexivity | vm_compute; reflexivity |].
  apply (proj2 (filepath_to_module_name_inverse "/"%char "Cat.Functor.Base"
                  ltac:(vm_compute; reflexivity))).
Defined.

(** X6.  The name [_filepath_to_module_name] returns never holds a path
    separator (when the separator is not the dot itself); and a path outside
    the source root gives the empty name, for which the scan adds no
    module. *)
Theorem filepath_to_module_name_no_separator os_sep :
  os_sep ≠ "."%char →
  (∀ rel_path,
     string_forall (λ c, negb (Ascii.eqb c os_sep))
       (filepath_to_module_name os_sep rel_path) = true)
  ∧ (∀ uni_space uni_word modules path content,
       scan_file uni_space uni_word modules
         {| file_module_name := filepath_to_module_name os_sep None;
            file_path := path; file_content := content |}
       = modules).
Proof.
  intros Hsep. split; [|done].
  intros [name|]; simpl; [|done]. by apply replace_char_gone.
Qed.

Lemma filepath_to_module_name_no_separator_witness :
  "/"%char ≠ "."%char
  ∧ filepath_to_module_name "/"%char (Some "Data/Nat/Base.agda") = "Data.Nat.Base".
Proof.
  split; [done|].
  pose proof (proj1 (filepath_to_module_name_no_separator "/"%char ltac:(done))
                (Some "Data/Nat/Base.agda")) as Hno.
  destruct (filepath_to_module_name "/"%char (Some "Data/Nat/Base.agda")) eqn:He;
    vm_compute in He; [discriminate He|]. by rewrite He.
Defined.

(** ** The extractor, line by line *)

Section ExtractorMore.
Variables uni_space uni_word : ascii → bool.

Lemma split_lines_nonempty content : split_lines content ≠ [].
Proof.
  destruct content as [|c content]; simpl; [done|].
  destruct (Ascii.eqb c newline); [done|]. by destruct (split_lines content).
Qed.

Lemma split_lines_app (c1 c2 : string) :
  split_lines (c1 ++ String newline c2)%string = split_lines c1 ++ split_lines c2.
Proof.
  induction c1 as [|c c1 IH].
  - reflexivity.
  - rewrite string_app_cons. simpl. destruct (Ascii.eqb c newline).
    + by rewrite IH.
    + rewrite IH. pose proof (split_lines_nonempty c1).
      by destruct (split_lines c1).
Qed.

Lemma parse_line_line_import module line :
  parse_line uni_space uni_word module line
  = match line_import uni_space uni_word line with
    | None => module
    | Some (x, pub) =>
        {| name := name module;
           filepath := filepath module;
           imports := set_add x (imports module);
           public_imports :=
             if pub then set_add x (public_imports module)
             else public_imports module;
           is_literate := is_literate module |}
    end.
Proof.
  unfold parse_line, line_import. destruct (startswith _ _); [done|].
  destruct (Re.re_match _ _) as [[x|]|]; [|done..].
  by destruct (Re.re_search _ _).
Qed.

Lemma set_add_elem x s : x ∈ s → set_add x s = s.
Proof. intros Hx. unfold set_add. by rewrite bool_decide_eq_true_2. Qed.

(** A line whose name is already in the sets changes nothing. *)
Lemma parse_line_absorbed module line :
  (∀ x pub, line_import uni_space uni_word line = Some (x, pub) →
     x ∈ imports module ∧ (pub = true → x ∈ public_imports module)) →
  parse_line uni_space uni_word module line = module.
Proof.
  intros Habs. rewrite parse_line_line_import.
  destruct (line_import _ _ _) as [[x pub]|]; [|done].
  destruct (Habs x pub eq_refl) as [Hx Hpub].
  rewrite set_add_elem by done. destruct module, pub; simpl in *;
    [by rewrite set_add_elem by auto | done].
Qed.

Lemma parse_line_public_mono module line :
  public_imports module ⊆ public_imports (parse_line uni_space uni_word module line).
Proof.
  destruct (parse_line_public uni_space uni_word module line) as [->|(x & -> & _)];
    [done|].
  intros y Hy. apply elem_of_set_add. by right.
Qed.

Lemma fold_parse_line_mono lines module :
  imports module ⊆ imports (fold_left (parse_line uni_space uni_word) lines module)
  ∧ public_imports module
    ⊆ public_imports (fold_left (parse_line uni_space uni_word) lines module).
Proof.
  revert module. induction lines as [|line lines IH]; intros module; simpl; [done|].
  destruct (IH (parse_line uni_space uni_word module line)) as [H1 H2]. split.
  - etrans; [apply parse_line_imports_mono | done].
  - etrans; [apply parse_line_public_mono | done].
Qed.

Lemma fold_parse_line_holds lines module line x pub :
  line ∈ lines → line_import uni_space uni_word line = Some (x, pub) →
  x ∈ imports (fold_left (parse_line uni_space uni_word) lines module)
  ∧ (pub = true →
     x ∈ public_imports (fold_left (parse_line uni_space uni_word) lines module)).
Proof.
  revert module. induction lines as [|l lines IH]; intros module Hin Himp.
  - by apply elem_of_nil in Hin.
  - simpl. apply elem_of_cons in Hin as [->|Hin]; [|by apply IH].
    destruct (fold_parse_line_mono lines (parse_line uni_space uni_word module l))
      as [H1 H2].
    pose proof (parse_line_line_import module l) as Hl. rewrite Himp in Hl.
    split.
    + apply H1. rewrite Hl. simpl. apply elem_of_set_add. by left.
    + intros ->. apply H2. rewrite Hl. simpl. apply elem_of_set_add. by left.
Qed.

Lemma fold_parse_line_absorbed lines module :
  (∀ line x pub, line ∈ lines →
     line_import uni_space uni_word line = Some (x, pub) →
     x ∈ imports module ∧ (pub = true → x ∈ public_imports module)) →
  fold_left (parse_line uni_space uni_word) lines module = module.
Proof.
  induction lines as [|l lines IH]; intros Habs; simpl; [done|].
  rewrite parse_line_absorbed.
  - apply IH. intros line x pub Hin. apply Habs. by apply list_elem_of_further.
  - intros x pub. apply Habs, list_elem_of_here.
Qed.

End ExtractorMore.

(** X7.  Running the extractor a second time over the same text changes
    nothing: every name it would add is in the sets already. *)
Theorem parse_imports_idempotent uni_space uni_word module content :
  parse_imports uni_space uni_word
    (parse_imports uni_space uni_word module content) content
  = parse_imports uni_space uni_word module content.
Proof.
  unfold parse_imports. apply fold_parse_line_absorbed.
  intros line x pub Hin Himp. by eapply fold_parse_line_holds.
Qed.

(** X8.  The extractor works line by line and in order: scanning two texts
    joined by a newline is scanning the first and then, from the module so
    obtained, the second. *)
Theorem parse_imports_app uni_space uni_word module content1 content2 :
  parse_imports uni_space uni_word module
    (content1 ++ String newline content2)%string
  = parse_imports uni_space uni_word
      (parse_imports uni_space uni_word module content1) content2.
Proof.
  unfold parse_imports. by rewrite split_lines_app, fold_left_app.
Qed.

(** ** Where the extractor finds a name *)

Section Shape.
Variables uni_space uni_word : ascii → bool.

Lemma step_inv p ok p' :
  Re.step p ok = Some p' →
  ∃ c, Re.rest p = String c (Re.rest p') ∧ ok c = true ∧ Re.before p' = Some c.
Proof.
  unfold Re.step. destruct (Re.rest p) as [|c s]; [done|].
  destruct (ok c) eqn:Hc; [|done]. intros [= <-]. by exists c.
Qed.

Lemma matches_lit s p g p' g' :
  Re.matches (Re.Lit s) p g p' g' →
  Re.rest p = (s ++ Re.rest p')%string ∧ g' = g
  ∧ Re.before p' = string_last s (Re.before p).
Proof.
  revert p g. induction s as [|c s IH]; intros p g Hm; simpl in Hm.
  - by inversion Hm; subst.
  - apply matches_cat_inv in Hm as (p1 & g1 & Hc & Hs).
    inversion Hc as [|? ? ? ? Hstep| | | | | | | | | | |]; subst.
    apply step_inv in Hstep as (c' & Hrest & ->%Ascii.eqb_eq & Hbefore).
    apply IH in Hs as (Hrest' & -> & Hlast).
    rewrite Hrest, Hrest', Hlast, Hbefore. done.
Qed.

Lemma matches_opt_inv r p g p' g' :
  Re.matches (Re.Opt r) p g p' g' →
  Re.matches r p g p' g' ∨ (p' = p ∧ g' = g).
Proof. inversion 1; subst; eauto. Qed.

Lemma matches_consumes r p g p' g' :
  Re.matches r p g p' g' → ∃ w, Re.rest p = (w ++ Re.rest p')%string.
Proof.
  induction 1 as [p g|c p g p' Hs|ok p g p' Hs|p g p' Hs| | | |
                  r1 r2 p g p1 g1 p2 g2 _ [w1 H1] _ [w2 H2]|
                  r p g p' g' _ IH| |
                  r p g p1 g1 p2 g2 _ [w1 H1] _ [w2 H2]| |
                  r p g p' g' _ IH];
    try (by exists EmptyString); try done;
    try (apply step_inv in Hs as (c' & Hrest & _);
         by exists (String c' EmptyString)).
  - exists (w1 ++ w2)%string. by rewrite H1, H2, string_app_assoc.
  - exists (w1 ++ w2)%string. by rewrite H1, H2, string_app_assoc.
Qed.

Lemma string_forall_head ok w :
  w ≠ EmptyString → string_forall ok w = true →
  ∃ c w', w = String c w' ∧ ok c = true.
Proof.
  destruct w as [|c w']; [done|]. simpl. intros _ [Hc _]%andb_prop. eauto.
Qed.

(** The shape of a line that matches [import_pattern], around group 1. *)
Lemma import_pattern_shape line x :
  Re.re_match (import_pattern uni_space uni_word) line = Some (Some x) →
  ∃ pre ws post,
    line = (pre ++ "import" ++ ws ++ x ++ post)%string
    ∧ ws ≠ EmptyString ∧ string_forall uni_space ws = true
    ∧ (string_forall uni_space pre = true
       ∨ ∃ w0 w1, pre = (w0 ++ "open" ++ w1)%string
                  ∧ string_forall uni_space w0 = true
                  ∧ w1 ≠ EmptyString ∧ string_forall uni_space w1 = true)
    ∧ (post = EmptyString ∨ post = String newline EmptyString
       ∨ ∃ c post', post = String c post' ∧ uni_space c = true).
Proof.
  intros [p' Hm]%ReFacts.re_match_sound. unfold import_pattern in Hm.
  apply matches_cat_inv in Hm as (p1 & g1 & Hbol & Hm).
  inversion Hbol; subst. clear Hbol.
  apply matches_cat_inv in Hm as (p2 & g2 & Hsp & Hm).
  apply ReFacts.matches_star_class in Hsp as (w0 & Hw0 & Hok0).
  apply matches_cat_inv in Hm as (p3 & g3 & Hopen & Hm).
  apply matches_cat_inv in Hm as (p4 & g4 & Himport & Hm).
  apply matches_lit in Himport as (Himport & _ & _).
  apply matches_cat_inv in Hm as (p5 & g5 & Hws & Hm).
  apply ReFacts.matches_plus_class in Hws as (ws & Hws & Hwsne & Hwsok).
  apply matches_cat_inv in Hm as (p6 & g6 & Hgroup & Htail).
  pose proof Htail as Hg%ReFacts.matches_groupless; [|done].
  apply matches_group_inv in Hgroup as [Hx [g' Hplus]].
  apply ReFacts.matches_plus_class in Hplus as (w & Hw & _ & _).
  rewrite Hx, (ReFacts.consumed_app _ _ w) in Hg by done. injection Hg as ->.
  assert (Re.rest p6 = EmptyString ∨ Re.rest p6 = String newline EmptyString
          ∨ ∃ c post', Re.rest p6 = String c post' ∧ uni_space c = true) as Hpost.
  { apply matches_cat_inv in Htail as (p7 & g7 & Hopt & Heol).
    apply matches_opt_inv in Hopt as [Hopt|[-> _]].
    - right. right. apply matches_cat_inv in Hopt as (p8 & g8 & Hsp & Hany).
      apply ReFacts.matches_plus_class in Hsp as (w1 & Hw1 & Hne1 & Hok1).
      apply string_forall_head in Hok1 as (c & w1' & -> & Hc); [|done].
      rewrite Hw1. rewrite string_app_cons. eauto.
    - inversion Heol as [| | | | |? ? He| | | | | | |]; subst.
      apply orb_prop in He as [He%String.eqb_eq|He%String.eqb_eq]; auto. }
  simpl in Hw0.
  apply matches_opt_inv in Hopen as [Hopen|[-> _]].
  - apply matches_cat_inv in Hopen as (q & gq & Hlit & Hsp1).
    apply matches_lit in Hlit as (Hlit & _ & _).
    apply ReFacts.matches_plus_class in Hsp1 as (w1 & Hw1 & Hne1 & Hok1).
    exists (w0 ++ "open" ++ w1)%string, ws, (Re.rest p6).
    split_and!; [|done|done| |done].
    + rewrite Hw0, Hlit, Hw1, Himport, Hws, Hw.
      by rewrite !string_app_assoc.
    + right. by exists w0, w1.
  - exists w0, ws, (Re.rest p6). split_and!; [|done|done|by left|done].
    by rewrite Hw0, Himport, Hws, Hw.
Qed.

Lemma search_from_inv r prev s g :
  Re.search_from r prev s = Some g →
  ∃ a b, s = (a ++ b)%string
         ∧ Re.exec r (Re.Pos (string_last a prev) b) None (λ _ g, Some g) = Some g.
Proof.
  revert prev. induction s as [|c s IH]; intros prev; simpl.
  - destruct (Re.exec _ _ _ _) eqn:He; [|done].
    intros [= <-]. by exists EmptyString, EmptyString.
  - destruct (Re.exec _ _ _ _) eqn:He.
    + intros [= <-]. by exists EmptyString, (String c s).
    + intros (a & b & -> & Hb)%IH. by exists (String c a), b.
Qed.

(** Where [public_pattern] is found, the line has the word [public]. *)
Lemma public_pattern_shape line g :
  uni_word "p"%char = true → uni_word "c"%char = true →
  Re.re_search (public_pattern uni_word) line = Some g →
  ∃ a b, line = (a ++ "public" ++ b)%string
         ∧ Re.is_word_at uni_word (string_last a None) = false
         ∧ Re.is_word_at uni_word (string_head b) = false.
Proof.
  intros Hp Hc (a & b & -> & He)%search_from_inv.
  apply ReFacts.exec_sound in He as (p' & g' & Hm & _).
  unfold public_pattern in Hm.
  apply matches_cat_inv in Hm as (p1 & g1 & Hb1 & Hm).
  apply matches_cat_inv in Hm as (p2 & g2 & Hlit & Hb2).
  inversion Hb1 as [| | | | | |? ? ? Hx1| | | | | |]; subst.
  inversion Hb2 as [| | | | | |? ? ? Hx2| | | | | |]; subst.
  apply matches_lit in Hlit as (Hrest & _ & Hbefore). simpl in *.
  exists a, (Re.rest p'). split_and!.
  - by rewrite Hrest.
  - unfold Re.next in Hx1. simpl in Hx1. rewrite Hrest in Hx1. simpl in Hx1.
    rewrite Hp in Hx1. by destruct (Re.is_word_at _ _).
  - rewrite Hbefore in Hx2. simpl in Hx2. rewrite Hc in Hx2.
    unfold Re.next in Hx2. unfold string_head.
    revert Hx2.
    match goal with
    | |- context [Re.is_word_at uni_word ?t] =>
        by destruct (Re.is_word_at uni_word t)
    end.
Qed.

End Shape.

(** X9.  A line changes nothing or adds one name, and then the line reads:
    white space, possibly [open] and white space, the keyword [import],
    white space, the name, and then nothing more, a final newline, or white
    space and anything.  A line whose stripped text starts with [--] changes
    nothing. *)
Theorem parse_line_shape uni_space uni_word module line :
  (startswith "--" (strip uni_space line) = true →
   parse_line uni_space uni_word module line = module)
  ∧ (parse_line uni_space uni_word module line = module
     ∨ ∃ x pre ws post,
         imports (parse_line uni_space uni_word module line)
           = set_add x (imports module)
         ∧ line = (pre ++ "import" ++ ws ++ x ++ post)%string
         ∧ ws ≠ EmptyString ∧ string_forall uni_space ws = true
         ∧ (string_forall uni_space pre = true
            ∨ ∃ w0 w1, pre = (w0 ++ "open" ++ w1)%string
                       ∧ string_forall uni_space w0 = true
                       ∧ w1 ≠ EmptyString ∧ string_forall uni_space w1 = true)
         ∧ (post = EmptyString ∨ post = String newline EmptyString
            ∨ ∃ c post', post = String c post' ∧ uni_space c = true)).
Proof.
  split.
  - intros Hcomment. unfold parse_line. by rewrite Hcomment.
  - unfold parse_line. destruct (startswith _ _); [by left|].
    destruct (Re.re_match _ _) as [[x|]|] eqn:Hm; [|by left..].
    right. apply import_pattern_shape in Hm as (pre & ws & post & Hshape).
    exists x, pre, ws, post. split; [|done]. by destruct (Re.re_search _ _).
Qed.

Lemma parse_line_shape_witness :
  startswith "--" (strip ascii_space "  -- import Data.Gone") = true
  ∧ parse_line ascii_space ascii_word (new_module "M" "M.agda")
      "  -- import Data.Gone"
    = new_module "M" "M.agda".
Proof.
  split; [vm_compute; reflexivity|].
  apply (proj1 (parse_line_shape ascii_space ascii_word
                  (new_module "M" "M.agda") "  -- import Data.Gone")).
  vm_compute. reflexivity.
Defined.

(** X10.  A line adds to [public_imports] only the name it adds to
    [imports], and only if the line has [public] standing as a word: with no
    word character just before it and none just after ([p] and [c] being
    word characters). *)
Theorem parse_line_public_word uni_space uni_word module line :
  uni_word "p"%char = true → uni_word "c"%char = true →
  public_imports (parse_line uni_space uni_word module line) = public_imports module
  ∨ ∃ x a b,
      public_imports (parse_line uni_space uni_word module line)
        = set_add x (public_imports module)
      ∧ imports (parse_line uni_space uni_word module line)
        = set_add x (imports module)
      ∧ line = (a ++ "public" ++ b)%string
      ∧ Re.is_word_at uni_word (string_last a None) = false
      ∧ Re.is_word_at uni_word (string_head b) = false.
Proof.
  intros Hp Hc. unfold parse_line. destruct (startswith _ _); [by left|].
  destruct (Re.re_match _ _) as [[x|]|]; [|by left..].
  destruct (Re.re_search _ _) as [g|] eqn:Hs; [|by left].
  right. apply public_pattern_shape in Hs as (a & b & Hline & Ha & Hb); [|done..].
  by exists x, a, b.
Qed.

Lemma parse_line_public_word_witness :
  ascii_word "p"%char = true ∧ ascii_word "c"%char = true
  ∧ public_imports (parse_line ascii_space ascii_word (new_module "M" "M.agda")
                      "open import Data.Nat publicly")
    = [].
Proof.
  split_and!; [vm_compute; reflexivity..|].
  destruct (parse_line_public_word ascii_space ascii_word (new_module "M" "M.agda")
              "open import Data.Nat publicly" eq_refl eq_refl) as [H|H].
  - exact H.
  - vm_compute. reflexivity.
Defined.

(** ** Depths are bounded by the number of modules *)

(** The call of [dfs] that computes: past the three guards. *)
Lemma dfs_computed fuel modules module_name st d st' :
  dfs (S fuel) modules module_name st = Ret (d, st') →
  dict_get module_name (chain_lengths st) = None →
  dict_mem module_name modules = true →
  module_name ∉ path st →
  ∃ module st1,
    dict_get module_name modules = Some module
    ∧ dfs_imports modules (dfs fuel modules) (imports module) 0%Z
        {| chain_lengths := chain_lengths st;
           path := path st ∪ {[module_name]} |} = Ret (d, st1)
    ∧ dict_get module_name (chain_lengths st1) = None
    ∧ chain_lengths st' = chain_lengths st1 ++ [(module_name, d)].
Proof.
  rewrite dfs_unfold. intros Hrun Hget Hknown Hpath.
  rewrite Hget, Hknown in Hrun. simpl in Hrun.
  rewrite bool_decide_eq_false_2 in Hrun by done.
  apply bind_Ret_inv in Hrun as (module & Hmodule & Hrun).
  apply bind_Ret_inv in Hrun as ([md st1] & Hloop & Hrun). simpl in Hrun.
  apply bind_Ret_inv in Hrun as (path' & Hremove & [= <- <-]).
  unfold dict_item in Hmodule.
  destruct (dict_get module_name modules) as [module'|] eqn:Hm; [|done].
  injection Hmodule as ->.
  pose proof (dfs_imports_grows modules _ (dfs_dfs_post fuel modules) _ _ _ _ _ Hloop)
    as [[Hp1 (ext & Hc1 & Hnd1 & He1)] _].
  simpl in Hp1, Hc1, He1.
  assert (dict_get module_name (chain_lengths st1) = None) as Hfresh.
  { rewrite Hc1, dict_get_app, Hget. apply dict_get_None.
    intros [v Hin]%elem_of_dict_keys.
    destruct (He1 _ _ Hin) as (_ & Hnot & _). set_solver. }
  exists module, st1. split_and!; [done..|]. simpl.
  by rewrite dict_set_fresh.
Qed.

(** What a call returns: 0 at a guard, or the depth on record. *)
Lemma dfs_result fuel modules module_name st d st' :
  dfs fuel modules module_name st = Ret (d, st') →
  d = 0%Z ∨ dict_get module_name (chain_lengths st') = Some d.
Proof.
  destruct fuel as [|fuel]; [done|]. intros Hrun. pose proof Hrun as Hrun'.
  rewrite dfs_unfold in Hrun.
  destruct (dict_get module_name (chain_lengths st)) as [d0|] eqn:Hget.
  { injection Hrun as <- <-. by right. }
  destruct (dict_mem module_name modules) eqn:Hknown; simpl in Hrun.
  2:{ injection Hrun as <- <-. by left. }
  case_bool_decide as Hpath.
  { injection Hrun as <- <-. by left. }
  right. by apply dfs_dfs_post in Hrun' as [_ Hrec]; auto.
Qed.

Lemma stepped_app b lengths k d :
  stepped b lengths →
  ((d ≤ b)%Z ∨ ∃ k', dict_get k' lengths = Some (d - 1)%Z) →
  stepped b (lengths ++ [(k, d)]).
Proof.
  intros Hs Hd k0 v. rewrite dict_get_app.
  destruct (dict_get k0 lengths) as [v0|] eqn:Hk0.
  - intros [= <-] Hv. destruct (Hs _ _ Hk0 Hv) as [k' Hk'].
    exists k'. by apply dict_get_app_l.
  - simpl. destruct (String.eqb k0 k); [|done]. intros [= <-] Hv.
    destruct Hd as [Hd|[k' Hk']]; [lia|]. exists k'. by apply dict_get_app_l.
Qed.

Lemma dfs_imports_stepped modules f :
  (∀ name st d st', f name st = Ret (d, st') → dfs_post modules name st d st') →
  (∀ name st d st', f name st = Ret (d, st') →
     stepped 1 (chain_lengths st) →
     stepped 1 (chain_lengths st')
     ∧ (d = 0%Z ∨ dict_get name (chain_lengths st') = Some d)) →
  ∀ imps acc st acc' st',
    stepped 1 (chain_lengths st) →
    ((acc ≤ 1)%Z ∨ ∃ k', dict_get k' (chain_lengths st) = Some (acc - 1)%Z) →
    dfs_imports modules f imps acc st = Ret (acc', st') →
    stepped 1 (chain_lengths st')
    ∧ ((acc' ≤ 1)%Z ∨ ∃ k', dict_get k' (chain_lengths st') = Some (acc' - 1)%Z).
Proof.
  intros Hpost Hf imps.
  induction imps as [|i imps IH]; intros acc st acc' st' Hs Hacc; simpl.
  - by intros [= <- <-].
  - destruct (dict_mem i modules); [|by apply IH].
    intros ([d st1] & Hcall & Hrest)%bind_Ret_inv. simpl in Hrest.
    pose proof (Hpost _ _ _ _ Hcall) as [Hg _].
    destruct (Hf _ _ _ _ Hcall Hs) as [Hs1 Hd].
    apply IH in Hrest; [done | done |].
    destruct (Z.max_spec acc (d + 1)) as [[_ ->]|[_ ->]].
    + destruct Hd as [->|Hd]; [left; lia|]. right. exists i.
      by replace (d + 1 - 1)%Z with d by lia.
    + destruct Hacc as [?|[k' Hk']]; [by left|]. right. exists k'.
      by eapply grows_get.
Qed.

Lemma dfs_stepped fuel modules module_name st d st' :
  dfs fuel modules module_name st = Ret (d, st') →
  stepped 1 (chain_lengths st) →
  stepped 1 (chain_lengths st')
  ∧ (d = 0%Z ∨ dict_get module_name (chain_lengths st') = Some d).
Proof.
  revert module_name st d st'.
  induction fuel as [|fuel IH]; intros module_name st d st' Hrun Hs; [done|].
  split; [|by eapply dfs_result].
  pose proof Hrun as Hrun'. rewrite dfs_unfold in Hrun.
  destruct (dict_get module_name (chain_lengths st)) as [d0|] eqn:Hget.
  { by injection Hrun as <- <-. }
  destruct (dict_mem module_name modules) eqn:Hknown; simpl in Hrun.
  2:{ by injection Hrun as <- <-. }
  case_bool_decide as Hpath.
  { by injection Hrun as <- <-. }
  apply dfs_computed in Hrun' as (module & st1 & _ & Hloop & _ & ->); [|done..].
  apply (dfs_imports_stepped modules _ (dfs_dfs_post fuel modules) IH) in Hloop
    as [Hs1 Hd]; [|done|left; lia].
  by apply stepped_app.
Qed.

Lemma chains_loop_stepped fuel modules names lengths lengths' :
  stepped 1 lengths →
  chains_loop fuel modules names lengths = Ret lengths' →
  stepped 1 lengths'.
Proof.
  revert lengths. induction names as [|n names IH]; intros lengths Hs; simpl.
  - by intros [= <-].
  - destruct (dict_mem n lengths); [by apply IH|].
    intros ([d st1] & Hcall & Hrest)%bind_Ret_inv. simpl in Hrest.
    apply dfs_stepped in Hcall as [Hs1 _]; [|done]. by eapply IH.
Qed.

(** Depths in steps from [b] up to [v] take [v - b + 1] entries. *)
Lemma stepped_length b lengths k v :
  stepped b lengths → dict_get k lengths = Some v → (b ≤ v)%Z →
  (v - b + 1 ≤ Z.of_nat (length lengths))%Z.
Proof.
  intros Hs Hk Hv.
  assert (∀ n : nat, ∀ j, (b ≤ j)%Z → (v - j = Z.of_nat n)%Z →
            ∃ k', dict_get k' lengths = Some j) as Hall.
  { induction n as [|n IH]; intros j Hj Hn.
    - exists k. by replace j with v by lia.
    - destruct (IH (j + 1)%Z) as [k' Hk']; [lia..|].
      destruct (Hs _ _ Hk') as [k'' Hk'']; [lia|].
      exists k''. by replace j with (j + 1 - 1)%Z by lia. }
  assert (seqZ b (v - b + 1) ⊆+ map snd lengths) as Hsub.
  { apply NoDup_submseteq; [apply NoDup_seqZ|].
    intros j [Hj1 Hj2]%elem_of_seqZ.
    destruct (Hall (Z.to_nat (v - j)) j) as [k' Hk']; [lia..|].
    apply list_elem_of_fmap. exists (k', j). split; [done|].
    by apply dict_get_elem_of. }
  apply submseteq_length in Hsub. rewrite length_seqZ, length_map in Hsub. lia.
Qed.

Lemma length_lengths_le (modules : list (string * AgdaModule))
    (lengths : list (string * Z)) :
  NoDup (dict_keys lengths) →
  (∀ k, k ∈ dict_keys lengths → dict_mem k modules = true) →
  (length lengths ≤ length modules)%nat.
Proof.
  intros Hnd Hkeys.
  assert (dict_keys lengths ⊆+ dict_keys modules) as Hsub.
  { apply NoDup_submseteq; [done|]. intros k Hk. by apply dict_mem_keys, Hkeys. }
  apply submseteq_length in Hsub. unfold dict_keys in Hsub.
  by rewrite !length_map in Hsub.
Qed.

Lemma max_or_zero_elem values :
  (values = [] ∧ max_or_zero values = 0%Z) ∨ max_or_zero values ∈ values.
Proof.
  destruct values as [|v values]; [by left|]. right. simpl.
  destruct (fold_max_spec values v) as [[->|H] _].
  - apply list_elem_of_here.
  - by apply list_elem_of_further.
Qed.

(** The analysis of a run that returns is that of the run on a stack with
    room for the recursion. *)
Lemma analyze_dependency_patterns_within_agrees frames modules pat :
  analyze_dependency_patterns_within frames modules = Ret pat →
  calculate_dependency_chains_within frames modules = Ret (pat_chain_lengths pat)
  ∧ analyze_dependency_patterns modules = Ret pat.
Proof.
  unfold analyze_dependency_patterns_within, analyze_dependency_patterns.
  intros (lengths & Hrun & Hpat)%bind_Ret_inv.
  rewrite (calculate_dependency_chains_within_agrees _ _ _ Hrun). simpl.
  destruct (categorize lengths) as [[sh me] de].
  injection Hpat as <-. by rewrite Hrun.
Qed.

Lemma analyze_dependency_patterns_within_room frames modules :
  (length modules < frames)%nat →
  analyze_dependency_patterns_within frames modules
  = analyze_dependency_patterns modules.
Proof.
  intros Hroom. unfold analyze_dependency_patterns_within.
  by rewrite calculate_dependency_chains_within_room.
Qed.

Lemma analyze_dependency_patterns_bounds modules :
  ∃ pat,
    analyze_dependency_patterns modules = Ret pat
    ∧ (∀ k d, dict_get k (pat_chain_lengths pat) = Some d →
         (0 ≤ d ≤ Z.of_nat (length modules))%Z)
    ∧ (0 ≤ max_depth pat ≤ Z.of_nat (length modules))%Z.
Proof.
  destruct (calculate_dependency_chains_returns modules)
    as (lengths & Hrun & Hnd & Hkeys & Hpos).
  unfold analyze_dependency_patterns. rewrite Hrun. simpl.
  destruct (categorize lengths) as [[sh me] de]. eexists. split; [done|]. simpl.
  assert (stepped 1 lengths) as Hs.
  { eapply chains_loop_stepped; [|exact Hrun]. by intros k v. }
  pose proof (length_lengths_le modules lengths Hnd (λ k, proj1 (Hkeys k))) as Hlen.
  assert (∀ k d, dict_get k lengths = Some d →
            (0 ≤ d ≤ Z.of_nat (length modules))%Z) as Hbound.
  { intros k d Hd. split; [by eapply Hpos, dict_get_elem_of|].
    destruct (Z.le_gt_cases 1 d) as [Hd1|]; [|lia].
    pose proof (stepped_length 1 lengths k d Hs Hd Hd1). lia. }
  split; [done|].
  destruct (max_or_zero_elem (map snd lengths)) as [[_ ->]|Hin]; [lia|].
  apply list_elem_of_fmap in Hin as ([k d] & Hd & Hin). simpl in Hd. rewrite Hd.
  apply (Hbound k). by apply elem_of_dict_get.
Qed.

(** X11.  On every graph, cyclic or not, and whatever room the call stack
    has, an analysis that returns has each computed depth between 0 and the
    number of modules, and its maximum depth as well.  The analysis returns
    whenever the stack has room for more nested calls than there are
    modules. *)
Theorem depths_bounded frames modules :
  ((length modules < frames)%nat →
   ∃ pat, analyze_dependency_patterns_within frames modules = Ret pat)
  ∧ ∀ pat,
      analyze_dependency_patterns_within frames modules = Ret pat →
      (∀ k d, dict_get k (pat_chain_lengths pat) = Some d →
         (0 ≤ d ≤ Z.of_nat (length modules))%Z)
      ∧ (0 ≤ max_depth pat ≤ Z.of_nat (length modules))%Z.
Proof.
  destruct (analyze_dependency_patterns_bounds modules) as (pat0 & Hrun0 & Hb).
  split.
  - intros Hroom. exists pat0.
    by rewrite analyze_dependency_patterns_within_room.
  - intros pat [_ Hrun]%analyze_dependency_patterns_within_agrees.
    by assert (pat = pat0) as -> by congruence.
Qed.

(** ** On an acyclic graph the depth is the length of the longest chain *)

Lemma max_over_ge lengths imps acc :
  (acc ≤ max_over lengths imps acc)%Z
  ∧ ∀ i, i ∈ imps → (depth_of lengths i + 1 ≤ max_over lengths imps acc)%Z.
Proof.
  unfold max_over. revert acc.
  induction imps as [|j imps IH]; intros acc; simpl.
  - split; [lia | by intros i ?%elem_of_nil].
  - destruct (IH (Z.max acc (depth_of lengths j + 1))) as [Hacc Hall].
    split; [lia|]. intros i [->|Hi]%elem_of_cons; [lia | by apply Hall].
Qed.

Lemma max_over_attained lengths imps acc :
  max_over lengths imps acc = acc
  ∨ ∃ i, i ∈ imps ∧ max_over lengths imps acc = (depth_of lengths i + 1)%Z.
Proof.
  unfold max_over. revert acc.
  induction imps as [|j imps IH]; intros acc; simpl; [by left|].
  destruct (IH (Z.max acc (depth_of lengths j + 1))) as [->|(i & Hi & ->)].
  - destruct (Z.max_spec acc (depth_of lengths j + 1)) as [[_ ->]|[_ ->]].
    + right. exists j. split; [apply list_elem_of_here | done].
    + by left.
  - right. exists i. split; [by apply list_elem_of_further | done].
Qed.

Section AcyclicMore.
Variable modules : list (string * AgdaModule).
Hypothesis Hacyclic : acyclic modules.

(** What the computation returns on an acyclic graph, in terms of edges:
    the depth of a module is above that of each module it has an edge to,
    and, when not 0, just above that of one of them. *)
Lemma acyclic_lengths :
  ∃ lengths,
    calculate_dependency_chains modules = Ret lengths
    ∧ NoDup (dict_keys lengths)
    ∧ (∀ k, k ∈ dict_keys lengths ↔ dict_mem k modules = true)
    ∧ (∀ k, (0 ≤ depth_of lengths k)%Z)
    ∧ (∀ a b, edge modules a b →
         (depth_of lengths b + 1 ≤ depth_of lengths a)%Z)
    ∧ (∀ a, depth_of lengths a ≠ 0%Z →
         ∃ b, edge modules a b
              ∧ depth_of lengths a = (depth_of lengths b + 1)%Z).
Proof.
  destruct (calculate_dependency_chains_returns modules)
    as (lengths & Hrun & Hnd & Hkeys & Hpos).
  pose proof (calculate_dependency_chains_settled modules Hacyclic lengths Hrun)
    as Hsettled.
  assert (∀ a m, dict_get a modules = Some m →
            dict_get a lengths = Some (max_over lengths (resolvable modules m) 0))
    as Hrec.
  { intros a m Hm.
    assert (dict_mem a modules = true) as Ha by (unfold dict_mem; by rewrite Hm).
    apply Hkeys, dict_mem_keys in Ha. unfold dict_mem in Ha.
    destruct (dict_get a lengths) as [d|] eqn:Hd; [|done].
    destruct (Hsettled a d Hd) as (m' & Hm' & _ & ->). congruence. }
  exists lengths. split_and!; [done..| | |].
  - intros k. unfold depth_of. destruct (dict_get k lengths) as [v|] eqn:Hk; [|done].
    simpl. by apply dict_get_elem_of, Hpos in Hk.
  - intros a b (m & Hm & Hb). unfold depth_of at 2. rewrite (Hrec a m Hm). simpl.
    by apply max_over_ge.
  - intros a Ha. unfold depth_of in Ha.
    destruct (dict_get a lengths) as [d|] eqn:Hd; [|done]. simpl in Ha.
    destruct (Hsettled a d Hd) as (m & Hm & _ & Hdm).
    destruct (max_over_attained lengths (resolvable modules m) 0)
      as [H0|(b & Hb & Hmax)]; [congruence|].
    exists b. split; [by exists m|]. unfold depth_of at 1. rewrite Hd. simpl.
    congruence.
Qed.

End AcyclicMore.

Lemma chain_from_bound modules (depth : string → Z) :
  (∀ a b, edge modules a b → (depth b + 1 ≤ depth a)%Z) →
  (∀ k, (0 ≤ depth k)%Z) →
  ∀ l k, chain_from modules k l → (Z.of_nat (length l) ≤ depth k)%Z.
Proof.
  intros Hedge Hpos l. induction l as [|k' l IH]; intros k; simpl.
  - intros _. apply Hpos.
  - intros [He Hl]. apply IH in Hl. apply Hedge in He. lia.
Qed.

Lemma chain_from_attained modules (depth : string → Z) :
  (∀ a, depth a ≠ 0%Z → ∃ b, edge modules a b ∧ depth a = (depth b + 1)%Z) →
  (∀ k, (0 ≤ depth k)%Z) →
  ∀ k, ∃ l, chain_from modules k l ∧ Z.of_nat (length l) = depth k.
Proof.
  intros Hstep Hpos.
  assert (∀ n : nat, ∀ k, depth k = Z.of_nat n →
            ∃ l, chain_from modules k l ∧ Z.of_nat (length l) = depth k) as Hall.
  { induction n as [|n IH]; intros k Hk.
    - exists []. by rewrite Hk.
    - destruct (Hstep k) as (b & He & Hb); [lia|].
      destruct (IH b) as (l & Hl & Hlen); [lia|].
      exists (b :: l). split; [done|]. simpl length. lia. }
  intros k. apply (Hall (Z.to_nat (depth k))). specialize (Hpos k). lia.
Qed.

(** X12.  On an acyclic graph the computed depth of a module is the length
    of the longest chain of imports between known modules that starts at
    it: no chain is longer and one is that long.  Along every edge the depth
    goes down, and every depth is below the number of known modules. *)
Theorem acyclic_depth_longest_chain modules :
  acyclic modules →
  ∃ lengths,
    calculate_dependency_chains modules = Ret lengths
    ∧ (∀ k l, chain_from modules k l →
         (Z.of_nat (length l) ≤ depth_of lengths k)%Z)
    ∧ (∀ k, ∃ l, chain_from modules k l
                 ∧ Z.of_nat (length l) = depth_of lengths k)
    ∧ (∀ a b, edge modules a b → (depth_of lengths b < depth_of lengths a)%Z)
    ∧ (∀ k, dict_mem k modules = true →
         (depth_of lengths k < Z.of_nat (length modules))%Z).
Proof.
  intros Hacyclic.
  destruct (acyclic_lengths modules Hacyclic)
    as (lengths & Hrun & Hnd & Hkeys & Hpos & Hedge & Hstep).
  exists lengths. split_and!; [done | | | |].
  - intros k l. by apply chain_from_bound.
  - by apply chain_from_attained.
  - intros a b He%Hedge. lia.
  - intros k Hk%Hkeys%dict_mem_keys. unfold dict_mem in Hk.
    destruct (dict_get k lengths) as [d|] eqn:Hd; [|done].
    assert (stepped 0 lengths) as Hs.
    { intros a v Ha Hv. destruct (Hstep a) as (b & He & Hb).
      - unfold depth_of. rewrite Ha. simpl. lia.
      - unfold depth_of at 1 in Hb. rewrite Ha in Hb. simpl in Hb.
        destruct He as (m & _ & Hbin). unfold resolvable in Hbin.
        apply list_elem_of_In, List.filter_In in Hbin as [_ Hbk].
        apply Hkeys, dict_mem_keys in Hbk. unfold dict_mem in Hbk.
        unfold depth_of in Hb. destruct (dict_get b lengths) as [vb|] eqn:Hvb; [|done].
        simpl in Hb. exists b. rewrite Hvb. f_equal. lia. }
    pose proof (Hpos k) as Hk0. unfold depth_of in Hk0 |- *. rewrite Hd in *.
    simpl in *.
    pose proof (stepped_length 0 lengths k d Hs Hd Hk0).
    pose proof (length_lengths_le modules lengths Hnd (λ k, proj1 (Hkeys k))). lia.
Qed.

Lemma acyclic_depth_longest_chain_witness :
  acyclic chain_modules
  ∧ chain_from chain_modules "A" ["B"; "C"; "D"]
  ∧ ∃ lengths,
      calculate_dependency_chains chain_modules = Ret lengths
      ∧ (3 ≤ depth_of lengths "A")%Z.
Proof.
  split; [exact chain_modules_acyclic|].
  assert (chain_from chain_modules "A" ["B"; "C"; "D"]) as Hchain.
  { simpl. split_and!; [| | |done]; eexists; (split; [vm_compute; reflexivity|]);
      vm_compute; apply list_elem_of_here. }
  split; [done|].
  destruct (acyclic_depth_longest_chain chain_modules chain_modules_acyclic)
    as (lengths & Hrun & Hbound & _).
  exists lengths. split; [done|]. exact (Hbound "A" ["B"; "C"; "D"] Hchain).
Defined.

Lemma same_graph_tc modules modules' a b :
  same_graph modules modules' →
  tc (edge modules) a b → tc (edge modules') a b.
Proof.
  intros [_ He]. induction 1 as [a b H|a b c H _ IH].
  - apply tc_once. by apply He.
  - eapply tc_l; [by apply He | done].
Qed.

Lemma same_graph_chain modules modules' k l :
  same_graph modules modules' →
  chain_from modules k l → chain_from modules' k l.
Proof.
  intros [_ He]. revert k. induction l as [|k' l IH]; intros k; simpl; [done|].
  intros [H Hl]. split; [by apply He | by apply IH].
Qed.

(** X13.  On an acyclic graph the depths do not depend on the order in
    which the modules were discovered, nor on the order in which the import
    sets are gone through: two tables with the same known modules and the
    same edges get the same depths. *)
Theorem acyclic_depths_order_independent modules modules' :
  acyclic modules → same_graph modules modules' →
  ∃ lengths lengths',
    calculate_dependency_chains modules = Ret lengths
    ∧ calculate_dependency_chains modules' = Ret lengths'
    ∧ ∀ k, depth_of lengths k = depth_of lengths' k.
Proof.
  intros Hacyclic Hsame.
  assert (same_graph modules' modules) as Hsame'.
  { destruct Hsame as [Hk He]. split; [done|]. intros a b. by rewrite He. }
  assert (acyclic modules') as Hacyclic'.
  { intros a Ha. apply (Hacyclic a). by eapply same_graph_tc. }
  destruct (acyclic_lengths modules Hacyclic)
    as (lengths & Hrun & _ & _ & Hpos & Hedge & Hstep).
  destruct (acyclic_lengths modules' Hacyclic')
    as (lengths' & Hrun' & _ & _ & Hpos' & Hedge' & Hstep').
  exists lengths, lengths'. split_and!; [done..|]. intros k.
  destruct (chain_from_attained modules _ Hstep Hpos k) as (l & Hl & Hlen).
  destruct (chain_from_attained modules' _ Hstep' Hpos' k) as (l' & Hl' & Hlen').
  apply (same_graph_chain _ _ _ _ Hsame) in Hl.
  apply (same_graph_chain _ _ _ _ Hsame') in Hl'.
  apply (chain_from_bound modules' _ Hedge' Hpos') in Hl.
  apply (chain_from_bound modules _ Hedge Hpos) in Hl'. lia.
Qed.

Lemma dict_get_Permutation {V} (d d' : list (string * V)) k :
  NoDup (dict_keys d) → d ≡ₚ d' → dict_get k d = dict_get k d'.
Proof.
  intros Hnd Hperm.
  assert (NoDup (dict_keys d')) as Hnd'.
  { unfold dict_keys in *. by rewrite <- Hperm. }
  destruct (dict_get k d) as [v|] eqn:Hd.
  - symmetry. apply elem_of_dict_get; [done|]. rewrite <- Hperm.
    by apply dict_get_elem_of.
  - destruct (dict_get k d') as [v'|] eqn:Hd'; [|done].
    apply dict_get_elem_of in Hd'. rewrite <- Hperm in Hd'.
    apply elem_of_dict_get in Hd'; [congruence | done].
Qed.

(** The same table in another order of discovery is the same graph. *)
Lemma same_graph_Permutation modules modules' :
  NoDup (dict_keys modules) → modules ≡ₚ modules' → same_graph modules modules'.
Proof.
  intros Hnd Hperm.
  assert (∀ k : string, dict_mem k modules = dict_mem k modules') as Hmem.
  { intros k. unfold dict_mem. by rewrite (dict_get_Permutation _ _ k Hnd Hperm). }
  assert (∀ m, resolvable modules m = resolvable modules' m) as Hres.
  { intros m. unfold resolvable. apply List.filter_ext. intros i. apply Hmem. }
  split; [done|]. intros a b. unfold edge.
  rewrite (dict_get_Permutation _ _ a Hnd Hperm).
  split; intros (m & Hm & Hb); exists m; by rewrite ?Hres in *.
Qed.

Lemma acyclic_depths_order_independent_witness :
  acyclic chain_modules
  ∧ same_graph chain_modules (reverse chain_modules)
  ∧ ∃ lengths lengths',
      calculate_dependency_chains chain_modules = Ret lengths
      ∧ calculate_dependency_chains (reverse chain_modules) = Ret lengths'
      ∧ depth_of lengths "A" = depth_of lengths' "A".
Proof.
  assert (same_graph chain_modules (reverse chain_modules)) as Hsame.
  { apply same_graph_Permutation; [|by rewrite reverse_Permutation].
    apply (bool_decide_unpack _). vm_compute. reflexivity. }
  split_and!; [exact chain_modules_acyclic | done |].
  destruct (acyclic_depths_order_independent chain_modules (reverse chain_modules)
              chain_modules_acyclic Hsame) as (lengths & lengths' & H1 & H2 & H).
  exists lengths, lengths'. split_and!; [done..|]. apply H.
Defined.

(** ** The report figures *)

Lemma categorize_lengths items :
  let '(sh, me, de) := categorize items in
  (length sh + length me + length de = length items)%nat.
Proof.
  rewrite categorize_filter.
  rewrite <- (Permutation_length (tiers_Permutation items)).
  rewrite !length_app. lia.
Qed.

(** X14.  The figures of the report add up: the three tiers hold as many
    entries as there are depths on record, one per module of the table
    (whose keys are distinct); the maximum depth is the depth of some module
    and no module is deeper; on an empty table it is 0. *)
Theorem report_figures modules :
  NoDup (dict_keys modules) →
  ∃ pat,
    analyze_dependency_patterns modules = Ret pat
    ∧ (length (shallow pat) + length (medium pat) + length (deep pat)
       = length modules)%nat
    ∧ (∀ k d, dict_get k (pat_chain_lengths pat) = Some d → (d ≤ max_depth pat)%Z)
    ∧ (modules = [] → max_depth pat = 0%Z)
    ∧ (modules ≠ [] →
       ∃ k, dict_get k (pat_chain_lengths pat) = Some (max_depth pat)).
Proof.
  intros Hmodules.
  destruct (calculate_dependency_chains_returns modules)
    as (lengths & Hrun & Hnd & Hkeys & Hpos).
  unfold analyze_dependency_patterns. rewrite Hrun. simpl.
  pose proof (categorize_lengths lengths) as Hcat.
  destruct (categorize lengths) as [[sh me] de]. eexists. split; [done|]. simpl.
  assert (length lengths = length modules) as Hlen.
  { assert (dict_keys lengths ≡ₚ dict_keys modules) as Hperm.
    { apply NoDup_Permutation; [done..|]. intros k. rewrite Hkeys.
      apply dict_mem_keys. }
    apply Permutation_length in Hperm. unfold dict_keys in Hperm.
    by rewrite !length_map in Hperm. }
  split_and!.
  - rewrite !(Permutation_length (sorted_Permutation _ _ _)). lia.
  - intros k d Hd. apply dict_get_elem_of in Hd.
    assert (d ∈ map snd lengths) as Hin.
    { apply list_elem_of_fmap. by exists (k, d). }
    destruct (map snd lengths) as [|v values]; [by apply elem_of_nil in Hin|].
    simpl. destruct (fold_max_spec values v) as (_ & Hv & Hall).
    apply elem_of_cons in Hin as [->|Hin]; [done | by apply Hall].
  - intros ->. by destruct lengths.
  - intros Hne. destruct (max_or_zero_elem (map snd lengths)) as [[Hnil _]|Hin].
    + destruct lengths; [|done]. by destruct modules.
    + apply list_elem_of_fmap in Hin as ([k d] & Hd & Hin). simpl in Hd.
      exists k. rewrite Hd. by apply elem_of_dict_get.
Qed.

Lemma report_figures_witness :
  NoDup (dict_keys fan_modules)
  ∧ ∃ pat,
      analyze_dependency_patterns fan_modules = Ret pat
      ∧ (length (shallow pat) + length (medium pat) + length (deep pat) = 7)%nat.
Proof.
  assert (NoDup (dict_keys fan_modules)) as Hnd.
  { apply (bool_decide_unpack _). vm_compute. reflexivity. }
  split; [done|].
  destruct (report_figures fan_modules Hnd) as (pat & Hrun & Hlen & _).
  exists pat. split; [done|]. exact Hlen.
Defined.

(** ** The graph file *)

Lemma length_slice_to_le {A} limit (l : list A) :
  (0 ≤ limit)%Z → (Z.of_nat (length (slice_to limit l)) ≤ limit)%Z.
Proof. intros H. rewrite slice_to_nonneg by done. rewrite length_take. lia. Qed.

Lemma fold_set_add_spec (l : list (string * Z)) (s : list string) :
  (∀ x, x ∈ fold_left (λ s e, set_add (fst e) s) l s ↔ x ∈ s ∨ x ∈ map fst l)
  ∧ (length (fold_left (λ s e, set_add (fst e) s) l s) ≤ length s + length l)%nat
  ∧ (NoDup s → NoDup (fold_left (λ s e, set_add (fst e) s) l s)).
Proof.
  revert s. induction l as [|[k v] l IH]; intros s; simpl.
  - split_and!; [|lia|done]. intros x. split; [by left|].
    by intros [|?%elem_of_nil].
  - destruct (IH (set_add k s)) as (Hin & Hlen & Hnd). split_and!.
    + intros x. rewrite Hin, elem_of_set_add, elem_of_cons. tauto.
    + etrans; [exact Hlen|]. unfold set_add. case_bool_decide; [lia|].
      rewrite length_app. simpl. lia.
    + intros Hs. by apply Hnd, NoDup_set_add.
Qed.

Lemma dot_nodes_names self hubs foundational chain_lengths important_modules :
  (∀ x, x ∈ important_modules → dict_mem x (modules self) = true) →
  map node_name
    (dot_nodes self hubs foundational chain_lengths important_modules)
  = important_modules
  ∧ Forall (λ n, node_depth n = depth_of chain_lengths (node_name n))
      (dot_nodes self hubs foundational chain_lengths important_modules).
Proof.
  unfold dot_nodes.
  induction important_modules as [|x l IH]; intros Hknown; [done|].
  cbn [flat_map]. rewrite (Hknown x) by apply list_elem_of_here.
  cbn [negb app map node_name].
  destruct IH as [IH1 IH2].
  { intros y Hy. by apply Hknown, list_elem_of_further. }
  split; [by f_equal | by constructor].
Qed.

Lemma dot_edges_spec self important_modules :
  ∃ edges,
    dot_edges self important_modules = Ret edges
    ∧ Forall (λ e, edge_from e ∈ important_modules
                   ∧ edge_ok self important_modules e) edges.
Proof.
  unfold dot_edges.
  assert (∀ l acc,
    Forall (λ e, edge_from e ∈ important_modules
                 ∧ edge_ok self important_modules e) acc →
    (∀ x, x ∈ l → x ∈ important_modules) →
    ∃ edges,
      fold_left
        (λ acc module_name,
           edges ← acc;
           if negb (dict_mem module_name (modules self)) then Ret edges
           else
             module ← dict_item module_name (modules self);
             Ret (edges ++
                  flat_map
                    (λ imported,
                       if mem imported important_modules
                       then [{| edge_from := module_name; edge_to := imported;
                                edge_bold := mem imported (public_imports module) |}]
                       else [])
                    (imports module)))
        l (Ret acc) = Ret edges
      ∧ Forall (λ e, edge_from e ∈ important_modules
                     ∧ edge_ok self important_modules e) edges) as Hgen.
  { induction l as [|x l IH]; intros acc Hacc Hl; simpl; [by exists acc|].
    unfold dict_mem, dict_item.
    destruct (dict_get x (modules self)) as [module|] eqn:Hx; simpl.
    - apply IH; [|intros y Hy; by apply Hl, list_elem_of_further].
      apply Forall_app. split; [done|]. apply Forall_forall.
      intros e (i & Hi & He)%list_elem_of_In%in_flat_map.
      unfold mem in He. case_bool_decide as Himp; [|done].
      apply list_elem_of_In, list_elem_of_singleton in He as ->. simpl.
      split; [apply Hl, list_elem_of_here|]. split; [done|].
      exists module. split_and!; [done | by apply list_elem_of_In | done].
    - apply IH; [done|]. intros y Hy. by apply Hl, list_elem_of_further. }
  by apply Hgen.
Qed.

Lemma analyze_dependency_patterns_returns modules :
  ∃ pat lengths,
    analyze_dependency_patterns modules = Ret pat
    ∧ calculate_dependency_chains modules = Ret lengths
    ∧ pat_chain_lengths pat = lengths
    ∧ ∀ e, e ∈ deep pat → dict_mem (fst e) modules = true.
Proof.
  destruct (calculate_dependency_chains_returns modules)
    as (lengths & Hrun & Hnd & Hkeys & Hpos).
  unfold analyze_dependency_patterns. rewrite Hrun. simpl.
  rewrite categorize_filter. eexists _, lengths. split_and!; [done..|]. simpl.
  intros [k d]. rewrite sorted_Permutation, elem_of_List_filter. intros [Hin _].
  apply Hkeys, elem_of_dict_keys. by exists d.
Qed.

(** X15.  For a bound [max_nodes ≥ 0] and whatever order the interpreter
    goes through the set [important_modules] in, a graph file that
    [generate_dot_graph] writes has at most [max_nodes] nodes for modules,
    each once and each a known module with its computed depth (the test that
    skips unknown names never fires); every edge goes from such a node to
    such a node that the first imports, in bold exactly when the import is a
    public one; and the two nodes of the legend come last, always, so the
    file has two node statements more than it has module nodes.  The file is
    written whenever the call stack has room for more nested calls of [dfs]
    than there are modules. *)
Theorem generate_dot_graph_spec frames set_iter self max_nodes :
  (∀ l, set_iter l ≡ₚ l) →
  (0 ≤ max_nodes)%Z →
  ((length (modules self) < frames)%nat →
   ∃ graph, generate_dot_graph frames set_iter self max_nodes = Ret graph)
  ∧ ∀ graph,
      generate_dot_graph frames set_iter self max_nodes = Ret graph →
      ∃ lengths,
        calculate_dependency_chains_within frames (modules self) = Ret lengths
        ∧ (Z.of_nat (length (graph_nodes graph)) ≤ max_nodes)%Z
        ∧ NoDup (map node_name (graph_nodes graph))
        ∧ Forall (λ n, dict_mem (node_name n) (modules self) = true
                       ∧ node_depth n = depth_of lengths (node_name n))
            (graph_nodes graph)
        ∧ Forall (λ e, edge_from e ∈ map node_name (graph_nodes graph)
                       ∧ edge_ok self (map node_name (graph_nodes graph)) e)
            (graph_edges graph)
        ∧ graph_legend graph = legend_nodes
        ∧ length (node_statements graph)
          = (length (graph_nodes graph) + 2)%nat.
Proof.
  intros Hperm Hmax.
  assert (∀ pat,
    analyze_dependency_patterns_within frames (modules self) = Ret pat →
    ∃ graph,
      generate_dot_graph frames set_iter self max_nodes = Ret graph
      ∧ (Z.of_nat (length (graph_nodes graph)) ≤ max_nodes)%Z
      ∧ NoDup (map node_name (graph_nodes graph))
      ∧ Forall (λ n, dict_mem (node_name n) (modules self) = true
                     ∧ node_depth n
                       = depth_of (pat_chain_lengths pat) (node_name n))
          (graph_nodes graph)
      ∧ Forall (λ e, edge_from e ∈ map node_name (graph_nodes graph)
                     ∧ edge_ok self (map node_name (graph_nodes graph)) e)
          (graph_edges graph)
      ∧ graph_legend graph = legend_nodes) as Hfrom.
  { intros pat Hpat. unfold generate_dot_graph, select_important.
    rewrite Hpat. simpl.
    apply analyze_dependency_patterns_within_agrees in Hpat as [_ Hpat].
    destruct (analyze_dependency_patterns_returns (modules self))
      as (pat' & lengths & Hpat' & Hrun & Hlengths & Hdeep).
    assert (pat' = pat) as -> by congruence.
    set (hubs := find_hub_modules self (max_nodes / 2)).
    set (foundational := find_foundational_modules self (max_nodes / 4)).
    set (deep_part := slice_to (max_nodes / 4) (deep pat)).
    set (s1 := fold_left (λ s e, set_add (fst e) s) hubs []).
    set (s2 := fold_left (λ s e, set_add (fst e) s) foundational s1).
    set (important := fold_left (λ s e, set_add (fst e) s) deep_part s2).
    destruct (fold_set_add_spec hubs []) as (Hin1 & Hlen1 & Hnd1).
    destruct (fold_set_add_spec foundational s1) as (Hin2 & Hlen2 & Hnd2).
    destruct (fold_set_add_spec deep_part s2) as (Hin3 & Hlen3 & Hnd3).
    fold s1 in Hin1, Hlen1, Hnd1, Hin2, Hlen2, Hnd2.
    fold s2 in Hin2, Hlen2, Hnd2, Hin3, Hlen3, Hnd3.
    fold important in Hin3, Hlen3, Hnd3.
    assert (∀ x, x ∈ set_iter important → dict_mem x (modules self) = true)
      as Hknown.
    { intros x. rewrite (Hperm important).
      intros [[[Hx|Hx]%Hin1|Hx]%Hin2|Hx]%Hin3.
      - by apply elem_of_nil in Hx.
      - apply list_elem_of_fmap in Hx as ([k c] & -> & Hx).
        apply elem_of_find_hub_modules in Hx as [Hx _]. by apply dict_mem_keys.
      - apply list_elem_of_fmap in Hx as ([k c] & -> & Hx).
        apply elem_of_find_foundational_modules in Hx as (m & Hm & _).
        apply dict_mem_keys, list_elem_of_fmap. by exists (k, m).
      - apply list_elem_of_fmap in Hx as (e & -> & Hx).
        by apply Hdeep, (slice_to_subseteq (max_nodes / 4)). }
    destruct (dot_nodes_names self hubs foundational (pat_chain_lengths pat)
                (set_iter important) Hknown) as [Hnames Hdepths].
    destruct (dot_edges_spec self (set_iter important)) as (edges & Hedges & Hok).
    rewrite Hedges. simpl. eexists. split; [done|]. cbn [graph_nodes graph_edges graph_legend].
    split_and!; [| | | |done].
    - rewrite <- (length_map node_name), Hnames, (Hperm important).
      pose proof (length_slice_to_le (max_nodes / 2)
                    (sorted snd true
                       (map (λ name, (name, dependent_count self name))
                          (dict_keys (modules self))))) as Hh.
      pose proof (length_slice_to_le (max_nodes / 4)
                    (sorted snd false
                       (map (λ item, (fst item,
                                      internal_imports (modules self) (snd item)))
                          (modules self)))) as Hf.
      pose proof (length_slice_to_le (max_nodes / 4) (deep pat)) as Hd.
      fold (find_hub_modules self (max_nodes / 2)) in Hh.
      fold (find_foundational_modules self (max_nodes / 4)) in Hf.
      fold hubs in Hh. fold foundational in Hf. fold deep_part in Hd.
      simpl in Hlen1.
      assert (0 ≤ max_nodes / 2)%Z by (apply Z.div_pos; lia).
      assert (0 ≤ max_nodes / 4)%Z by (apply Z.div_pos; lia).
      assert (max_nodes / 2 + max_nodes / 4 + max_nodes / 4 ≤ max_nodes)%Z
        by (Z.div_mod_to_equations; lia).
      lia.
    - rewrite Hnames, (Hperm important). apply Hnd3, Hnd2, Hnd1, NoDup_nil_2.
    - apply Forall_forall. intros n Hn. split.
      + apply Hknown. rewrite <- Hnames. apply list_elem_of_fmap. by exists n.
      + rewrite Forall_forall in Hdepths. by apply Hdepths.
    - by rewrite Hnames. }
  split.
  - intros Hroom.
    destruct (analyze_dependency_patterns_returns (modules self))
      as (pat & _ & Hpat & _).
    rewrite <- (analyze_dependency_patterns_within_room frames) in Hpat by done.
    destruct (Hfrom pat Hpat) as (graph & Hrun & _). by exists graph.
  - intros graph Hrun.
    destruct (analyze_dependency_patterns_within frames (modules self))
      as [pat| |] eqn:Hpat.
    + destruct (Hfrom pat eq_refl) as (graph' & Hrun' & Hlen & Hnd & Hn & He & Hl).
      assert (graph' = graph) as -> by congruence.
      apply analyze_dependency_patterns_within_agrees in Hpat as [Hchains _].
      exists (pat_chain_lengths pat). split_and!; [done..|].
      unfold node_statements. rewrite Hl, length_app, !length_map. done.
    + unfold generate_dot_graph, select_important in Hrun.
      rewrite Hpat in Hrun. discriminate Hrun.
    + unfold generate_dot_graph, select_important in Hrun.
      rewrite Hpat in Hrun. discriminate Hrun.
Qed.

Lemma generate_dot_graph_spec_witness :
  (∀ l : list string, reverse l ≡ₚ l)
  ∧ (0 ≤ 100)%Z
  ∧ ∃ graph,
      generate_dot_graph 3 reverse sample_analyzer 100 = Ret graph
      ∧ (Z.of_nat (length (graph_nodes graph)) ≤ 100)%Z
      ∧ graph_legend graph = legend_nodes.
Proof.
  assert (∀ l : list string, reverse l ≡ₚ l) as Hperm.
  { intros l. apply reverse_Permutation. }
  split_and!; [exact Hperm | lia |].
  destruct (generate_dot_graph_spec 3 reverse sample_analyzer 100 Hperm
              ltac:(lia)) as [Hreturns Hgraph].
  destruct Hreturns as [graph Hrun]; [vm_compute; lia|].
  destruct (Hgraph graph Hrun) as (lengths & _ & Hlen & _ & _ & _ & Hlegend & _).
  exists graph. split_and!; [exact Hrun | exact Hlen | exact Hlegend].
Defined.

(** ** The categories of the report *)

Lemma split_on_nonempty sep s : split_on sep s ≠ [].
Proof.
  destruct s as [|c s]; simpl; [done|].
  destruct (Ascii.eqb c sep); [done|]. by destruct (split_on sep s).
Qed.

Lemma first_component_prefix module_name :
  contains_char "."%char (first_component module_name) = false
  ∧ ∃ rest, module_name = (first_component module_name ++ rest)%string
            ∧ (rest = EmptyString ∨ ∃ r, rest = String "."%char r).
Proof.
  unfold first_component. induction module_name as [|c s [IH1 (rest & IH2 & IH3)]].
  - split; [done|]. exists EmptyString. split; [done | by left].
  - simpl. destruct (Ascii.eqb_spec c "."%char) as [->|Hne]; simpl.
    + split; [done|]. exists (String "."%char s). split; [done|]. right. eauto.
    + pose proof (split_on_nonempty "."%char s) as Hs.
      destruct (split_on "."%char s) as [|piece pieces]; [done|]. simpl in *.
      split.
      * rewrite IH1, orb_false_r. by apply Ascii.eqb_neq.
      * exists rest. split; [|done]. rewrite string_app_cons. by f_equal.
Qed.

Lemma category_counts_acc (names : list string) (acc : gmap string Z) c :
  default 0%Z
    (fold_left
       (λ categories module_name,
          let parts := split_on "."%char module_name in
          if (0 <? Z.of_nat (length parts))%Z
          then <[hd EmptyString parts :=
                   (default 0 (categories !! hd EmptyString parts) + 1)%Z]>
                 categories
          else categories)
       names acc !! c)
  = (default 0 (acc !! c)
     + Z.of_nat (length (List.filter
                           (λ k, String.eqb (first_component k) c) names)))%Z.
Proof.
  revert acc. induction names as [|n names IH]; intros acc; simpl; [lia|].
  rewrite IH. pose proof (split_on_nonempty "."%char n) as Hn.
  unfold first_component.
  destruct (split_on "."%char n) as [|piece pieces] eqn:Hparts; [done|].
  cbn [length hd]. rewrite (proj2 (Z.ltb_lt _ _)) by lia.
  rewrite lookup_insert. destruct (String.eqb_spec piece c) as [->|Hne].
  - rewrite decide_True by done. simpl length. simpl. lia.
  - rewrite decide_False by done. lia.
Qed.

(** X16.  In the report, the count shown for a category is the number of
    modules whose name starts with that category, the text before the first
    dot of the name; a category is listed only if some module has it. *)
Theorem category_counts_spec modules :
  (∀ c, default 0%Z (category_counts modules !! c)
        = Z.of_nat (length (List.filter
                              (λ k, String.eqb (first_component k) c)
                              (dict_keys modules))))
  ∧ (∀ c n, category_counts modules !! c = Some n →
       (1 ≤ n)%Z ∧ ∃ k, k ∈ dict_keys modules ∧ first_component k = c)
  ∧ (∀ k, contains_char "."%char (first_component k) = false
          ∧ ∃ rest, k = (first_component k ++ rest)%string
                    ∧ (rest = EmptyString ∨ ∃ r, rest = String "."%char r)).
Proof.
  assert (∀ c, default 0%Z (category_counts modules !! c)
               = Z.of_nat (length (List.filter
                                     (λ k, String.eqb (first_component k) c)
                                     (dict_keys modules)))) as Hcount.
  { intros c. unfold category_counts. rewrite category_counts_acc.
    rewrite lookup_empty. simpl. lia. }
  split_and!; [done | | apply first_component_prefix].
  intros c n Hc.
  assert (∀ (names : list string) (acc : gmap string Z),
            (∀ c n, acc !! c = Some n → (1 ≤ n)%Z) →
            ∀ c n,
              fold_left
                (λ categories module_name,
                   let parts := split_on "."%char module_name in
                   if (0 <? Z.of_nat (length parts))%Z
                   then <[hd EmptyString parts :=
                            (default 0 (categories !! hd EmptyString parts) + 1)%Z]>
                          categories
                   else categories)
                names acc !! c = Some n → (1 ≤ n)%Z) as Hpos.
  { induction names as [|k names IH]; intros acc Hacc c' n'; simpl; [apply Hacc|].
    apply IH. intros c0 n0. destruct (0 <? _)%Z; [|apply Hacc].
    rewrite lookup_insert. case_decide as Hd; [|apply Hacc].
    intros [= <-].
    destruct (acc !! hd EmptyString (split_on "."%char k)) as [v|] eqn:Hv;
      simpl; [apply Hacc in Hv; lia | lia]. }
  assert (1 ≤ n)%Z as Hn.
  { eapply (Hpos (dict_keys modules) ∅); [|exact Hc]. intros c0 n0.
    by rewrite lookup_empty. }
  split; [done|]. specialize (Hcount c). rewrite Hc in Hcount. simpl in Hcount.
  destruct (List.filter _ _) as [|k ks] eqn:Hf; [simpl in Hcount; lia|].
  assert (In k (List.filter (λ k, String.eqb (first_component k) c)
                  (dict_keys modules))) as Hk by (rewrite Hf; by left).
  apply List.filter_In in Hk as [Hk He%String.eqb_eq].
  exists k. split; [by apply list_elem_of_In | done].
Qed.

(** ** Literate files: what the block patterns read *)

Section RxFacts.
Context {R : Type}.
Implicit Types (k : Re.pos → option string → option R).

Lemma runs_of_nil r : runs_of r EmptyString.
Proof. by exists []. Qed.

Lemma runs_of_cons r w1 w2 :
  reads r w1 → runs_of r w2 → runs_of r (w1 ++ w2)%string.
Proof. intros H1 (ws & -> & Hws). exists (w1 :: ws). split; [done | by constructor]. Qed.

Lemma star_loop_ran body k r :
  (∀ p g k' m, body p g k' = Some m → ran (reads r) k' p m) →
  ∀ n p g m, Rx.star_loop body k n p g = Some m → ran (runs_of r) k p m.
Proof.
  intros Hbody n. induction n as [|n IH]; intros p g m; simpl.
  - intros Hk. exists p, g, EmptyString. split_and!; [done..|apply runs_of_nil].
  - destruct (body p g _) as [m'|] eqn:Hb.
    + intros [= ->]. apply Hbody in Hb as (p1 & g1 & w1 & Hk1 & Hr1 & Hw1).
      destruct (_ <? _)%nat; [|done].
      apply IH in Hk1 as (p2 & g2 & w2 & Hk2 & Hr2 & Hw2).
      exists p2, g2, (w1 ++ w2)%string. split_and!; [done| |by apply runs_of_cons].
      by rewrite Hr1, Hr2, string_app_assoc.
    + intros Hk. exists p, g, EmptyString. split_and!; [done..|apply runs_of_nil].
Qed.

Lemma lazy_loop_ran body k r :
  (∀ p g k' m, body p g k' = Some m → ran (reads r) k' p m) →
  ∀ n p g m, Rx.lazy_loop body k n p g = Some m → ran (runs_of r) k p m.
Proof.
  intros Hbody n. induction n as [|n IH]; intros p g m; simpl.
  - destruct (k p g) as [m'|] eqn:Hk; [|done]. intros [= ->].
    exists p, g, EmptyString. split_and!; [done..|apply runs_of_nil].
  - destruct (k p g) as [m'|] eqn:Hk.
    + intros [= ->].
      exists p, g, EmptyString. split_and!; [done..|apply runs_of_nil].
    + intros Hb. apply Hbody in Hb as (p1 & g1 & w1 & Hk1 & Hr1 & Hw1).
      destruct (_ <? _)%nat; [|done].
      apply IH in Hk1 as (p2 & g2 & w2 & Hk2 & Hr2 & Hw2).
      exists p2, g2, (w1 ++ w2)%string. split_and!; [done| |by apply runs_of_cons].
      by rewrite Hr1, Hr2, string_app_assoc.
Qed.

(** The matcher finds only what the pattern reads. *)
Lemma exec_ran r :
  ∀ p g k m, Rx.exec r p g k = Some m → ran (reads r) k p m.
Proof.
  induction r as [|c|ok| |r1 IH1 r2 IH2|r1 IH1|r1 IH1|r1 IH1];
    intros p g k m; simpl.
  - intros Hk. by exists p, g, EmptyString.
  - destruct (Re.step p _) as [p'|] eqn:Hs; [|done]. intros Hk.
    apply step_inv in Hs as (c' & Hrest & ->%Ascii.eqb_eq & _).
    by exists p', g, (String c' EmptyString).
  - destruct (Re.step p _) as [p'|] eqn:Hs; [|done]. intros Hk.
    apply step_inv in Hs as (c' & Hrest & Hok & _).
    exists p', g, (String c' EmptyString). split_and!; [done..|]. by exists c'.
  - destruct (Re.step p _) as [p'|] eqn:Hs; [|done]. intros Hk.
    apply step_inv in Hs as (c' & Hrest & _ & _).
    exists p', g, (String c' EmptyString). split_and!; [done..|]. by exists c'.
  - intros H. apply IH1 in H as (p1 & g1 & w1 & H & Hr1 & Hw1).
    apply IH2 in H as (p2 & g2 & w2 & H & Hr2 & Hw2).
    exists p2, g2, (w1 ++ w2)%string. split_and!; [done| |by exists w1, w2].
    by rewrite Hr1, Hr2, string_app_assoc.
  - apply star_loop_ran, IH1.
  - apply lazy_loop_ran, IH1.
  - intros H. apply IH1 in H as (p1 & g1 & w1 & H & Hr1 & Hw1).
    by exists p1, (Some (Re.consumed p p1)), w1.
Qed.

End RxFacts.

Lemma reads_lit s w : reads (Rx.Lit s) w → w = s.
Proof.
  revert w. induction s as [|c s IH]; intros w; simpl; [done|].
  intros (w1 & w2 & -> & -> & ->%IH). done.
Qed.

Lemma match_at_reads r prev t res :
  Rx.match_at r (Re.Pos prev t) = Some res →
  ∃ w b, t = (w ++ b)%string ∧ reads r w.
Proof.
  unfold Rx.match_at. intros (p' & g' & w & _ & Hrest & Hw)%exec_ran.
  by exists w, (Re.rest p').
Qed.

(** Both block patterns need the opening fence. *)
Lemma agda_block_pattern_fence prev t res :
  Rx.match_at agda_block_pattern (Re.Pos prev t) = Some res →
  ∃ b, t = (agda_fence ++ b)%string.
Proof.
  intros (w & b & -> & Hw)%match_at_reads. unfold agda_block_pattern in Hw.
  destruct Hw as (w1 & w2 & -> & ->%reads_lit & _).
  exists (w2 ++ b)%string. by rewrite string_app_assoc.
Qed.

Lemma hidden_block_pattern_shape uni_space prev t res :
  Rx.match_at (hidden_block_pattern uni_space) (Re.Pos prev t) = Some res →
  (∃ b, t = ("<!--" ++ b)%string) ∧ occurs agda_fence t.
Proof.
  intros (w & b & -> & Hw)%match_at_reads. unfold hidden_block_pattern in Hw.
  destruct Hw as (w1 & w2 & -> & ->%reads_lit & w3 & w4 & -> & _ & Hw4).
  destruct Hw4 as (w5 & w6 & -> & ->%reads_lit & _). split.
  - exists ((w3 ++ agda_fence ++ w6) ++ b)%string. by rewrite string_app_assoc.
  - exists ("<!--" ++ w3)%string, (w6 ++ b)%string.
    by rewrite !string_app_assoc.
Qed.

Lemma findall_from_nil r fuel prev s :
  (∀ prev' a t, s = (a ++ t)%string → Rx.match_at r (Re.Pos prev' t) = None) →
  Rx.findall_from r fuel prev s = [].
Proof.
  revert prev s. induction fuel as [|fuel IH]; intros prev s Hnone; [done|].
  simpl. rewrite (Hnone prev EmptyString s) by done.
  destruct s as [|c s]; [done|]. apply IH. intros prev' a t ->.
  by apply (Hnone prev' (String c a)).
Qed.

Lemma occurs_suffix t a s : occurs t s → occurs t (a ++ s)%string.
Proof.
  intros (a' & b & ->). exists (a ++ a')%string, b. by rewrite string_app_assoc.
Qed.

Lemma parse_imports_empty uni_space uni_word module :
  parse_imports uni_space uni_word module EmptyString = module.
Proof. reflexivity. Qed.

(** X17.  A literate file without the opening fence of an Agda code block
    gives no code: [_extract_code_blocks] returns the empty string, and
    scanning the file leaves the module as it was, whatever the prose says
    about imports. *)
Theorem extract_code_blocks_no_fence uni_space uni_word module raw :
  ¬ occurs agda_fence raw →
  extract_code_blocks uni_space raw = EmptyString
  ∧ (is_literate module = true →
     parse_file uni_space uni_word module raw = module).
Proof.
  intros Hno.
  assert (extract_code_blocks uni_space raw = EmptyString) as Hextract.
  { unfold extract_code_blocks, Rx.findall.
    rewrite !findall_from_nil; [done | |].
    - intros prev a t ->. destruct (Rx.match_at _ _) as [res|] eqn:Hm; [|done].
      apply hidden_block_pattern_shape in Hm as [_ Hocc].
      destruct Hno. by apply occurs_suffix.
    - intros prev a t ->. destruct (Rx.match_at _ _) as [res|] eqn:Hm; [|done].
      apply agda_block_pattern_fence in Hm as [b ->].
      destruct Hno. by exists a, b. }
  split; [done|]. intros Hlit. unfold parse_file. by rewrite Hlit, Hextract.
Qed.

Lemma contains_char_app c (a b : string) :
  contains_char c (a ++ b)%string = contains_char c a || contains_char c b.
Proof.
  induction a as [|x a IH]; [done|]. rewrite string_app_cons. simpl.
  by rewrite IH, orb_assoc.
Qed.

Lemma no_backquote_no_fence s :
  contains_char "`"%char s = false → ¬ occurs agda_fence s.
Proof.
  intros Hs (a & b & ->). rewrite !contains_char_app in Hs.
  apply orb_false_elim in Hs as [_ Hs]. by apply orb_false_elim in Hs as [Hs _].
Qed.

Lemma extract_code_blocks_no_fence_witness :
  ¬ occurs agda_fence "We import Data.Nat here."
  ∧ parse_file ascii_space ascii_word (new_module "M" "M.lagda.md")
      "We import Data.Nat here."
    = new_module "M" "M.lagda.md".
Proof.
  assert (¬ occurs agda_fence "We import Data.Nat here.") as Hno.
  { apply no_backquote_no_fence. vm_compute. reflexivity. }
  split; [done|].
  apply (extract_code_blocks_no_fence ascii_space ascii_word
           (new_module "M" "M.lagda.md") _ Hno).
  vm_compute. reflexivity.
Defined.

(** ** Literate files: one code block *)

Lemma exec_chr {R} c prev c' t g (k : Re.pos → option string → option R) :
  Rx.exec (Rx.Chr c) (Re.Pos prev (String c' t)) g k
  = if Ascii.eqb c c' then k (Re.Pos (Some c') t) g else None.
Proof. simpl. unfold Re.step. simpl. by destruct (Ascii.eqb c c'). Qed.

Lemma exec_cat {R} r1 r2 p g (k : Re.pos → option string → option R) :
  Rx.exec (Rx.Cat r1 r2) p g k = Rx.exec r1 p g (λ p' g', Rx.exec r2 p' g' k).
Proof. done. Qed.

Lemma exec_lit {R} s prev t g (k : Re.pos → option string → option R) :
  Rx.exec (Rx.Lit s) (Re.Pos prev (s ++ t)%string) g k
  = k (Re.Pos (string_last s prev) t) g.
Proof.
  revert prev. induction s as [|c s IH]; intros prev; [done|].
  rewrite string_app_cons.
  change (Rx.Lit (String c s)) with (Rx.Cat (Rx.Chr c) (Rx.Lit s)).
  rewrite exec_cat, exec_chr, Ascii.eqb_refl. apply IH.
Qed.

Lemma exec_lit_fail {R} c s prev c' t g (k : Re.pos → option string → option R) :
  c' ≠ c →
  Rx.exec (Rx.Lit (String c s)) (Re.Pos prev (String c' t)) g k = None.
Proof.
  intros Hc. change (Rx.Lit (String c s)) with (Rx.Cat (Rx.Chr c) (Rx.Lit s)).
  rewrite exec_cat, exec_chr. by destruct (Ascii.eqb_spec c c') as [->|_].
Qed.

(** The search goes over text without a backquote without finding a
    block. *)
Lemma agda_block_pattern_no_backquote prev c t :
  c ≠ "`"%char →
  Rx.match_at agda_block_pattern (Re.Pos prev (String c t)) = None.
Proof.
  intros Hc. unfold Rx.match_at, agda_block_pattern. rewrite exec_cat.
  by apply exec_lit_fail.
Qed.

Lemma agda_block_pattern_empty prev :
  Rx.match_at agda_block_pattern (Re.Pos prev EmptyString) = None.
Proof. reflexivity. Qed.

Lemma contains_char_cons c x s :
  contains_char c (String x s) = false → x ≠ c ∧ contains_char c s = false.
Proof.
  simpl. intros [Hx Hs]%orb_false_elim. split; [|done]. by apply Ascii.eqb_neq.
Qed.

Lemma findall_from_skip fuel prev pre t :
  contains_char "`"%char pre = false →
  Rx.findall_from agda_block_pattern (String.length pre + fuel) prev (pre ++ t)%string
  = Rx.findall_from agda_block_pattern fuel (string_last pre prev) t.
Proof.
  revert prev. induction pre as [|c pre IH]; intros prev Hpre; [done|].
  apply contains_char_cons in Hpre as [Hc Hpre].
  rewrite string_app_cons. simpl String.length. simpl Nat.add.
  cbn [Rx.findall_from]. rewrite agda_block_pattern_no_backquote by done.
  by apply IH.
Qed.

Lemma findall_from_no_backquote fuel prev s :
  contains_char "`"%char s = false →
  Rx.findall_from agda_block_pattern fuel prev s = [].
Proof.
  intros Hs. apply findall_from_nil. intros prev' a t ->.
  rewrite contains_char_app in Hs. apply orb_false_elim in Hs as [_ Ht].
  destruct t as [|c t]; [apply agda_block_pattern_empty|].
  apply contains_char_cons in Ht as [Hc _].
  by apply agda_block_pattern_no_backquote.
Qed.

(** The lazy run inside a block stops at the first backquotes. *)
Lemma lazy_loop_code {R} (k : Re.pos → option string → option R) n prev code t g m :
  (∀ prev' c t', c ≠ "`"%char → k (Re.Pos prev' (String c t')) g = None) →
  contains_char "`"%char code = false →
  (String.length code ≤ n)%nat →
  k (Re.Pos (string_last code prev) t) g = Some m →
  Rx.lazy_loop (Rx.exec Rx.AnyAll) k n (Re.Pos prev (code ++ t)%string) g = Some m.
Proof.
  intros Hk. revert n prev. induction code as [|c code IH]; intros n prev Hcode Hn Hend.
  - change (EmptyString ++ t)%string with t. simpl in Hend.
    destruct n; cbn [Rx.lazy_loop]; by rewrite Hend.
  - destruct n as [|n]; simpl in Hn; [lia|].
    apply contains_char_cons in Hcode as [Hc Hcode].
    rewrite string_app_cons. cbn [Rx.lazy_loop]. rewrite Hk by done.
    cbn [Rx.exec]. unfold Re.step. cbn [Re.rest].
    rewrite (proj2 (Nat.ltb_lt _ _)) by (simpl; lia).
    apply IH; [done | lia | done].
Qed.

Lemma agda_block_pattern_block prev code post :
  contains_char "`"%char code = false →
  Rx.match_at agda_block_pattern
    (Re.Pos prev (agda_fence ++ code ++ "```" ++ post)%string)
  = Some (Some code, Re.Pos (Some "`"%char) post).
Proof.
  intros Hcode. unfold Rx.match_at, agda_block_pattern.
  rewrite exec_cat, exec_lit, exec_cat. cbn [Rx.exec Re.rest].
  apply lazy_loop_code; [|done|rewrite string_length_app; lia|].
  - intros prev' c t' Hc. by apply exec_lit_fail.
  - rewrite exec_lit. unfold Re.consumed. cbn [Re.rest].
    rewrite string_length_app.
    replace (String.length code + String.length ("```" ++ post)%string
             - String.length ("```" ++ post)%string)%nat
      with (String.length code) by lia.
    by rewrite substring_app_prefix.
Qed.

(** X18.  A literate file with one Agda code block, no backquote elsewhere
    and no HTML comment gives the code of that block and nothing else:
    [_extract_code_blocks] on prose, the fence, code, three backquotes and
    prose returns the code. *)
Theorem extract_code_blocks_one_block uni_space pre code post :
  contains_char "`"%char pre = false →
  contains_char "`"%char code = false →
  contains_char "`"%char post = false →
  ¬ occurs "<!--" (pre ++ agda_fence ++ code ++ "```" ++ post)%string →
  extract_code_blocks uni_space (pre ++ agda_fence ++ code ++ "```" ++ post)%string
  = code.
Proof.
  intros Hpre Hcode Hpost Hhidden. unfold extract_code_blocks.
  assert (Rx.findall (hidden_block_pattern uni_space)
            (pre ++ agda_fence ++ code ++ "```" ++ post)%string = []) as ->.
  { apply findall_from_nil. intros prev a t Heq.
    destruct (Rx.match_at _ _) as [res|] eqn:Hm; [|done].
    apply hidden_block_pattern_shape in Hm as [[b ->] _].
    destruct Hhidden. exists a, b. by rewrite Heq. }
  assert (Rx.findall agda_block_pattern
            (pre ++ agda_fence ++ code ++ "```" ++ post)%string = [code]) as ->.
  { unfold Rx.findall.
    replace (S (String.length (pre ++ agda_fence ++ code ++ "```" ++ post)%string))
      with (String.length pre
            + S (String.length (agda_fence ++ code ++ "```" ++ post)%string))%nat
      by (rewrite !string_length_app; lia).
    rewrite findall_from_skip by done. cbn [Rx.findall_from].
    rewrite agda_block_pattern_block by done. cbn [Re.rest Re.before default].
    f_equal.
    rewrite (proj2 (Nat.ltb_lt _ _)).
    - by apply findall_from_no_backquote.
    - rewrite !string_length_app. simpl. lia. }
  done.
Qed.

Lemma extract_code_blocks_one_block_witness :
  let pre := "# Numbers
" in
  let code := "open import Data.Bool
" in
  let post := "
The end." in
  contains_char "`"%char pre = false
  ∧ contains_char "`"%char code = false
  ∧ contains_char "`"%char post = false
  ∧ extract_code_blocks ascii_space
      (pre ++ agda_fence ++ code ++ "```" ++ post)%string = code.
Proof.
  intros pre code post.
  split_and!; [vm_compute; reflexivity..|].
  apply extract_code_blocks_one_block; [vm_compute; reflexivity..|].
  intros (a & b & Heq).
  assert (contains_char "<"%char (a ++ "<!--" ++ b)%string = true) as Hc.
  { rewrite !contains_char_app. simpl. by rewrite orb_true_r. }
  rewrite <- Heq in Hc. vm_compute in Hc. discriminate Hc.
Defined.

(** ** Literate files: a hidden code block *)

Lemma findall_agda_block_one pre code post :
  contains_char "`"%char pre = false →
  contains_char "`"%char code = false →
  contains_char "`"%char post = false →
  Rx.findall agda_block_pattern (pre ++ agda_fence ++ code ++ "```" ++ post)%string
  = [code].
Proof.
  intros Hpre Hcode Hpost. unfold Rx.findall.
  replace (S (String.length (pre ++ agda_fence ++ code ++ "```" ++ post)%string))
    with (String.length pre
          + S (String.length (agda_fence ++ code ++ "```" ++ post)%string))%nat
    by (rewrite !string_length_app; lia).
  rewrite findall_from_skip by done. cbn [Rx.findall_from].
  rewrite agda_block_pattern_block by done. cbn [Re.rest Re.before default].
  f_equal. rewrite (proj2 (Nat.ltb_lt _ _)).
  - by apply findall_from_no_backquote.
  - rewrite !string_length_app. simpl. lia.
Qed.

(** A greedy run of a class stops where the class stops, when the
    continuation accepts that position. *)
Lemma star_loop_class_stop {R} ok (k : Re.pos → option string → option R)
    n prev ws t g m :
  string_forall ok ws = true →
  string_head t = None ∨ (∃ c, string_head t = Some c ∧ ok c = false) →
  (String.length ws ≤ n)%nat →
  k (Re.Pos (string_last ws prev) t) g = Some m →
  Rx.star_loop (Rx.exec (Rx.Class ok)) k n (Re.Pos prev (ws ++ t)%string) g
  = Some m.
Proof.
  intros Hws Ht. revert n prev Hws.
  induction ws as [|c ws IH]; intros n prev Hws Hn Hend.
  - change (EmptyString ++ t)%string with t. simpl in Hend.
    destruct n; cbn [Rx.star_loop]; [done|].
    cbn [Rx.exec]. unfold Re.step. cbn [Re.rest].
    destruct t as [|c t]; [done|].
    destruct Ht as [Ht|(c' & [= <-] & Hc)]; [done|]. by rewrite Hc.
  - destruct n as [|n]; simpl in Hn; [lia|]. simpl in Hws.
    apply andb_prop in Hws as [Hc Hws].
    rewrite string_app_cons. cbn [Rx.star_loop Rx.exec]. unfold Re.step.
    cbn [Re.rest]. rewrite Hc.
    rewrite (proj2 (Nat.ltb_lt _ _)) by (simpl; lia).
    rewrite IH; [done..| lia | done].
Qed.

Lemma hidden_block_pattern_not_lt uni_space prev c t :
  c ≠ "<"%char →
  Rx.match_at (hidden_block_pattern uni_space) (Re.Pos prev (String c t)) = None.
Proof.
  intros Hc. unfold Rx.match_at, hidden_block_pattern. rewrite exec_cat.
  by apply exec_lit_fail.
Qed.

Lemma findall_from_hidden_none uni_space fuel prev s :
  contains_char "<"%char s = false →
  Rx.findall_from (hidden_block_pattern uni_space) fuel prev s = [].
Proof.
  intros Hs. apply findall_from_nil. intros prev' a t ->.
  rewrite contains_char_app in Hs. apply orb_false_elim in Hs as [_ Ht].
  destruct t as [|c t]; [done|].
  apply contains_char_cons in Ht as [Hc _]. by apply hidden_block_pattern_not_lt.
Qed.

Lemma findall_from_hidden_skip uni_space fuel prev pre t :
  contains_char "<"%char pre = false →
  Rx.findall_from (hidden_block_pattern uni_space) (String.length pre + fuel)
    prev (pre ++ t)%string
  = Rx.findall_from (hidden_block_pattern uni_space) fuel (string_last pre prev) t.
Proof.
  revert prev. induction pre as [|c pre IH]; intros prev Hpre; [done|].
  apply contains_char_cons in Hpre as [Hc Hpre].
  rewrite string_app_cons. simpl String.length. simpl Nat.add.
  cbn [Rx.findall_from]. rewrite hidden_block_pattern_not_lt by done.
  by apply IH.
Qed.

Lemma exec_star {R} r p g (k : Re.pos → option string → option R) :
  Rx.exec (Rx.Star r) p g k
  = Rx.star_loop (Rx.exec r) k (String.length (Re.rest p)) p g.
Proof. done. Qed.

Lemma exec_group_lazy {R} r p g (k : Re.pos → option string → option R) :
  Rx.exec (Rx.Group (Rx.Lazy r)) p g k
  = Rx.lazy_loop (Rx.exec r) (λ p' _, k p' (Some (Re.consumed p p')))
      (String.length (Re.rest p)) p g.
Proof. done. Qed.

Lemma hidden_block_pattern_block uni_space prev ws code ws' post :
  uni_space "`"%char = false → uni_space "-"%char = false →
  string_forall uni_space ws = true → string_forall uni_space ws' = true →
  contains_char "`"%char code = false →
  Rx.match_at (hidden_block_pattern uni_space)
    (Re.Pos prev
       ("<!--" ++ ws ++ agda_fence ++ code ++ "```" ++ ws' ++ "-->" ++ post)%string)
  = Some (Some code, Re.Pos (Some ">"%char) post).
Proof.
  intros Hq Hd Hws Hws' Hcode. unfold Rx.match_at, hidden_block_pattern.
  rewrite exec_cat, exec_lit, exec_cat, exec_star. cbn [Re.rest].
  apply star_loop_class_stop; [done | | rewrite string_length_app; lia |].
  { right. exists "`"%char. by split. }
  rewrite exec_cat, exec_lit, exec_cat, exec_group_lazy. cbn [Re.rest].
  apply lazy_loop_code; [|done|rewrite string_length_app; lia|].
  { intros prev' c t' Hc. cbv beta. rewrite exec_cat. by apply exec_lit_fail. }
  cbv beta. rewrite exec_cat, exec_lit, exec_cat, exec_star. cbn [Re.rest].
  apply star_loop_class_stop; [done | | rewrite string_length_app; lia |].
  { right. exists "-"%char. by split. }
  rewrite exec_lit. unfold Re.consumed. cbn [Re.rest].
  rewrite string_length_app.
  replace (String.length code
           + String.length ("```" ++ ws' ++ "-->" ++ post)%string
           - String.length ("```" ++ ws' ++ "-->" ++ post)%string)%nat
    with (String.length code) by lia.
  by rewrite substring_app_prefix.
Qed.

(** X19.  A hidden code block, an Agda block inside an HTML comment, is
    found by both patterns, so its code comes out twice, joined by a
    newline: once as a block and once as a hidden block. *)
Theorem extract_code_blocks_hidden_block uni_space pre ws code ws' post :
  uni_space "`"%char = false → uni_space "-"%char = false →
  string_forall uni_space ws = true → string_forall uni_space ws' = true →
  contains_char "`"%char pre = false → contains_char "<"%char pre = false →
  contains_char "`"%char code = false →
  contains_char "`"%char post = false → contains_char "<"%char post = false →
  extract_code_blocks uni_space
    (pre ++ "<!--" ++ ws ++ agda_fence ++ code ++ "```" ++ ws' ++ "-->" ++ post)%string
  = (code ++ String newline code)%string.
Proof.
  intros Hq Hd Hws Hws' Hpre1 Hpre2 Hcode Hpost1 Hpost2.
  assert (∀ w, string_forall uni_space w = true → contains_char "`"%char w = false)
    as Hspace.
  { induction w as [|c w IH]; simpl; [done|]. intros [Hc Hw]%andb_prop.
    rewrite IH, orb_false_r by done. apply Ascii.eqb_neq. by intros ->; congruence. }
  unfold extract_code_blocks.
  assert (Rx.findall agda_block_pattern
            (pre ++ "<!--" ++ ws ++ agda_fence ++ code ++ "```" ++ ws' ++ "-->"
             ++ post)%string = [code]) as ->.
  { replace (pre ++ "<!--" ++ ws ++ agda_fence ++ code ++ "```" ++ ws' ++ "-->"
             ++ post)%string
      with ((pre ++ "<!--" ++ ws) ++ agda_fence ++ code ++ "```"
            ++ (ws' ++ "-->" ++ post))%string
      by (by rewrite !string_app_assoc).
    apply findall_agda_block_one; [|done|].
    - rewrite !contains_char_app, Hpre1, (Hspace ws) by done. done.
    - rewrite !contains_char_app, Hpost1, (Hspace ws') by done. done. }
  assert (Rx.findall (hidden_block_pattern uni_space)
            (pre ++ "<!--" ++ ws ++ agda_fence ++ code ++ "```" ++ ws' ++ "-->"
             ++ post)%string = [code]) as ->.
  { unfold Rx.findall.
    replace (S (String.length
                  (pre ++ "<!--" ++ ws ++ agda_fence ++ code ++ "```" ++ ws'
                   ++ "-->" ++ post)%string))
      with (String.length pre
            + S (String.length
                   ("<!--" ++ ws ++ agda_fence ++ code ++ "```" ++ ws' ++ "-->"
                    ++ post)%string))%nat
      by (rewrite !string_length_app; lia).
    rewrite findall_from_hidden_skip by done. cbn [Rx.findall_from].
    rewrite hidden_block_pattern_block by done. cbn [Re.rest Re.before default].
    f_equal. rewrite (proj2 (Nat.ltb_lt _ _)).
    - by apply findall_from_hidden_none.
    - rewrite !string_length_app. simpl. lia. }
  done.
Qed.

Lemma extract_code_blocks_hidden_block_witness :
  let nl := String newline EmptyString in
  ascii_space "`"%char = false ∧ ascii_space "-"%char = false
  ∧ extract_code_blocks ascii_space
      ("<!--" ++ nl ++ agda_fence ++ "open import Data.Nat" ++ "```" ++ nl
       ++ "-->" ++ "")%string
    = ("open import Data.Nat" ++ String newline "open import Data.Nat")%string.
Proof.
  intros nl. split_and!; [vm_compute; reflexivity..|].
  apply (extract_code_blocks_hidden_block ascii_space "" nl
           "open import Data.Nat" nl ""); vm_compute; reflexivity.
Defined.
